(** * PDF-Merger: grouping, metadata extraction, naming and merging

    A shallow embedding of the three variants of the merge operation of the
    repository:

    - the single-backend Express server ([Backend]): [safePdfFileName],
      [extractGroupIdFromFilename], [isAllegato], [normalizeTextForSearch],
      [cleanupCandidateName], [extractIntestatario] and the
      [/api/merge-pdfs] route;
    - the serverless handler of [api/merge-pdfs.ts] ([Serverless]):
      [safeName] and [handler];
    - the in-browser variant ([Client]): [safeFilenamePart],
      [orderGroupFiles] and the naming of [processFiles].

    JavaScript strings are sequences of UTF-16 code units; regular
    expressions are run by a small backtracking matcher that follows the
    priority order of the ECMAScript matcher. *)

From Stdlib Require Import String Ascii.
From Stdlib Require Import List NArith ZArith Bool Lia.
From Stdlib Require Import Permutation Sorted DecimalNat.
Import ListNotations.

Set Implicit Arguments.

(* ================================================================== *)
(** ** JavaScript strings *)

Module JS.

(** A string is the list of its UTF-16 code units. *)
Definition jsstring := list N.

(** The code units of an ASCII literal. *)
Definition str (s : string) : jsstring :=
  map N_of_ascii (list_ascii_of_string s).

Fixpoint eqb (a b : jsstring) : bool :=
  match a, b with
  | [], [] => true
  | x :: a', y :: b' => N.eqb x y && eqb a' b'
  | _, _ => false
  end.

(** Truthiness of a string value: every string but the empty one. *)
Definition truthy (s : jsstring) : bool :=
  match s with [] => false | _ => true end.

(** *** Character classes *)

Definition between (lo hi c : N) : bool := N.leb lo c && N.leb c hi.

Definition is_digit (c : N) : bool := between 48 57 c.
Definition is_upper (c : N) : bool := between 65 90 c.
Definition is_lower (c : N) : bool := between 97 122 c.

(** [\w]: ASCII letters, digits and the underscore. *)
Definition is_word (c : N) : bool :=
  is_upper c || is_lower c || is_digit c || N.eqb c 95.

(** [\s], which is also what [trim] strips: WhiteSpace and LineTerminator. *)
Definition is_space (c : N) : bool :=
  between 9 13 c || N.eqb c 32 || N.eqb c 160 || N.eqb c 5760
  || between 8192 8202 c || N.eqb c 8232 || N.eqb c 8233 || N.eqb c 8239
  || N.eqb c 8287 || N.eqb c 12288 || N.eqb c 65279.

(** A literal character of a pattern. *)
Definition chr (a : ascii) (c : N) : bool := N.eqb c (N_of_ascii a).

(** A literal ASCII letter under the [i] flag.  Canonicalisation never maps
    a code unit above 127 to one below 128, so the letter matches exactly
    its two ASCII cases; other characters match themselves. *)
Definition fold_ascii (c : N) : N := if is_upper c then (c + 32)%N else c.
Definition chr_i (a : ascii) (c : N) : bool :=
  N.eqb (fold_ascii c) (fold_ascii (N_of_ascii a)).

(** Membership in a bracket class given by its listed characters. *)
Definition one_of (s : string) (c : N) : bool :=
  existsb (N.eqb c) (str s).

(** *** Plain string operations *)

Fixpoint drop_spaces (s : jsstring) : jsstring :=
  match s with
  | c :: s' => if is_space c then drop_spaces s' else s
  | [] => []
  end.

(** [String.prototype.trim]. *)
Definition trim (s : jsstring) : jsstring :=
  rev (drop_spaces (rev (drop_spaces s))).

Fixpoint starts_with (p s : jsstring) : bool :=
  match p, s with
  | [], _ => true
  | x :: p', y :: s' => N.eqb x y && starts_with p' s'
  | _ :: _, [] => false
  end.

(** [s.indexOf(p)]: the first index at which [p] occurs, [None] for -1. *)
Fixpoint indexOf (p s : jsstring) : option nat :=
  if starts_with p s then Some 0
  else match s with
       | [] => None
       | _ :: s' => option_map S (indexOf p s')
       end.

(** [s.includes(p)]. *)
Definition includes (p s : jsstring) : bool :=
  match indexOf p s with Some _ => true | None => false end.

(** [s.slice(0, n)] for [0 <= n]. *)
Definition slice0 (n : nat) (s : jsstring) : jsstring := firstn n s.

(** [s.replace(a, b)] with a one-character string pattern: only the first
    occurrence is replaced. *)
Fixpoint replace1 (a b : N) (s : jsstring) : jsstring :=
  match s with
  | [] => []
  | c :: s' => if N.eqb c a then b :: s' else c :: replace1 a b s'
  end.

(** Decimal rendering of a loop counter, as in a template literal. *)
Fixpoint digits_of_uint (d : Decimal.uint) : jsstring :=
  match d with
  | Decimal.Nil => []
  | Decimal.D0 d => 48%N :: digits_of_uint d
  | Decimal.D1 d => 49%N :: digits_of_uint d
  | Decimal.D2 d => 50%N :: digits_of_uint d
  | Decimal.D3 d => 51%N :: digits_of_uint d
  | Decimal.D4 d => 52%N :: digits_of_uint d
  | Decimal.D5 d => 53%N :: digits_of_uint d
  | Decimal.D6 d => 54%N :: digits_of_uint d
  | Decimal.D7 d => 55%N :: digits_of_uint d
  | Decimal.D8 d => 56%N :: digits_of_uint d
  | Decimal.D9 d => 57%N :: digits_of_uint d
  end.

Definition of_nat (n : nat) : jsstring := digits_of_uint (Nat.to_uint n).

End JS.

Import JS.

(* ================================================================== *)
(** ** Regular expressions *)

Module Regex.

Inductive regex : Type :=
| Eps
| Chr (p : N -> bool)                 (* one code unit of a class *)
| Seq (a b : regex)
| Alt (a b : regex)
| Star (greedy : bool) (a : regex)    (* a* and a*? *)
| Group (i : nat) (a : regex)         (* the i-th capturing group *)
| Bol                                 (* ^ without the m flag *)
| Eol                                 (* $ without the m flag *)
| WordB.                              (* \b *)

(** The matcher's state: the input read so far (most recent first), the
    input still ahead, and the captures made on the way. *)
Record mstate : Type := MState {
  seen : jsstring;
  rest : jsstring;
  caps : list (nat * jsstring)
}.

(** What was consumed between state [a] and a later state [b]. *)
Definition consumed (a b : mstate) : jsstring :=
  rev (firstn (length (seen b) - length (seen a)) (seen b)).

Definition at_word_boundary (st : mstate) : bool :=
  let before := match seen st with c :: _ => is_word c | [] => false end in
  let after := match rest st with c :: _ => is_word c | [] => false end in
  xorb before after.

(** The iterations of a star whose body matches as [step] says: each
    iteration must consume something, as the language requires, so the
    length of the remaining input bounds their number. *)
Fixpoint star_loop (step : mstate -> list mstate) (greedy : bool)
         (n : nat) (st : mstate) {struct n} : list mstate :=
  match n with
  | O => [st]
  | S n' =>
      let more :=
        flat_map
          (fun st' =>
             if Nat.ltb (length (rest st')) (length (rest st))
             then star_loop step greedy n' st' else [])
          (step st) in
      if greedy then more ++ [st] else st :: more
  end.

(** All the ways [r] can match at [st], in the order in which a backtracking
    matcher tries them. *)
Fixpoint exec (r : regex) (st : mstate) {struct r} : list mstate :=
  match r with
  | Eps => [st]
  | Chr p =>
      match rest st with
      | c :: tl => if p c then [MState (c :: seen st) tl (caps st)] else []
      | [] => []
      end
  | Seq a b => flat_map (exec b) (exec a st)
  | Alt a b => exec a st ++ exec b st
  | Star greedy a => star_loop (exec a) greedy (length (rest st)) st
  | Group i a =>
      map (fun st' => MState (seen st') (rest st')
                             ((i, consumed st st') :: caps st'))
          (exec a st)
  | Bol => match seen st with [] => [st] | _ => [] end
  | Eol => match rest st with [] => [st] | _ => [] end
  | WordB => if at_word_boundary st then [st] else []
  end.

(** Derived forms. *)
Definition Plus (a : regex) : regex := Seq a (Star true a).
Definition PlusLazy (a : regex) : regex := Seq a (Star false a).
Definition Opt (a : regex) : regex := Alt a Eps.

Fixpoint Times (n : nat) (a : regex) : regex :=      (* a{n} *)
  match n with O => Eps | S n' => Seq a (Times n' a) end.

Definition AtLeast (n : nat) (a : regex) : regex :=  (* a{n,} *)
  Seq (Times n a) (Star true a).

Fixpoint UpTo (n : nat) (a : regex) : regex :=       (* a{0,n} *)
  match n with O => Eps | S n' => Opt (Seq a (UpTo n' a)) end.

Fixpoint Lit (cs : list (N -> bool)) : regex :=
  match cs with [] => Eps | p :: cs' => Seq (Chr p) (Lit cs') end.

(** A literal word, case-sensitive or under the [i] flag. *)
Definition Word (s : string) : regex := Lit (map chr (list_ascii_of_string s)).
Definition WordI (s : string) : regex :=
  Lit (map chr_i (list_ascii_of_string s)).

(** The first match of [r] at the current position. *)
Definition match_here (r : regex) (sn rs : jsstring) : option (mstate * mstate) :=
  let st := MState sn rs [] in
  match exec r st with
  | st' :: _ => Some (st, st')
  | [] => None
  end.

(** The leftmost match: every start position in turn, the end of the input
    included. *)
Fixpoint search_from (r : regex) (sn rs : jsstring) : option (mstate * mstate) :=
  match match_here r sn rs with
  | Some m => Some m
  | None =>
      match rs with
      | [] => None
      | c :: rs' => search_from r (c :: sn) rs'
      end
  end.

Definition search (r : regex) (s : jsstring) : option (mstate * mstate) :=
  search_from r [] s.

(** [re.test(s)]. *)
Definition test (r : regex) (s : jsstring) : bool :=
  match search r s with Some _ => true | None => false end.

Fixpoint lookup (i : nat) (cs : list (nat * jsstring)) : option jsstring :=
  match cs with
  | [] => None
  | (j, v) :: cs' => if Nat.eqb i j then Some v else lookup i cs'
  end.

(** [s.match(re)?.[i]] for a pattern without the [g] flag: group 0 is the
    whole match; a group that took no part in the match is undefined. *)
Definition match_group (r : regex) (i : nat) (s : jsstring) : option jsstring :=
  match search r s with
  | None => None
  | Some (st, st') =>
      match i with
      | O => Some (consumed st st')
      | _ => lookup i (caps st')
      end
  end.

(** [s.replace(re, by)] for a pattern with the [g] flag: the matches are
    replaced from left to right; after an empty match the scan moves on by
    one code unit. *)
Fixpoint replace_from (fuel : nat) (r : regex) (by_ : jsstring)
         (sn rs : jsstring) : jsstring :=
  match fuel with
  | O => rs
  | S fuel' =>
      match match_here r sn rs with
      | Some (st, st') =>
          if Nat.ltb (length (rest st')) (length rs)
          then by_ ++ replace_from fuel' r by_ (seen st') (rest st')
          else match rs with
               | [] => by_
               | c :: rs' => by_ ++ c :: replace_from fuel' r by_ (c :: sn) rs'
               end
      | None =>
          match rs with
          | [] => []
          | c :: rs' => c :: replace_from fuel' r by_ (c :: sn) rs'
          end
      end
  end.

Definition replace_all (r : regex) (by_ : jsstring) (s : jsstring) : jsstring :=
  replace_from (S (length s)) r by_ [] s.

End Regex.

Import Regex.

(* ================================================================== *)
(** ** The runtime the program is linked against *)

(** What the code takes from its environment: the case mapping and the
    collation of the JavaScript engine, the text extraction of [pdf-parse]
    and the document loader of [pdf-lib].  [None] stands for a call that
    throws.  A loaded document is the sequence of its pages. *)
Class Runtime : Type := {
  Buffer : Type;
  Page : Type;
  toLowerCase : jsstring -> jsstring;
  localeCompare : jsstring -> jsstring -> Z;
  pdfParse : Buffer -> option jsstring;
  PDFDocument_load : Buffer -> option (list Page)
}.

(** The characters no file name may hold: backslash, slash, colon, star,
    question mark, double quote (code 34), angle brackets and the bar. *)
Definition illegal (c : N) : bool := one_of "\/:*?<>|" c || N.eqb c 34.

Definition re_illegal : regex := Chr illegal.
Definition re_spaces : regex := Plus (Chr is_space).       (* /\s+/g *)

(** The identifier pattern [/(\d{2}-\d{4,})/]. *)
Definition re_group_id : regex :=
  Group 1 (Seq (Times 2 (Chr is_digit))
               (Seq (Chr (chr "-")) (AtLeast 4 (Chr is_digit)))).

(** One output of a request: a file name and the merged document. *)
Definition entry `{RT : Runtime} : Type := (jsstring * list Page)%type.

(** What a request is answered with. *)
Inductive response `{RT : Runtime} : Type :=
| Send (status : nat) (message : string)
| SendZip (entries : list entry)
| NoResponse.

(** [mergedDoc.addPage] over the copied pages of one source document. *)
Definition addPages `{RT : Runtime} (doc pages : list Page) : list Page :=
  fold_left (fun d p => d ++ [p]) pages doc.

(* ================================================================== *)
(** ** Sorting with a comparator *)

(** [Array.prototype.sort(cmp)] for a consistent comparator: the result is
    the stable arrangement in which no element is followed by one that
    compares strictly below it.  Insertion keeps an element in front of the
    later elements it ties with. *)
Section Sort.
Variable A : Type.
Variable cmp : A -> A -> Z.

Fixpoint insert (x : A) (l : list A) : list A :=
  match l with
  | [] => [x]
  | y :: l' => if Z.leb (cmp x y) 0 then x :: l else y :: insert x l'
  end.

Fixpoint sort (l : list A) : list A :=
  match l with
  | [] => []
  | x :: l' => insert x (sort l')
  end.
End Sort.

(* ================================================================== *)
(** ** The single-backend server *)

Module Backend.

Section WithRuntime.
Context `{RT : Runtime}.

Record File : Type := MkFile {
  originalname : jsstring;
  buffer : Buffer                    (* what [fs.readFileSync(path)] returns *)
}.

Definition safePdfFileName (name : jsstring) : jsstring :=
  let cleaned :=
    trim (replace_all re_spaces (str " ") (replace_all re_illegal [] name)) in
  if Nat.eqb (length cleaned) 0 then str "Documento" else cleaned.

Definition extractGroupIdFromFilename (fileName : jsstring) : option jsstring :=
  match_group re_group_id 1 fileName.

Definition isAllegato (fileName : jsstring) : bool :=
  test (WordI "allegato") fileName.

Definition normalizeTextForSearch (t : jsstring) : jsstring :=
  trim
    (replace_all (AtLeast 3 (Chr (N.eqb 10))) [10; 10]%N
       (replace_all (Plus (Chr (fun c => N.eqb c 32 || N.eqb c 9))) (str " ")
          (replace_all (Chr (N.eqb 13)) [10%N] t))).

Definition stopWords : list jsstring :=
  map str ["fattura"; "data"; "del"; "competenza"; "codice"; "p.iva";
           "partita"; "email"; "telefono"; "indirizzo"; "via"; "pagina"]%string.

(** One turn of the stop-word loop. *)
Definition cutAt (s w : jsstring) : jsstring :=
  match indexOf (32%N :: w) (toLowerCase s) with
  | Some idx => if Nat.ltb 0 idx then trim (slice0 idx s) else s
  | None => s
  end.

(** [[\d\s/.-]] *)
Definition ref_char (c : N) : bool := is_digit c || is_space c || one_of "/.-" c.

(** [/^[\d\s/.-]+$/] *)
Definition re_reference : regex := Seq Bol (Seq (Plus (Chr ref_char)) Eol).

Definition cleanupCandidateName (raw : jsstring) : option jsstring :=
  let s := trim (replace_all re_spaces (str " ") (replace_all re_illegal [] raw)) in
  let s := fold_left cutAt stopWords s in
  if Nat.ltb (length s) 4 then None
  else if test re_reference s then None
  else Some s.

(** *** The addressee heuristics *)

Definition ws : regex := Star true (Chr is_space).
Definition not_nl (c : N) : bool := negb (N.eqb c 10).
Definition colon : regex := Chr (chr ":").

(** [/Intestatario\s*:\s*([^\n]+)\n?/i] *)
Definition re_same_line : regex :=
  Seq (WordI "Intestatario")
  (Seq ws (Seq colon (Seq ws
  (Seq (Group 1 (Plus (Chr not_nl))) (Opt (Chr (N.eqb 10))))))).

(** [/Intestatario\s*:\s*\n\s*([^\n]+)\n?/i] *)
Definition re_next_line : regex :=
  Seq (WordI "Intestatario")
  (Seq ws (Seq colon (Seq ws (Seq (Chr (N.eqb 10)) (Seq ws
  (Seq (Group 1 (Plus (Chr not_nl))) (Opt (Chr (N.eqb 10))))))))).

(** The bracket classes of the titled-name pattern as they match under the
    [i] flag.  [[A-ZÀ-ÖØ-Ý]] accepts both cases of its letters.
    [[A-Za-zÀ-ÖØ-öø-ÿ'’.-]] accepts, besides its members, U+0178, the
    upper case of its member U+00FF. *)
Definition name_initial (c : N) : bool :=
  is_upper c || is_lower c
  || between 192 214 c || between 224 246 c
  || between 216 221 c || between 248 253 c.

Definition name_letter (c : N) : bool :=
  is_upper c || is_lower c
  || between 192 214 c || between 216 246 c || between 248 255 c
  || N.eqb c 376
  || N.eqb c 39 || N.eqb c 8217 || N.eqb c 46 || N.eqb c 45.

Definition dot_opt : regex := Opt (Chr (chr ".")).
Definition dot : regex := Chr (chr ".").

(** [Dr\.?|Dott\.?ssa|Dott\.?|Sig\.?ra|Sig\.?r|Spett\.le|Gent\.mo|Egr\.?] *)
Definition re_title : regex :=
  Alt (Seq (WordI "Dr") dot_opt)
  (Alt (Seq (WordI "Dott") (Seq dot_opt (WordI "ssa")))
  (Alt (Seq (WordI "Dott") dot_opt)
  (Alt (Seq (WordI "Sig") (Seq dot_opt (WordI "ra")))
  (Alt (Seq (WordI "Sig") (Seq dot_opt (WordI "r")))
  (Alt (Seq (WordI "Spett") (Seq dot (WordI "le")))
  (Alt (Seq (WordI "Gent") (Seq dot (WordI "mo")))
       (Seq (WordI "Egr") dot_opt))))))).

Definition re_name_word : regex :=
  Seq (Chr name_initial) (Plus (Chr name_letter)).

(** The titled-name pattern: [\b(title)\s+(Word(?:\s+Word){0,4})] *)
Definition re_titled_name : regex :=
  Seq WordB (Seq (Group 1 re_title) (Seq (Plus (Chr is_space))
  (Group 2 (Seq re_name_word
                (UpTo 4 (Seq (Plus (Chr is_space)) re_name_word)))))).

(** The span each heuristic hands to the sanitizer, if it matches. *)
Definition sameLine (text : jsstring) : option jsstring :=
  match match_group re_same_line 1 text with
  | Some g => if truthy g then Some g else None
  | None => None
  end.

Definition nextLine (text : jsstring) : option jsstring :=
  match match_group re_next_line 1 text with
  | Some g => if truthy g then Some g else None
  | None => None
  end.

Definition titledName (text : jsstring) : option jsstring :=
  let topChunk := slice0 2500 text in
  match match_group re_titled_name 1 topChunk,
        match_group re_titled_name 2 topChunk with
  | Some title, Some name => Some (title ++ 32%N :: name)
  | _, _ => None
  end.

(** [if (cand) return cand]: a candidate is returned when it is neither
    null nor empty. *)
Definition accepted (span : option jsstring) : option jsstring :=
  match span with
  | Some g =>
      match cleanupCandidateName g with
      | Some cand => if truthy cand then Some cand else None
      | None => None
      end
  | None => None
  end.

(** The body of [extractIntestatario] from the normalized text on. *)
Definition extractFromText (text : jsstring) : option jsstring :=
  match accepted (sameLine text) with
  | Some cand => Some cand
  | None =>
      match accepted (nextLine text) with
      | Some cand => Some cand
      | None =>
          match accepted (titledName text) with
          | Some cand => Some cand
          | None => None
          end
      end
  end.

(** [extractIntestatario]: a throwing parser is caught and gives null. *)
Definition extractIntestatario (pdfBuffer : Buffer) : option jsstring :=
  match pdfParse pdfBuffer with
  | None => None
  | Some rawText =>
      if negb (truthy rawText) || Nat.eqb (length (trim rawText)) 0 then None
      else extractFromText (normalizeTextForSearch rawText)
  end.

(** *** The route [POST /api/merge-pdfs] *)

(** A value of [groups]: the two role slots of one identifier. *)
Record slots : Type := MkSlots {
  main : option File;
  allegato : option File
}.

(** [groups] is an object whose keys are identifiers; none of them is an
    array index, so its keys are enumerated in the order of insertion. *)
Definition groups : Type := list (jsstring * slots).

Definition setSlot (isAll : bool) (f : File) (sl : slots) : slots :=
  if isAll then MkSlots (main sl) (Some f) else MkSlots (Some f) (allegato sl).

(** [if (!groups[id]) groups[id] = {}] followed by the assignment of the
    role slot. *)
Fixpoint assign (id : jsstring) (isAll : bool) (f : File) (gs : groups) : groups :=
  match gs with
  | [] => [(id, setSlot isAll f (MkSlots None None))]
  | (k, sl) :: gs' =>
      if JS.eqb k id then (k, setSlot isAll f sl) :: gs'
      else (k, sl) :: assign id isAll f gs'
  end.

Definition addFile (gs : groups) (f : File) : groups :=
  match extractGroupIdFromFilename (originalname f) with
  | None => gs
  | Some id => assign id (isAllegato (originalname f)) f gs
  end.

Definition groupFiles (files : list File) : groups :=
  fold_left addFile files [].

(** The archive under construction and the counter of merged pairs. *)
Record state : Type := MkState {
  zip : list entry;
  processedCount : nat
}.

Definition getEntry (z : list entry) (name : jsstring) : bool :=
  existsb (fun e => JS.eqb (fst e) name) z.

Definition dotPdf : jsstring := str ".pdf".

(** The loop [while (zip.getEntry(finalFileName))]; [fuel] bounds the number
    of turns. *)
Fixpoint freeName (fuel : nat) (z : list entry) (finalBase finalFileName : jsstring)
         (suffix : nat) : option jsstring :=
  if getEntry z finalFileName then
    match fuel with
    | O => None
    | S fuel' =>
        freeName fuel' z finalBase
                 (finalBase ++ str "_" ++ of_nat suffix ++ dotPdf) (S suffix)
    end
  else Some finalFileName.

(** [!x] for a value that is a string or null. *)
Definition falsy (x : option jsstring) : bool :=
  match x with Some s => negb (truthy s) | None => true end.

Definition intestatarioOf (m a : File) : option jsstring :=
  let intestatario := extractIntestatario (buffer a) in
  if falsy intestatario then extractIntestatario (buffer m) else intestatario.

Definition finalBaseOf (id : jsstring) (intestatario : option jsstring) : jsstring :=
  match intestatario with
  | Some s => if truthy s then safePdfFileName s else id
  | None => id
  end.

(** How one turn of the loop over the identifiers ends. *)
Inductive outcome : Type :=
| Next (st : state)        (* the turn is over, the loop goes on *)
| Throw                    (* an exception leaves the loop *)
| Hang.                    (* the naming loop ran out of fuel *)

Definition processGroup (id : jsstring) (sl : slots) (st : state) : outcome :=
  match main sl, allegato sl with
  | Some m, Some a =>
      let finalBase := finalBaseOf id (intestatarioOf m a) in
      match freeName (S (length (zip st))) (zip st) finalBase
                     (finalBase ++ dotPdf) 2 with
      | None => Hang
      | Some finalFileName =>
          match PDFDocument_load (buffer m) with
          | None => Throw
          | Some mainDoc =>
              match PDFDocument_load (buffer a) with
              | None => Throw
              | Some allegatoDoc =>
                  let mergedDoc := addPages (addPages [] mainDoc) allegatoDoc in
                  Next (MkState (zip st ++ [(finalFileName, mergedDoc)])
                                (S (processedCount st)))
              end
          end
      end
  | _, _ => Next st
  end.

(** The loop over [Object.keys(groups)].  A run that is cut short keeps the
    state it had reached. *)
Inductive run : Type :=
| Finished (st : state)
| Thrown (st : state)
| Hung (st : state).

Fixpoint processGroups (gs : groups) (st : state) : run :=
  match gs with
  | [] => Finished st
  | (id, sl) :: gs' =>
      match processGroup id sl st with
      | Next st' => processGroups gs' st'
      | Throw => Thrown st
      | Hang => Hung st
      end
  end.

Definition runRequest (files : list File) : run :=
  processGroups (groupFiles files) (MkState [] 0).

(** [zip.toBuffer()]: adm-zip writes the entries of the archive sorted by
    their lower-cased names, compared with [localeCompare]; entries whose
    lower-cased names tie keep the order in which they were added. *)
Definition toBuffer (z : list entry) : list entry :=
  sort (fun a b => localeCompare (toLowerCase (fst a)) (toLowerCase (fst b))) z.

Definition respond (r : run) : response :=
  match r with
  | Finished st =>
      if Nat.eqb (processedCount st) 0
      then Send 400 "Nessuna coppia valida trovata (manca main o allegato)."
      else SendZip (toBuffer (zip st))
  | Thrown _ => Send 500 "Errore interno durante l'unione dei file."
  | Hung _ => NoResponse
  end.

Definition route (files : list File) : response :=
  if Nat.eqb (length files) 0 then Send 400 "Nessun file caricato."
  else respond (runRequest files).

End WithRuntime.
End Backend.

(* ================================================================== *)
(** ** The serverless handler *)

Module Serverless.

Section WithRuntime.
Context `{RT : Runtime}.

Record UploadedFile : Type := MkUploaded {
  filename : jsstring;
  buffer : Buffer
}.

Definition safeName (s : jsstring) : jsstring :=
  trim (replace_all re_spaces (str " ") (replace_all re_illegal [] s)).

Definition groups : Type := list (jsstring * list UploadedFile).

(** [groups[id] ??= []; groups[id].push(f)] *)
Fixpoint push (id : jsstring) (f : UploadedFile) (gs : groups) : groups :=
  match gs with
  | [] => [(id, [f])]
  | (k, fs) :: gs' =>
      if JS.eqb k id then (k, fs ++ [f]) :: gs' else (k, fs) :: push id f gs'
  end.

Definition addFile (gs : groups) (f : UploadedFile) : groups :=
  match match_group re_group_id 1 (filename f) with
  | None => gs
  | Some id => push id f gs
  end.

Definition groupFiles (files : list UploadedFile) : groups :=
  fold_left addFile files [].

Definition allegatoMark : jsstring := str "allegato".

(** The comparator of [groupFiles.sort]. *)
Definition compareFiles (a b : UploadedFile) : Z :=
  let A := toLowerCase (filename a) in
  let B := toLowerCase (filename b) in
  if includes allegatoMark A && negb (includes allegatoMark B) then 1%Z
  else if negb (includes allegatoMark A) && includes allegatoMark B then (-1)%Z
  else localeCompare A B.

(** [/Fattura\s*N[°º]?:\s*([0-9]{2}\/[0-9]{5})/i] *)
Definition re_fattura : regex :=
  Seq (WordI "Fattura")
  (Seq (Star true (Chr is_space))
  (Seq (Chr (chr_i "N"))
  (Seq (Opt (Chr (fun c => N.eqb c 176 || N.eqb c 186)))
  (Seq (Chr (chr ":"))
  (Seq (Star true (Chr is_space))
       (Group 1 (Seq (Times 2 (Chr is_digit))
                (Seq (Chr (chr "/")) (Times 5 (Chr is_digit)))))))))).

(** [/Intestatario:\s*([^\n\r]+)/i] *)
Definition re_intestatario : regex :=
  Seq (WordI "Intestatario")
  (Seq (Chr (chr ":"))
  (Seq (Star true (Chr is_space))
       (Group 1 (Plus (Chr (fun c => negb (N.eqb c 10 || N.eqb c 13))))))).

(** [[A-Za-zÀ-ÿ.'’\-]], without the [i] flag. *)
Definition dr_letter (c : N) : bool :=
  is_upper c || is_lower c || between 192 255 c
  || N.eqb c 46 || N.eqb c 39 || N.eqb c 8217 || N.eqb c 45.

(** [/\bDr\s+[A-Za-zÀ-ÿ.'’\-]+\s+[A-Za-zÀ-ÿ.'’\-]+/] *)
Definition re_dr : regex :=
  Seq WordB (Seq (Word "Dr")
  (Seq (Plus (Chr is_space)) (Seq (Plus (Chr dr_letter))
  (Seq (Plus (Chr is_space)) (Plus (Chr dr_letter)))))).

(** [a ?? b] on a match result. *)
Definition orElse (a : option jsstring) (b : jsstring) : jsstring :=
  match a with Some v => v | None => b end.

Definition fatturaOf (groupId text : jsstring) : jsstring :=
  orElse (match_group re_fattura 1 text) (replace1 45 47 groupId).

Definition intestatarioOf (text : jsstring) : jsstring :=
  orElse (match_group re_intestatario 1 text)
         (orElse (match_group re_dr 0 text) (str "Documento")).

Definition sep : jsstring := str " - ".

Definition fileNameOf (groupId fattura intestatario : jsstring) : jsstring :=
  groupId ++ sep ++ safeName (replace1 47 45 fattura) ++ sep
          ++ safeName intestatario ++ str ".pdf".

(** The loop [for (const f of groupFiles)] that fills [mergedPdf]; a
    document that does not load throws. *)
Fixpoint mergeFiles (fs : list UploadedFile) (mergedPdf : list Page)
  : option (list Page) :=
  match fs with
  | [] => Some mergedPdf
  | f :: fs' =>
      match PDFDocument_load (buffer f) with
      | None => None
      | Some pdf => mergeFiles fs' (addPages mergedPdf pdf)
      end
  end.

(** [zip.file(name, bytes)]: an entry of that name is replaced. *)
Fixpoint zipFile (name : jsstring) (doc : list Page) (z : list entry) : list entry :=
  match z with
  | [] => [(name, doc)]
  | (k, d) :: z' =>
      if JS.eqb k name then (k, doc) :: z' else (k, d) :: zipFile name doc z'
  end.

Record state : Type := MkState {
  zip : list entry;
  merged : nat
}.

(** One turn of the loop over [Object.entries(groups)]; [None] is an
    exception. *)
Definition processGroup (groupId : jsstring) (groupFiles : list UploadedFile)
           (st : state) : option state :=
  if Nat.ltb (length groupFiles) 2 then Some st
  else
    let sorted := sort compareFiles groupFiles in
    match sorted with
    | [] => None
    | first :: _ =>
        match pdfParse (buffer first) with
        | None => None
        | Some text =>
            let fattura := fatturaOf groupId text in
            let intestatario := intestatarioOf text in
            match mergeFiles sorted [] with
            | None => None
            | Some mergedPdf =>
                Some (MkState
                        (zipFile (fileNameOf groupId fattura intestatario)
                                 mergedPdf (zip st))
                        (S (merged st)))
            end
        end
    end.

Inductive run : Type :=
| Finished (st : state)
| Thrown (st : state).

Fixpoint processGroups (gs : groups) (st : state) : run :=
  match gs with
  | [] => Finished st
  | (id, fs) :: gs' =>
      match processGroup id fs st with
      | Some st' => processGroups gs' st'
      | None => Thrown st
      end
  end.

Definition runRequest (files : list UploadedFile) : run :=
  processGroups (groupFiles files) (MkState [] 0).

Definition respond (r : run) : response :=
  match r with
  | Finished st =>
      if Nat.eqb (merged st) 0 then Send 400 "Nessuna coppia valida trovata"
      else SendZip (zip st)
  | Thrown _ => Send 500 "Errore durante il merge PDF"
  end.

(** [handler] for a POST request whose body held [files]. *)
Definition handler (files : list UploadedFile) : response :=
  if Nat.ltb (length files) 2 then Send 400 "Servono almeno due PDF"
  else respond (runRequest files).

End WithRuntime.
End Serverless.

(* ================================================================== *)
(** ** The in-browser variant *)

Module Client.

Section WithRuntime.
Context `{RT : Runtime}.

(** [s.slice(0, 140)] after the usual cleaning. *)
Definition safeFilenamePart (s : jsstring) : jsstring :=
  slice0 140
    (trim (replace_all re_spaces (str " ") (replace_all re_illegal [] s))).

(** [/allegato\s*(\d+)/i] *)
Definition re_allegato_index : regex :=
  Seq (WordI "allegato")
  (Seq (Star true (Chr is_space)) (Group 1 (Plus (Chr is_digit)))).

(** The value of a string of decimal digits. *)
Definition numberOfDigits (ds : jsstring) : Z :=
  fold_left (fun acc d => (10 * acc + (Z.of_N d - 48))%Z) ds 0%Z.

(** A natural number rounded to double precision: exact up to 53 bits, and
    beyond that rounded to the nearest multiple of the unit in the last
    place, a tie going to the even one.  The comparator uses only the order
    and the equality of the numbers it gets, so [Infinity], which the
    rounding reaches from [2^1024 - 2^970] on, is represented by [2^1024],
    above every finite double. *)
Definition roundToDouble (n : Z) : Z :=
  let bits := (Z.log2 n + 1)%Z in
  if (bits <=? 53)%Z then n
  else
    let e := (bits - 53)%Z in
    let q := Z.shiftr n e in
    let r := Z.land n (Z.ones e) in
    let half := Z.shiftl 1 (e - 1) in
    let q' := if (half <? r)%Z || ((r =? half)%Z && Z.odd q)
              then (q + 1)%Z else q in
    Z.min (Z.shiftl q' e) (2 ^ 1024).

(** [Number(ds)] for a string of decimal digits. *)
Definition toNumber (ds : jsstring) : Z := roundToDouble (numberOfDigits ds).

(** [Number((an.match(/allegato\s*(\d+)/i) || [])[1] || 0)] *)
Definition allegatoIndex (an : jsstring) : Z :=
  match match_group re_allegato_index 1 an with
  | Some ds => if truthy ds then toNumber ds else 0%Z
  | None => 0%Z
  end.

Definition allegatoMark : jsstring := str "allegato".

(** The comparator of [orderGroupFiles], on file names. *)
Definition compareNames (a b : jsstring) : Z :=
  let an := toLowerCase a in
  let bn := toLowerCase b in
  let aIsAll := includes allegatoMark an in
  let bIsAll := includes allegatoMark bn in
  if negb (Bool.eqb aIsAll bIsAll) then (if aIsAll then 1%Z else (-1)%Z)
  else
    let aNum := allegatoIndex an in
    let bNum := allegatoIndex bn in
    if negb (Z.eqb aNum bNum) then (aNum - bNum)%Z
    else localeCompare an bn.

Record FileWithStatus : Type := MkStatus {
  name : jsstring;                  (* file.name *)
  content : Buffer;                 (* the file's bytes *)
  groupId : option jsstring
}.

Definition orderGroupFiles (groupFiles : list FileWithStatus) : list FileWithStatus :=
  sort (fun a b => compareNames (name a) (name b)) groupFiles.

Record DocInfo : Type := MkInfo {
  intestatario : option jsstring;
  fatturaNo : option jsstring
}.

(** [x || null] and [x ? f(x) : null], then [filter(Boolean)]: what is kept
    of an optional name part. *)
Definition part (x : option jsstring) : list jsstring :=
  match x with
  | Some s => if truthy s then [s] else []
  | None => []
  end.

Fixpoint join (sep : jsstring) (parts : list jsstring) : jsstring :=
  match parts with
  | [] => []
  | [p] => p
  | p :: ps => p ++ sep ++ join sep ps
  end.

(** The naming of [processFiles]: identifier, reference number with its
    slash turned into a hyphen, addressee. *)
Definition fileNameOf (groupId : jsstring) (info : DocInfo) : jsstring :=
  let fatturaDash :=
    match fatturaNo info with
    | Some f => if truthy f then Some (replace1 47 45 f) else None
    | None => None
    end in
  let parts :=
    part (Some groupId)
    ++ part fatturaDash
    ++ part (match intestatario info with
             | Some s => if truthy s then Some (safeFilenamePart s) else None
             | None => None
             end) in
  join (str " - ") parts ++ str ".pdf".

End WithRuntime.
End Client.

(* ================================================================== *)
(** ** A runtime for the examples *)

(** Case mapping restricted to Basic Latin and Latin-1, collation by code
    unit, and buffers that are either unreadable or hold a text and a list
    of numbered pages. *)
Module Sample.

Definition lower (c : N) : N :=
  if is_upper c || between 192 214 c || between 216 222 c
  then (c + 32)%N else c.

Fixpoint compareUnits (a b : jsstring) : Z :=
  match a, b with
  | [], [] => 0%Z
  | [], _ :: _ => (-1)%Z
  | _ :: _, [] => 1%Z
  | x :: a', y :: b' =>
      if N.ltb x y then (-1)%Z
      else if N.ltb y x then 1%Z
      else compareUnits a' b'
  end.

Definition runtime : Runtime := {|
  Buffer := option (jsstring * list nat);
  Page := nat;
  toLowerCase := map lower;
  localeCompare := compareUnits;
  pdfParse := option_map fst;
  PDFDocument_load := option_map snd
|}.

(** A readable document with the given text and pages. *)
Definition pdf (text : string) (pages : list nat) : option (jsstring * list nat) :=
  Some (str text, pages).

(** A buffer that no parser accepts. *)
Definition broken : option (jsstring * list nat) := None.

Definition file (name : string) (b : option (jsstring * list nat))
  : Backend.File (RT := runtime) :=
  Backend.MkFile (RT := runtime) (str name) b.

Definition upload (name : string) (b : option (jsstring * list nat))
  : Serverless.UploadedFile (RT := runtime) :=
  Serverless.MkUploaded (RT := runtime) (str name) b.

(** Two complete groups; the main document of the second is unreadable. *)
Definition brokenBatch : list (Backend.File (RT := runtime)) :=
  [ file "25-02050.pdf" (pdf "Intestatario: Mario Rossi" [1; 2; 3]);
    file "25-02050_Allegato1.pdf" (pdf "" [4; 5]);
    file "25-02051.pdf" broken;
    file "25-02051_Allegato1.pdf" (pdf "" [6]) ].

(** Three complete groups with the same addressee, a file without
    identifier and an attachment without main document. *)
Definition collidingBatch : list (Backend.File (RT := runtime)) :=
  [ file "25-02050.pdf" (pdf "Intestatario: Mario Rossi" [1; 2; 3]);
    file "25-02050_Allegato1.pdf" (pdf "" [4; 5]);
    file "25-02051.pdf" (pdf "Intestatario: Mario Rossi" [6]);
    file "25-02051_Allegato1.pdf" (pdf "" [7]);
    file "note.pdf" (pdf "Intestatario: Mario Rossi" [8]);
    file "25-02052.pdf" (pdf "Intestatario: Mario Rossi" [9]);
    file "25-02052_Allegato1.pdf" (pdf "" []);
    file "25-02053_Allegato1.pdf" (pdf "" [10]) ].

(** One group with a main document and two numbered attachments. *)
Definition indexBatch : list (Serverless.UploadedFile (RT := runtime)) :=
  [ upload "25-02050.pdf" (pdf "Intestatario: Mario Rossi" [1]);
    upload "25-02050_Allegato2.pdf" (pdf "" [2]);
    upload "25-02050_Allegato10.pdf" (pdf "" [10]) ].

(** The same group with an unreadable second attachment, and another
    complete group. *)
Definition brokenUploads : list (Serverless.UploadedFile (RT := runtime)) :=
  [ upload "25-02049.pdf" (pdf "Intestatario: Anna Bianchi" [7]);
    upload "25-02049_Allegato1.pdf" (pdf "" [8]);
    upload "25-02050.pdf" (pdf "Intestatario: Mario Rossi" [1]);
    upload "25-02050_Allegato1.pdf" broken ].

(** One group whose invoice masks the addressee with stars. *)
Definition maskedBatch : list (Serverless.UploadedFile (RT := runtime)) :=
  [ upload "25-02050.pdf" (pdf "Fattura N: 25/02049 Intestatario: ***" [1]);
    upload "25-02050_Allegato1.pdf" (pdf "" [2]) ].

End Sample.

(* ================================================================== *)
(** ** Notions the statements are phrased with *)

(** The characters of a bare reference number: digits, the space, the
    slash, the dot and the hyphen. *)
Definition bare_reference_char (c : N) : bool :=
  is_digit c || N.eqb c 32 || one_of "/.-" c.

(** The addressee cascade, in priority order. *)
Definition cascade : list (jsstring -> option jsstring) :=
  [Backend.sameLine; Backend.nextLine; Backend.titledName].

(** A heuristic yields nothing on [text]: it does not match, or the
    sanitizer rejects the span it captured. *)
Definition yieldsNothing `{RT : Runtime} (h : jsstring -> option jsstring)
           (text : jsstring) : Prop :=
  match h text with
  | Some span => Backend.cleanupCandidateName span = None
  | None => True
  end.

(** The fold the specification describes: stop at the first heuristic whose
    span the sanitizer accepts. *)
Fixpoint firstAccepted `{RT : Runtime} (hs : list (jsstring -> option jsstring))
         (text : jsstring) : option jsstring :=
  match hs with
  | [] => None
  | h :: hs' =>
      match h text with
      | Some span =>
          match Backend.cleanupCandidateName span with
          | Some cand => Some cand
          | None => firstAccepted hs' text
          end
      | None => firstAccepted hs' text
      end
  end.

(** The names the collision loop tries for a base name, numbered from 1:
    [base.pdf], then [base_2.pdf], [base_3.pdf] and so on. *)
Definition candidate (base : jsstring) (j : nat) : jsstring :=
  if Nat.eqb j 1 then base ++ Backend.dotPdf
  else base ++ str "_" ++ of_nat j ++ Backend.dotPdf.

(** *** The batch, seen from the uploaded files *)

Section BatchNotions.
Context `{RT : Runtime}.

Definition idOf (f : Backend.File) : option jsstring :=
  Backend.extractGroupIdFromFilename (Backend.originalname f).

Definition hasId (id : jsstring) (f : Backend.File) : bool :=
  match idOf f with Some k => JS.eqb k id | None => false end.

Definition isAttachment (f : Backend.File) : bool :=
  Backend.isAllegato (Backend.originalname f).

(** The files of group [id] in either role, in upload order. *)
Definition mainsOf (id : jsstring) (files : list Backend.File) : list Backend.File :=
  filter (fun f => hasId id f && negb (isAttachment f)) files.

Definition attachmentsOf (id : jsstring) (files : list Backend.File)
  : list Backend.File :=
  filter (fun f => hasId id f && isAttachment f) files.

Definition lastOf (A : Type) (l : list A) : option A := hd_error (rev l).

(** A group is complete when the batch holds a main document and an
    attachment for its identifier. *)
Definition isComplete (files : list Backend.File) (id : jsstring) : bool :=
  existsb (fun f => hasId id f && negb (isAttachment f)) files
  && existsb (fun f => hasId id f && isAttachment f) files.


Definition completeSlots (sl : Backend.slots) : bool :=
  match Backend.main sl, Backend.allegato sl with
  | Some _, Some _ => true
  | _, _ => false
  end.

Fixpoint lookupGroup (id : jsstring) (gs : Backend.groups) : option Backend.slots :=
  match gs with
  | [] => None
  | (k, sl) :: gs' => if JS.eqb k id then Some sl else lookupGroup id gs'
  end.

(** The state a run stopped in. *)
Definition stateOf (r : Backend.run) : Backend.state :=
  match r with
  | Backend.Finished st | Backend.Thrown st | Backend.Hung st => st
  end.

End BatchNotions.



(** [P before x] for every element [x] of a list, [before] being the
    elements in front of it. *)
Fixpoint ForallPrefix (A : Type) (P : list A -> A -> Prop)
         (before l : list A) : Prop :=
  match l with
  | [] => True
  | x :: l' => P before x /\ ForallPrefix P (before ++ [x]) l'
  end.

Section ArchiveNotions.
Context `{RT : Runtime}.

(** How an entry of the archive came about: it merges the last main
    document and the last attachment of one identifier, main pages first,
    under the first candidate of the group's base name that the entries
    before it had left free. *)
Definition builtFrom (files : list Backend.File) (before : list entry)
           (e : entry) : Prop :=
  exists id m a pm pa k,
    lastOf (mainsOf id files) = Some m
    /\ lastOf (attachmentsOf id files) = Some a
    /\ PDFDocument_load (Backend.buffer m) = Some pm
    /\ PDFDocument_load (Backend.buffer a) = Some pa
    /\ snd e = pm ++ pa
    /\ 1 <= k
    /\ fst e = candidate (Backend.finalBaseOf id (Backend.intestatarioOf m a)) k
    /\ Backend.getEntry before (fst e) = false
    /\ forall j, 1 <= j < k ->
         Backend.getEntry before
           (candidate (Backend.finalBaseOf id (Backend.intestatarioOf m a)) j)
         = true.

(** What holds of the archive all along a run. *)
Definition wellFormed (files : list Backend.File) (st : Backend.state) : Prop :=
  NoDup (map fst (Backend.zip st))
  /\ Backend.processedCount st = length (Backend.zip st)
  /\ ForallPrefix (builtFrom files) [] (Backend.zip st).

End ArchiveNotions.

Section ErrorNotions.
Context `{RT : Runtime}.

(** The two documents of a group load, or the group is incomplete and none
    is loaded. *)
Definition loads (sl : Backend.slots) : bool :=
  match Backend.main sl, Backend.allegato sl with
  | Some m, Some a =>
      match PDFDocument_load (Backend.buffer m),
            PDFDocument_load (Backend.buffer a) with
      | Some _, Some _ => true
      | _, _ => false
      end
  | _, _ => true
  end.

(** Group [id] of the batch is complete and its two documents load. *)
Definition mergeable (files : list Backend.File) (id : jsstring)
           (pages : list Page) : Prop :=
  exists m a pm pa,
    lastOf (mainsOf id files) = Some m
    /\ lastOf (attachmentsOf id files) = Some a
    /\ PDFDocument_load (Backend.buffer m) = Some pm
    /\ PDFDocument_load (Backend.buffer a) = Some pa
    /\ pages = pm ++ pa.

(** Group [id] of the batch is complete and one of its two documents does
    not load. *)
Definition unreadable (files : list Backend.File) (id : jsstring) : Prop :=
  exists m a,
    lastOf (mainsOf id files) = Some m
    /\ lastOf (attachmentsOf id files) = Some a
    /\ (PDFDocument_load (Backend.buffer m) = None
        \/ PDFDocument_load (Backend.buffer a) = None).

(** The first claim on errors, as the specification words it: a group that
    does not load is dropped, the groups that load are all in the archive,
    and the request succeeds as soon as one group merges. *)
Definition dropsOnlyFailingGroups (files : list Backend.File) : Prop :=
  (exists id pages, mergeable files id pages) ->
  exists entries,
    Backend.route files = SendZip entries
    /\ forall id pages, mergeable files id pages -> In pages (map snd entries).


End ErrorNotions.

(** *** What a match consumed *)

(** State [st'] is [st] after reading [w]. *)
Definition advances (st st' : mstate) (w : jsstring) : Prop :=
  seen st' = rev w ++ seen st /\ rest st = w ++ rest st'.

(** Every character class of [r] lies within [P]. *)
Fixpoint within (P : N -> bool) (r : regex) : Prop :=
  match r with
  | Chr p => forall c, p c = true -> P c = true
  | Seq a b | Alt a b => within P a /\ within P b
  | Star _ a | Group _ a => within P a
  | Eps | Bol | Eol | WordB => True
  end.

(** Whatever [step] reads is made of characters of [P]. *)
Definition spans (P : N -> bool) (step : mstate -> list mstate) : Prop :=
  forall st st', In st' (step st) ->
                 exists w, advances st st' w /\ forallb P w = true.

(** The characters of a group identifier. *)
Definition id_char (c : N) : bool := is_digit c || N.eqb c 45.

(** *** The batch of the serverless handler *)

Section ServerlessNotions.
Context `{RT : Runtime}.

Definition keyOf (f : Serverless.UploadedFile) : option jsstring :=
  match_group re_group_id 1 (Serverless.filename f).

Definition hasKey (id : jsstring) (f : Serverless.UploadedFile) : bool :=
  match keyOf f with Some k => JS.eqb k id | None => false end.

(** The files of group [id], in upload order. *)
Definition membersOf (id : jsstring) (files : list Serverless.UploadedFile)
  : list Serverless.UploadedFile :=
  filter (hasKey id) files.

(** A group is complete when it has at least two members. *)
Definition isPair (files : list Serverless.UploadedFile) (id : jsstring) : bool :=
  Nat.leb 2 (length (membersOf id files)).

Definition leftOut (files : list Serverless.UploadedFile)
           (f : Serverless.UploadedFile) : bool :=
  match keyOf f with
  | Some id => negb (isPair files id)
  | None => true
  end.

Fixpoint lookupMembers (id : jsstring) (gs : Serverless.groups)
  : option (list Serverless.UploadedFile) :=
  match gs with
  | [] => None
  | (k, fs) :: gs' => if JS.eqb k id then Some fs else lookupMembers id gs'
  end.

Definition readable (f : Serverless.UploadedFile) : bool :=
  match PDFDocument_load (Serverless.buffer f) with
  | Some _ => true
  | None => false
  end.

Definition parses (f : Serverless.UploadedFile) : bool :=
  match pdfParse (Serverless.buffer f) with
  | Some _ => true
  | None => false
  end.

Definition pagesOf (f : Serverless.UploadedFile) : list Page :=
  match PDFDocument_load (Serverless.buffer f) with
  | Some pages => pages
  | None => []
  end.

(** The members of a group in their resolved order. *)
Definition ordered (fs : list Serverless.UploadedFile)
  : list Serverless.UploadedFile :=
  sort Serverless.compareFiles fs.

(** The text of the first member in order. *)
Definition textOf (fs : list Serverless.UploadedFile) : jsstring :=
  match ordered fs with
  | first :: _ =>
      match pdfParse (Serverless.buffer first) with
      | Some text => text
      | None => []
      end
  | [] => []
  end.

Definition outputName (id : jsstring) (fs : list Serverless.UploadedFile)
  : jsstring :=
  Serverless.fileNameOf id (Serverless.fatturaOf id (textOf fs))
                        (Serverless.intestatarioOf (textOf fs)).

(** A group small enough to be skipped, or one whose first member parses
    and whose members all load. *)
Definition groupLoads (fs : list Serverless.UploadedFile) : bool :=
  Nat.ltb (length fs) 2
  || (match ordered fs with first :: _ => parses first | [] => false end
      && forallb readable (ordered fs)).

Definition endOf (r : Serverless.run) : Serverless.state :=
  match r with
  | Serverless.Finished st | Serverless.Thrown st => st
  end.

End ServerlessNotions.

Section ServerlessArchive.
Context `{RT : Runtime}.

(** How an entry of the serverless archive came about: it is the output of
    one complete group among [done], named after it and holding the pages
    of its members in resolved order. *)
Definition mergedFrom (files : list Serverless.UploadedFile)
           (done : list jsstring) (e : entry) : Prop :=
  exists id,
    In id done
    /\ isPair files id = true
    /\ forallb readable (membersOf id files) = true
    /\ fst e = outputName id (membersOf id files)
    /\ snd e = concat (map pagesOf (ordered (membersOf id files))).

(** What holds of the archive once the groups [done] have been handled. *)
Definition tidy (files : list Serverless.UploadedFile) (done : list jsstring)
           (st : Serverless.state) : Prop :=
  Serverless.merged st = length (Serverless.zip st)
  /\ NoDup (map fst (Serverless.zip st))
  /\ Forall (mergedFrom files done) (Serverless.zip st).

(** A file name carries the attachment marker. *)
Definition marked (f : Serverless.UploadedFile) : bool :=
  includes Serverless.allegatoMark (toLowerCase (Serverless.filename f)).

End ServerlessArchive.

(** *** The order of the in-browser variant *)

Section ClientNotions.
Context `{RT : Runtime}.

Definition isMarked (f : Client.FileWithStatus) : bool :=
  includes Client.allegatoMark (toLowerCase (Client.name f)).

Definition attachmentIndex (f : Client.FileWithStatus) : Z :=
  Client.allegatoIndex (toLowerCase (Client.name f)).

(** [a] may come before [b]: unmarked names first, then by index. *)
Definition roleThenIndex (a b : Client.FileWithStatus) : Prop :=
  (isMarked a = false /\ isMarked b = true)
  \/ (isMarked a = isMarked b /\ (attachmentIndex a <= attachmentIndex b)%Z).

End ClientNotions.

(* ================================================================== *)
(** ** Words, runs and shapes *)

(** The words a pattern can read, whatever stands around them: anchors and
    word boundaries read nothing. *)
Inductive matches : regex -> jsstring -> Prop :=
| matches_eps : matches Eps []
| matches_chr (p : N -> bool) (c : N) : p c = true -> matches (Chr p) [c]
| matches_seq (a b : regex) (u v : jsstring) :
    matches a u -> matches b v -> matches (Seq a b) (u ++ v)
| matches_alt_l (a b : regex) (u : jsstring) :
    matches a u -> matches (Alt a b) u
| matches_alt_r (a b : regex) (u : jsstring) :
    matches b u -> matches (Alt a b) u
| matches_star_nil (g : bool) (a : regex) : matches (Star g a) []
| matches_star_cons (g : bool) (a : regex) (u v : jsstring) :
    matches a u -> matches (Star g a) v -> matches (Star g a) (u ++ v)
| matches_group (i : nat) (a : regex) (u : jsstring) :
    matches a u -> matches (Group i a) u
| matches_bol : matches Bol []
| matches_eol : matches Eol []
| matches_wordb : matches WordB [].

(** Whatever [step] reads is a word of [r]. *)
Definition reads (r : regex) (step : mstate -> list mstate) : Prop :=
  forall st st', In st' (step st) ->
                 exists w, advances st st' w /\ matches r w.

(** The longest prefix made of characters of a class, and what follows. *)
Fixpoint leading (p : N -> bool) (s : jsstring) : jsstring :=
  match s with
  | c :: s' => if p c then c :: leading p s' else []
  | [] => []
  end.

Fixpoint past (p : N -> bool) (s : jsstring) : jsstring :=
  match s with
  | c :: s' => if p c then past p s' else s
  | [] => []
  end.

(** A group identifier: two digits, a hyphen, four digits or more. *)
Definition isGroupId (g : jsstring) : Prop :=
  exists d1 d2 ds,
    g = d1 :: d2 :: 45%N :: ds
    /\ is_digit d1 = true /\ is_digit d2 = true
    /\ 4 <= length ds /\ forallb is_digit ds = true.

(** The identifier that starts at the head of [s], read as far as its
    digits go. *)
Definition idAt (s : jsstring) : option jsstring :=
  match s with
  | d1 :: d2 :: h :: d3 :: d4 :: d5 :: d6 :: tl =>
      if is_digit d1 && is_digit d2 && N.eqb h 45
         && is_digit d3 && is_digit d4 && is_digit d5 && is_digit d6
      then Some (d1 :: d2 :: h :: d3 :: d4 :: d5 :: d6 :: leading is_digit tl)
      else None
  | _ => None
  end.

(** The head of [s] fits a sequence of character classes. *)
Fixpoint fits (cs : list (N -> bool)) (s : jsstring) : bool :=
  match cs, s with
  | [], _ => true
  | p :: cs', c :: s' => p c && fits cs' s'
  | _ :: _, [] => false
  end.

(** Every run of characters of [p] replaced by [by_]; [inrun] tells that
    the character before belonged to a run. *)
Fixpoint squeeze_in (p : N -> bool) (by_ : jsstring) (inrun : bool)
         (s : jsstring) : jsstring :=
  match s with
  | [] => []
  | c :: s' =>
      if p c then (if inrun then [] else by_) ++ squeeze_in p by_ true s'
      else c :: squeeze_in p by_ false s'
  end.

Definition squeeze (p : N -> bool) (by_ : jsstring) (s : jsstring) : jsstring :=
  squeeze_in p by_ false s.

(** Blanks are plain spaces that stand alone; [prev] tells that the
    character before was a blank. *)
Fixpoint spaced (prev : bool) (s : jsstring) : bool :=
  match s with
  | [] => true
  | c :: s' =>
      if is_space c then negb prev && N.eqb c 32 && spaced true s'
      else spaced false s'
  end.

(** No blank at the start, none at the end. *)
Definition startsClean (s : jsstring) : bool :=
  match s with c :: _ => negb (is_space c) | [] => true end.

Definition trimmed (s : jsstring) : bool :=
  startsClean s && startsClean (rev s).

(** A character a file name may hold that is not a blank. *)
Definition visible (c : N) : bool := negb (illegal c) && negb (is_space c).

(** What the three sanitizers of file names guarantee. *)
Definition cleanName (s : jsstring) : Prop :=
  forallb (fun c => negb (illegal c)) s = true
  /\ trimmed s = true
  /\ spaced false s = true.

(** *** The order of the archive *)

(** A list without its repetitions: each element stays where it first
    occurs. *)
Fixpoint firstSeen (l : list jsstring) : list jsstring :=
  match l with
  | [] => []
  | k :: l' => k :: filter (fun x => negb (JS.eqb x k)) (firstSeen l')
  end.

Section OrderNotions.
Context `{RT : Runtime}.

(** The identifiers of the uploaded files, in upload order. *)
Definition idsOf (files : list Backend.File) : list jsstring :=
  flat_map (fun f => match idOf f with Some k => [k] | None => [] end) files.

(** The pages the single-backend server merges for an identifier. *)
Definition pairPages (files : list Backend.File) (id : jsstring) : list Page :=
  match lastOf (mainsOf id files), lastOf (attachmentsOf id files) with
  | Some m, Some a =>
      match PDFDocument_load (Backend.buffer m),
            PDFDocument_load (Backend.buffer a) with
      | Some pm, Some pa => pm ++ pa
      | _, _ => []
      end
  | _, _ => []
  end.

Definition slotPages (sl : Backend.slots) : list Page :=
  match Backend.main sl, Backend.allegato sl with
  | Some m, Some a =>
      match PDFDocument_load (Backend.buffer m),
            PDFDocument_load (Backend.buffer a) with
      | Some pm, Some pa => pm ++ pa
      | _, _ => []
      end
  | _, _ => []
  end.

(** The identifiers of the files of the serverless handler. *)
Definition keysOf (files : list Serverless.UploadedFile) : list jsstring :=
  flat_map (fun f => match keyOf f with Some k => [k] | None => [] end) files.

(** The entry the serverless handler files for an identifier. *)
Definition entryOf (files : list Serverless.UploadedFile) (id : jsstring) : entry :=
  (outputName id (membersOf id files),
   concat (map pagesOf (ordered (membersOf id files)))).

End OrderNotions.

(** A name fit for a file system: no illegal character, and the extension
    [.pdf] after a stem that is not empty. *)
Definition safeFileName (name : jsstring) : Prop :=
  forallb (fun c => negb (illegal c)) name = true
  /\ exists stem, stem <> [] /\ name = stem ++ str ".pdf".

(** *** The shape of a normalized text *)

(** Every run of three characters of [p] or more cut down to its first
    two; [k] counts the characters of the current run kept so far. *)
Fixpoint cap (p : N -> bool) (k : nat) (s : jsstring) : jsstring :=
  match s with
  | [] => []
  | c :: s' =>
      if p c
      then (if Nat.ltb k 2 then c :: cap p (S k) s' else cap p k s')
      else c :: cap p 0 s'
  end.

(** No two characters of [p] stand side by side; [prev] tells that the
    character before belonged to [p]. *)
Fixpoint apart (p : N -> bool) (prev : bool) (s : jsstring) : bool :=
  match s with
  | [] => true
  | c :: s' => if p c then negb prev && apart p true s' else apart p false s'
  end.

(** No three characters of [p] stand in a row; [k] counts those that
    stand right before. *)
Fixpoint lull (p : N -> bool) (k : nat) (s : jsstring) : bool :=
  match s with
  | [] => true
  | c :: s' => if p c then Nat.ltb k 2 && lull p (S k) s' else lull p 0 s'
  end.

(** The word [w] occurs in [s]. *)
Definition occursIn (w s : jsstring) : Prop :=
  exists pre post, s = pre ++ w ++ post.

(** A space or a tabulation. *)
Definition blank (c : N) : bool := N.eqb c 32 || N.eqb c 9.

(* ================================================================== *)
(** ** The user interface *)

(** The component [App] of the three user interfaces: its state, the
    handlers that change the list of files, the grouping it shows and, for
    the in-browser variant, [extractDocInfo] and [processFiles].  Each
    handler is run to its end before the next event.

    The objects [groupCounts], [groups] and [groupedFiles] are keyed by the
    identifiers that [extractGroupIdFromFilename] found, or by the word
    [altro]: no key is an array index or a property of [Object.prototype],
    so a key is present exactly when it was written, and the keys are
    enumerated in the order of insertion. *)
Module App.

Section WithRuntime.
Context `{RT : Runtime}.

(** [FileWithStatus] in full: [file] holds the name and the bytes of the
    file and its [groupId], beside them the random [id] and the flag
    [paired]. *)
Record FileWithStatus : Type := MkFile {
  file : Client.FileWithStatus;
  id : jsstring;
  paired : bool
}.

(** [f.groupId] where it is truthy. *)
Definition key (f : FileWithStatus) : option jsstring :=
  match Client.groupId (file f) with
  | Some g => if truthy g then Some g else None
  | None => None
  end.

(** What [setError] shows: a text of the program, or the message of an
    exception thrown by a library ([err?.message], with its fallback text
    where the exception has none). *)
Inductive message : Type :=
| Text (s : string)
| OfException.

Record state : Type := MkState {
  files : list FileWithStatus;
  isProcessing : bool;
  error : option message;
  isSuccess : bool
}.

Definition initial : state := MkState [] false None false.

Definition extractGroupIdFromFilename (name : jsstring) : option jsstring :=
  match_group re_group_id 1 name.

(** [groupCounts[g] = (groupCounts[g] || 0) + 1] *)
Fixpoint bump (g : jsstring) (counts : list (jsstring * nat))
  : list (jsstring * nat) :=
  match counts with
  | [] => [(g, 1)]
  | (k, n) :: cs =>
      if JS.eqb k g then (k, S n) :: cs else (k, n) :: bump g cs
  end.

Definition groupCounts (currentFiles : list FileWithStatus)
  : list (jsstring * nat) :=
  fold_left (fun counts f =>
               match key f with
               | Some g => bump g counts
               | None => counts
               end)
            currentFiles [].

(** [groupCounts[g]]: undefined for a key that was never counted. *)
Fixpoint countOf (g : jsstring) (counts : list (jsstring * nat)) : option nat :=
  match counts with
  | [] => None
  | (k, n) :: cs => if JS.eqb k g then Some n else countOf g cs
  end.

(** [!!(f.groupId && groupCounts[f.groupId] >= 2)] *)
Definition pairedIn (counts : list (jsstring * nat)) (f : FileWithStatus) : bool :=
  match key f with
  | Some g =>
      match countOf g counts with
      | Some n => Nat.leb 2 n
      | None => false
      end
  | None => false
  end.

Definition updatePairing (s : state) (currentFiles : list FileWithStatus) : state :=
  let counts := groupCounts currentFiles in
  let updated :=
    map (fun f => MkFile (file f) (id f) (pairedIn counts f)) currentFiles in
  MkState updated (isProcessing s) None false.

(** A file of a [FileList] with the identifier drawn for it. *)
Definition incomingFile (f : jsstring * Buffer * jsstring) : FileWithStatus :=
  let '(name, content, randomId) := f in
  MkFile (Client.MkStatus name content (extractGroupIdFromFilename name))
         randomId false.

(** [handleFiles]; a null [FileList] changes nothing. *)
Definition handleFiles (s : state)
           (filesList : option (list (jsstring * Buffer * jsstring))) : state :=
  match filesList with
  | None => s
  | Some l => updatePairing s (files s ++ map incomingFile l)
  end.

Definition removeFile (s : state) (id_ : jsstring) : state :=
  updatePairing s (filter (fun f => negb (JS.eqb (id f) id_)) (files s)).

Definition removeAll (s : state) : state :=
  MkState [] (isProcessing s) None false.

Definition hasAnyPairedGroup (s : state) : bool := existsb paired (files s).

(** *** Grouping *)

(** An object whose keys are group identifiers, or the word [altro], in
    the order of insertion. *)
Definition grouping : Type := list (jsstring * list FileWithStatus).

(** [(acc[key] ||= []).push(f)] *)
Fixpoint push (k : jsstring) (f : FileWithStatus) (acc : grouping) : grouping :=
  match acc with
  | [] => [(k, [f])]
  | (k', fs) :: acc' =>
      if JS.eqb k' k then (k', fs ++ [f]) :: acc' else (k', fs) :: push k f acc'
  end.

(** [validGroups.groups] *)
Definition groups (s : state) : grouping :=
  fold_left (fun acc f =>
               match key f with
               | Some g => push g f acc
               | None => acc
               end)
            (files s) [].

(** [validGroups.valid] *)
Definition valid (s : state) : grouping :=
  filter (fun e => Nat.leb 2 (length (snd e))) (groups s).

(** [groupedFiles], the groups the list of files is shown in. *)
Definition groupedFiles (s : state) : grouping :=
  fold_left (fun acc f =>
               push (match key f with Some g => g | None => str "altro" end)
                    f acc)
            (files s) [].

(** The groups shown in green:
    [groupId !== "altro" && groupFiles.length >= 2]. *)
Definition highlighted (e : jsstring * list FileWithStatus) : bool :=
  negb (JS.eqb (fst e) (str "altro")) && Nat.leb 2 (length (snd e)).

(** *** The in-browser merge *)

Section InBrowser.

(** pdf.js: the document of a file, as the text items of its pages in
    order; [None] where a promise is rejected. *)
Variable getDocument : Buffer -> option (list (option (list jsstring))).

(** [readPageText(n)]: the items of page [n] joined by spaces. *)
Definition readPageText (doc : list (option (list jsstring))) (n : nat)
  : option jsstring :=
  match nth_error doc (n - 1) with
  | Some (Some items) => Some (Client.join (str " ") items)
  | _ => None
  end.

Definition pagesToTry (doc : list (option (list jsstring))) : list nat :=
  filter (fun p => Nat.leb p (length doc)) [2; 1].

(** [/Intestatario:\s*([^\n\r]+?)(?:\s{2,}|Allegato|del:|Data|Via|$)/i] *)
Definition re_intestatario : regex :=
  Seq (WordI "Intestatario")
  (Seq (Chr (chr ":"))
  (Seq (Star true (Chr is_space))
  (Seq (Group 1 (PlusLazy (Chr (fun c => negb (N.eqb c 10 || N.eqb c 13)))))
       (Alt (AtLeast 2 (Chr is_space))
       (Alt (WordI "Allegato")
       (Alt (WordI "del:")
       (Alt (WordI "Data")
       (Alt (WordI "Via") Eol)))))))).

(** [!x] for a string or null. *)
Definition falsy (x : option jsstring) : bool :=
  match x with Some s => negb (truthy s) | None => true end.

(** [if (!x && m?.[i]) x = m[i].trim()] *)
Definition fill (x : option jsstring) (m : option jsstring) : option jsstring :=
  if falsy x
  then match m with
       | Some g => if truthy g then Some (trim g) else x
       | None => x
       end
  else x.

(** One turn of the loop over the pages, up to its [break]. *)
Definition readInfo (text : jsstring) (info : Client.DocInfo) : Client.DocInfo :=
  let fatturaNo :=
    fill (Client.fatturaNo info) (match_group Serverless.re_fattura 1 text) in
  let intestatario :=
    fill (Client.intestatario info) (match_group re_intestatario 1 text) in
  let intestatario :=
    if falsy intestatario
    then match match_group Serverless.re_dr 0 text with
         | Some g => if truthy g then Some (trim g) else intestatario
         | None => intestatario
         end
    else intestatario in
  Client.MkInfo intestatario fatturaNo.

(** The loop over [pagesToTry]; [None] is an exception. *)
Fixpoint readPages (doc : list (option (list jsstring))) (pages : list nat)
         (info : Client.DocInfo) : option Client.DocInfo :=
  match pages with
  | [] => Some info
  | p :: pages' =>
      match readPageText doc p with
      | None => None
      | Some text =>
          let info' := readInfo text info in
          if negb (falsy (Client.intestatario info'))
             && negb (falsy (Client.fatturaNo info'))
          then Some info'
          else readPages doc pages' info'
      end
  end.

Definition noInfo : Client.DocInfo := Client.MkInfo None None.

(** [extractDocInfo]: every exception is caught and gives two nulls. *)
Definition extractDocInfo (content : Buffer) : Client.DocInfo :=
  match getDocument content with
  | None => noInfo
  | Some doc =>
      match readPages doc (pagesToTry doc) noInfo with
      | Some info => info
      | None => noInfo
      end
  end.

(** The loop [for (const f of ordered)] that fills [mergedPdf]. *)
Fixpoint mergeFiles (fs : list Client.FileWithStatus) (mergedPdf : list Page)
  : option (list Page) :=
  match fs with
  | [] => Some mergedPdf
  | f :: fs' =>
      match PDFDocument_load (Client.content f) with
      | None => None
      | Some pdf => mergeFiles fs' (addPages mergedPdf pdf)
      end
  end.

Record archive : Type := MkArchive {
  zip : list entry;
  mergedCount : nat
}.

(** One turn of the loop over [validGroups.valid]; [None] is an exception. *)
Definition processGroup (groupId : jsstring) (groupFiles : list FileWithStatus)
           (a : archive) : option archive :=
  let ordered := Client.orderGroupFiles (map file groupFiles) in
  match ordered with
  | [] => None
  | first :: _ =>
      let info := extractDocInfo (Client.content first) in
      match mergeFiles ordered [] with
      | None => None
      | Some mergedPdf =>
          Some (MkArchive
                  (Serverless.zipFile (Client.fileNameOf groupId info)
                                      mergedPdf (zip a))
                  (S (mergedCount a)))
      end
  end.

Fixpoint processGroups (gs : grouping) (a : archive) : option archive :=
  match gs with
  | [] => Some a
  | (groupId, groupFiles) :: gs' =>
      match processGroup groupId groupFiles a with
      | Some a' => processGroups gs' a'
      | None => None
      end
  end.

Definition showError (s : state) (m : message) : state :=
  MkState (files s) (isProcessing s) (Some m) (isSuccess s).

(** [processFiles]: the state it leaves and the archive it hands to the
    browser for download, if any. *)
Definition processFiles (s : state) : state * option (list entry) :=
  if Nat.eqb (length (files s)) 0
  then (showError s (Text "Carica almeno 2 PDF per iniziare."), None)
  else if Nat.eqb (length (valid s)) 0
  then (showError s (Text "Nessuna coppia valida trovata. Carica almeno 2 PDF con lo stesso ID (es. 25-0249.pdf e 25-0249_Allegato1.pdf)."),
        None)
  else
    match processGroups (valid s) (MkArchive [] 0) with
    | Some a =>
        if Nat.eqb (mergedCount a) 0
        then (MkState (files s) false
                      (Some (Text "Serve almeno una coppia di PDF con lo stesso ID nel nome file."))
                      false,
              None)
        else (MkState (files s) false None true, Some (zip a))
    | None => (MkState (files s) false (Some OfException) false, None)
    end.

End InBrowser.

End WithRuntime.
End App.

(** *** What the statements about the user interface are phrased with *)

Section UiNotions.
Context `{RT : Runtime}.

(** What a key function sorts under [g]. *)
Definition keyed (kf : App.FileWithStatus -> option jsstring) (g : jsstring)
           (f : App.FileWithStatus) : bool :=
  match kf f with Some k => JS.eqb k g | None => false end.

(** The file carries the identifier [g]. *)
Definition sameKey (g : jsstring) (f : App.FileWithStatus) : bool :=
  keyed App.key g f.

(** The files of a list that carry the identifier [g], in their order. *)
Definition mates (g : jsstring) (fs : list App.FileWithStatus)
  : list App.FileWithStatus :=
  filter (sameKey g) fs.

(** At least two files of the list carry the identifier of [f]. *)
Definition hasMate (fs : list App.FileWithStatus) (f : App.FileWithStatus) : bool :=
  match App.key f with
  | Some g => Nat.leb 2 (length (mates g fs))
  | None => false
  end.

Definition flagged (fs : list App.FileWithStatus) (f : App.FileWithStatus)
  : App.FileWithStatus :=
  App.MkFile (App.file f) (App.id f) (hasMate fs f).

(** The identifier of the file is the one its name holds. *)
Definition tagged (f : App.FileWithStatus) : bool :=
  match Client.groupId (App.file f),
        App.extractGroupIdFromFilename (Client.name (App.file f)) with
  | Some a, Some b => JS.eqb a b
  | None, None => true
  | _, _ => false
  end.

(** A list of files as the handlers leave it: identifiers taken from the
    names, flags that tell which files have a mate. *)
Definition sound (fs : list App.FileWithStatus) : bool :=
  forallb tagged fs
  && forallb (fun f => Bool.eqb (App.paired f) (hasMate fs f)) fs.

(** The identifiers of the files, in their order. *)
Definition uiKeys (fs : list App.FileWithStatus) : list jsstring :=
  flat_map (fun f => match App.key f with Some k => [k] | None => [] end) fs.

(** The states the component goes through. *)
Inductive reachable
          (getDocument : Buffer -> option (list (option (list jsstring))))
  : App.state -> Prop :=
| reach_initial : reachable getDocument App.initial
| reach_handleFiles s l :
    reachable getDocument s -> reachable getDocument (App.handleFiles s l)
| reach_removeFile s i :
    reachable getDocument s -> reachable getDocument (App.removeFile s i)
| reach_removeAll s :
    reachable getDocument s -> reachable getDocument (App.removeAll s)
| reach_processFiles s :
    reachable getDocument s ->
    reachable getDocument (fst (App.processFiles getDocument s)).

(** The file as the form posts it to a server. *)
Definition uploaded (f : App.FileWithStatus) : Serverless.UploadedFile :=
  Serverless.MkUploaded (Client.name (App.file f)) (Client.content (App.file f)).

Definition posted (f : App.FileWithStatus) : Backend.File :=
  Backend.MkFile (Client.name (App.file f)) (Client.content (App.file f)).

End UiNotions.

(** *** A session for the examples *)

Module SampleUi.

(** pdf.js on the sample buffers: every page holds the text of the
    document as one item. *)
Definition getDocument (b : Buffer (Runtime := Sample.runtime))
  : option (list (option (list jsstring))) :=
  match b : option (jsstring * list nat) with
  | Some (text, pages) => Some (map (fun _ => Some [text]) pages)
  | None => None
  end.

Definition pick (name : string) (b : option (jsstring * list nat)) (id : string)
  : jsstring * Buffer (Runtime := Sample.runtime) * jsstring :=
  (str name, b, str id).

(** Two invoices with an attachment each, a file without identifier and a
    lone attachment, picked in one go. *)
Definition session : App.state (RT := Sample.runtime) :=
  App.handleFiles (RT := Sample.runtime) App.initial
    (Some [ pick "25-02050.pdf"
                 (Sample.pdf "Fattura N: 25/02049 Intestatario: Mario Rossi  Via Roma" [1; 2])
                 "k1";
            pick "note.pdf" (Sample.pdf "" [3]) "k2";
            pick "25-02051_Allegato1.pdf" (Sample.pdf "" [4]) "k3";
            pick "25-02050_Allegato1.pdf" (Sample.pdf "" [5]) "k4";
            pick "25-02051.pdf" (Sample.pdf "Dr Anna Bianchi" [6]) "k5";
            pick "25-02052_Allegato1.pdf" (Sample.pdf "" [7]) "k6" ]).

(** The same session after the attachments of the two invoices were
    removed. *)
Definition unpaired : App.state (RT := Sample.runtime) :=
  App.removeFile (App.removeFile session (str "k3")) (str "k4").

(** An invoice and its attachment, which no library can read. *)
Definition brokenSession : App.state (RT := Sample.runtime) :=
  App.handleFiles (RT := Sample.runtime) App.initial
    (Some [ pick "25-02050.pdf" (Sample.pdf "Intestatario: Mario Rossi" [1]) "k1";
            pick "25-02050_Allegato1.pdf" Sample.broken "k2" ]).

(** A document of two pages: the reference number is on page 2, the
    addressee on page 1. *)
Definition twoPages (b : Buffer (Runtime := Sample.runtime))
  : option (list (option (list jsstring))) :=
  Some [ Some [str "Intestatario:"; str "Mario Rossi"];
         Some [str "Fattura N:"; str "25/02049"; str "Fattura N: 25/02050"] ].

End SampleUi.

(* ================================================================== *)
(** ** Captures *)

(** The bodies of the groups numbered [i] in a pattern. *)
Fixpoint bodies (i : nat) (r : regex) : list regex :=
  match r with
  | Seq a b | Alt a b => bodies i a ++ bodies i b
  | Star _ a => bodies i a
  | Group j a => (if Nat.eqb i j then [a] else []) ++ bodies i a
  | _ => []
  end.

(** Whatever [step] does, capture [i] is left as it was or holds a word of
    one of the patterns [bs]. *)
Definition captures (i : nat) (bs : list regex) (step : mstate -> list mstate)
  : Prop :=
  forall st st', In st' (step st) ->
    lookup i (caps st') = lookup i (caps st)
    \/ exists a w, In a bs /\ matches a w /\ lookup i (caps st') = Some w.

(** A reference number as the invoices print it: two digits, a slash, five
    digits. *)
Definition referenceShape (g : jsstring) : bool :=
  Nat.eqb (length g) 8
  && fits [is_digit; is_digit; chr "/"; is_digit; is_digit; is_digit;
           is_digit; is_digit] g.

(** *** What the statements about the in-browser merge are phrased with *)

Section InBrowserNotions.
Context `{RT : Runtime}.
Variable getDocument : Buffer -> option (list (option (list jsstring))).

(** Both fields of the metadata were found. *)
Definition bothFound (info : Client.DocInfo) : bool :=
  negb (App.falsy (Client.intestatario info))
  && negb (App.falsy (Client.fatturaNo info)).

(** The files of identifier [g] in the order in which they are merged. *)
Definition orderedMates (g : jsstring) (fs : list App.FileWithStatus)
  : list Client.FileWithStatus :=
  Client.orderGroupFiles (map App.file (mates g fs)).

Definition loadsFile (f : Client.FileWithStatus) : bool :=
  match PDFDocument_load (Client.content f) with
  | Some _ => true
  | None => false
  end.

Definition pagesOfFile (f : Client.FileWithStatus) : list Page :=
  match PDFDocument_load (Client.content f) with
  | Some pages => pages
  | None => []
  end.

(** The metadata read from the first file of a group. *)
Definition infoOf (g : jsstring) (fs : list App.FileWithStatus) : Client.DocInfo :=
  match orderedMates g fs with
  | first :: _ => App.extractDocInfo getDocument (Client.content first)
  | [] => App.noInfo
  end.

(** The entry of identifier [g]: its name and the pages of its files. *)
Definition browserEntry (fs : list App.FileWithStatus) (g : jsstring) : entry :=
  (Client.fileNameOf g (infoOf g fs),
   concat (map pagesOfFile (orderedMates g fs))).

(** The identifiers that two files or more carry, where they first occur. *)
Definition validKeys (fs : list App.FileWithStatus) : list jsstring :=
  filter (fun k => Nat.leb 2 (length (mates k fs))) (firstSeen (uiKeys fs)).

End InBrowserNotions.

(** No reference number, or one of the printed shape. *)
Definition shaped (x : option jsstring) : Prop :=
  match x with Some f => referenceShape f = true | None => True end.

(** The name starts with the identifier [k], and goes on with a character
    that no identifier holds. *)
Definition headed (k name : jsstring) : Prop :=
  exists c rest, name = k ++ c :: rest /\ id_char c = false.

(** Taking apart a word of a sequence of character classes. *)
Ltac invert_matches :=
  repeat match goal with
         | H : matches (Seq _ _) _ |- _ => inversion H; subst; clear H
         | H : matches (Chr _) _ |- _ => inversion H; subst; clear H
         | H : matches Eps _ |- _ => inversion H; subst; clear H
         end.

(** The key under which the list of files shows a file. *)
Definition shownUnder `{RT : Runtime} (f : App.FileWithStatus) : jsstring :=
  match App.key f with Some g => g | None => str "altro" end.

(** The label and the titles the addressee heuristics look for, in lower
    case. *)
Definition addresseeMarks : list jsstring :=
  map str ["intestatario"; "dr"; "dott"; "sig"; "spett"; "gent"; "egr"]%string.

(* ================================================================== *)
(** ** The outputs, group by group *)

(** An entry of an archive is described by its name and by the pages that
    were copied into the merged document. *)

Section MergeNotions.
Context `{RT : Runtime}.

(** The output [e] is the merge of group [id] of the single-backend
    server: the pages of the group's main document, the last one uploaded,
    followed by those of its attachment, the last one uploaded, both
    documents having loaded. *)
Definition mergesPair (files : list Backend.File) (id : jsstring) (e : entry)
  : Prop :=
  exists m a pm pa,
    lastOf (mainsOf id files) = Some m
    /\ lastOf (attachmentsOf id files) = Some a
    /\ PDFDocument_load (Backend.buffer m) = Some pm
    /\ PDFDocument_load (Backend.buffer a) = Some pa
    /\ snd e = pm ++ pa
    /\ length (snd e) = length pm + length pa.

(** The output [e] is the merge of group [id] of the serverless handler:
    the pages of the group's files, all of which loaded, file after file in
    the resolved order, which is a rearrangement of the files of the group
    where no file with the attachment marker comes before a file without
    it. *)
Definition mergesMembers (files : list Serverless.UploadedFile) (id : jsstring)
           (e : entry) : Prop :=
  Permutation (ordered (membersOf id files)) (membersOf id files)
  /\ StronglySorted (fun a b => marked a = true -> marked b = true)
                    (ordered (membersOf id files))
  /\ (forall f, In f (membersOf id files) ->
                PDFDocument_load (Serverless.buffer f) = Some (pagesOf f))
  /\ snd e = concat (map pagesOf (ordered (membersOf id files)))
  /\ length (snd e)
     = list_sum (map (fun f => length (pagesOf f))
                     (ordered (membersOf id files))).

End MergeNotions.

(** *** The fields a name is built from *)

(** A field that is present: a string that is not empty. *)
Definition found (x : option jsstring) : option jsstring :=
  match x with
  | Some s => if truthy s then Some s else None
  | None => None
  end.

(** The addressee as the in-browser variant prints it: present, cleaned for
    the file system, and not empty after that. *)
Definition printable (x : option jsstring) : option jsstring :=
  match found x with
  | Some n => found (Some (Client.safeFilenamePart n))
  | None => None
  end.

(** The base name in the words of the specification: identifier, reference
    number and addressee when both fields are present; identifier and
    addressee when only the addressee is; the bare identifier when neither
    is.  It does not say what a reference number alone gives. *)
Definition statedBase (id : jsstring) (reference addressee : option jsstring)
  : option jsstring :=
  match reference, addressee with
  | Some r, Some n => Some (id ++ str " - " ++ r ++ str " - " ++ n)
  | None, Some n => Some (id ++ str " - " ++ n)
  | Some _, None => None
  | None, None => Some id
  end.

(** *** More sample batches *)

Module Cases.

(** An invoice whose addressee label is followed by a reference number,
    with a titled name on the next line. *)
Definition numericText : jsstring :=
  str "Intestatario: 25/02050" ++ [10%N] ++ str "Dr Mario Rossi".

Definition numericUploads : list (Serverless.UploadedFile (RT := Sample.runtime)) :=
  [ Serverless.MkUploaded (RT := Sample.runtime) (str "25-02050.pdf")
                          (Some (numericText, [1]));
    Sample.upload "25-02050_Allegato1.pdf" (Sample.pdf "" [2]) ].

Definition numericBatch : list (Backend.File (RT := Sample.runtime)) :=
  [ Backend.MkFile (RT := Sample.runtime) (str "25-02050.pdf")
                   (Some (numericText, [1]));
    Sample.file "25-02050_Allegato1.pdf" (Sample.pdf "" [2]) ].

(** An invoice in which neither a reference number nor an addressee can be
    read, and its attachment. *)
Definition plainUploads : list (Serverless.UploadedFile (RT := Sample.runtime)) :=
  [ Sample.upload "25-02050.pdf" (Sample.pdf "Totale 100,00" [1]);
    Sample.upload "25-02050_Allegato1.pdf" (Sample.pdf "" [2]) ].

(** Two complete groups, a file without identifier and a lone attachment;
    the attachment of the first group has no pages, and the attachment of
    the second group was uploaded before its invoice. *)
Definition twoGroups : list (Serverless.UploadedFile (RT := Sample.runtime)) :=
  [ Sample.upload "25-02049.pdf" (Sample.pdf "Intestatario: Anna Bianchi" [7; 8]);
    Sample.upload "25-02050_Allegato1.pdf" (Sample.pdf "" [2; 3]);
    Sample.upload "25-02049_Allegato1.pdf" (Sample.pdf "" []);
    Sample.upload "note.pdf" (Sample.pdf "" [9]);
    Sample.upload "25-02050.pdf" (Sample.pdf "Intestatario: Mario Rossi" [1]);
    Sample.upload "25-02051_Allegato1.pdf" (Sample.pdf "" [4]) ].

(** Two complete groups for the single-backend server: an invoice with an
    addressee, and one in which no addressee can be read. *)
Definition mixedBatch : list (Backend.File (RT := Sample.runtime)) :=
  [ Sample.file "25-02050.pdf" (Sample.pdf "Intestatario: Mario Rossi" [1]);
    Sample.file "25-02050_Allegato1.pdf" (Sample.pdf "" [2]);
    Sample.file "25-02051.pdf" (Sample.pdf "Totale 100,00" [3]);
    Sample.file "25-02051_Allegato1.pdf" (Sample.pdf "" [4]) ].

(** An invoice that prints its reference number and masks the addressee
    with stars, picked with its attachment in the in-browser variant. *)
Definition maskedSession : App.state (RT := Sample.runtime) :=
  App.handleFiles (RT := Sample.runtime) App.initial
    (Some [ SampleUi.pick "25-02050.pdf"
              (Sample.pdf "Fattura N: 25/02049 Intestatario: ***" [1]) "k1";
            SampleUi.pick "25-02050_Allegato1.pdf" (Sample.pdf "" [2]) "k2" ]).

End Cases.

(** *** The names of the outputs, variant by variant *)

(** An output is named as the specification words it, where it says how. *)
Definition namedAsStated (id : jsstring) (reference addressee : option jsstring)
           (name : jsstring) : Prop :=
  match statedBase id reference addressee with
  | Some base => name = base ++ str ".pdf"
  | None => True
  end.

Section BrowserNames.
Context `{RT : Runtime}.
Variable getDocument : Buffer -> option (list (option (list jsstring))).

(** The name of the output of identifier [k] in the in-browser variant,
    from the metadata read in the first file of the group in merge order:
    the identifier, then the reference number, its slash turned into a
    hyphen, if one was found, then the addressee if it can be printed. *)
Definition browserNamed (fs : list App.FileWithStatus) (k : jsstring)
           (e : entry) : Prop :=
  fst e
  = match found (Client.fatturaNo (infoOf getDocument k fs)),
          printable (Client.intestatario (infoOf getDocument k fs)) with
    | Some r, Some n =>
        k ++ str " - " ++ replace1 47 45 r ++ str " - " ++ n ++ str ".pdf"
    | None, Some n => k ++ str " - " ++ n ++ str ".pdf"
    | Some r, None => k ++ str " - " ++ replace1 47 45 r ++ str ".pdf"
    | None, None => k ++ str ".pdf"
    end.

End BrowserNames.

Section ServerNames.
Context `{RT : Runtime}.

(** The name of the output of group [id] in the single-backend server: a
    candidate of the cleaned addressee alone when the extraction, tried on
    the attachment and then on the main document, returns one, and a
    candidate of the bare identifier when it returns none. *)
Definition backendNamed (files : list Backend.File) (id : jsstring) (e : entry)
  : Prop :=
  exists m a k,
    lastOf (mainsOf id files) = Some m
    /\ lastOf (attachmentsOf id files) = Some a
    /\ 1 <= k
    /\ fst e = candidate
                 match Backend.intestatarioOf m a with
                 | Some n => Backend.safePdfFileName n
                 | None => id
                 end
                 k.

(** The name of the output of group [id] in the serverless handler, from
    the text of the first file of the group in sorted order: identifier,
    reference number and addressee, where the identifier stands in for a
    reference number that is not found and "Documento" for an addressee
    that neither pattern finds. *)
Definition serverlessNamed (files : list Serverless.UploadedFile) (id : jsstring)
           (e : entry) : Prop :=
  fst e
  = id ++ str " - "
       ++ match match_group Serverless.re_fattura 1 (textOf (membersOf id files)) with
          | Some r => Serverless.safeName (replace1 47 45 r)
          | None => id
          end
       ++ str " - "
       ++ match match_group Serverless.re_intestatario 1
                            (textOf (membersOf id files)) with
          | Some n => Serverless.safeName n
          | None =>
              match match_group Serverless.re_dr 0 (textOf (membersOf id files)) with
              | Some n => Serverless.safeName n
              | None => str "Documento"
              end
          end
       ++ str ".pdf".

End ServerNames.

(* ================================================================== *)
(** * Properties *)

(** ** Sorting *)

Section SortFacts.
Variable A : Type.
Variable cmp : A -> A -> Z.

Lemma insert_perm (x : A) (l : list A) : Permutation (insert cmp x l) (x :: l).
Proof.
  induction l as [|y l IH]; simpl; [reflexivity|].
  destruct (Z.leb (cmp x y) 0); [reflexivity|].
  rewrite IH. apply perm_swap.
Qed.

Lemma sort_perm (l : list A) : Permutation (sort cmp l) l.
Proof.
  induction l as [|x l IH]; simpl; [reflexivity|].
  rewrite insert_perm, IH. reflexivity.
Qed.

Lemma sort_length (l : list A) : length (sort cmp l) = length l.
Proof. apply Permutation_length, sort_perm. Qed.

Lemma sort_In (l : list A) (x : A) : In x (sort cmp l) <-> In x l.
Proof.
  split; apply Permutation_in; [apply sort_perm | symmetry; apply sort_perm].
Qed.

End SortFacts.

(** ** Strings and the matcher *)

Lemma eqb_eq (a b : jsstring) : JS.eqb a b = true <-> a = b.
Proof.
  revert b; induction a as [|x a IH]; destruct b as [|y b]; simpl;
    try (split; [discriminate | discriminate]); try (split; reflexivity).
  rewrite andb_true_iff, N.eqb_eq, IH.
  split; [intros [-> ->]; reflexivity | intros H; inversion H; auto].
Qed.

Lemma eqb_refl (a : jsstring) : JS.eqb a a = true.
Proof. apply eqb_eq; reflexivity. Qed.

Lemma eqb_neq (a b : jsstring) : JS.eqb a b = false <-> a <> b.
Proof.
  split.
  - intros H E. apply eqb_eq in E. congruence.
  - intros H. destruct (JS.eqb a b) eqn:E; [apply eqb_eq in E; contradiction | reflexivity].
Qed.

Lemma truthy_length (s : jsstring) : 1 <= length s -> truthy s = true.
Proof. destruct s; simpl; [lia | reflexivity]. Qed.

Lemma flat_map_nonempty (A B : Type) (f : A -> list B) (l : list A) (x : A) :
  In x l -> f x <> [] -> flat_map f l <> [].
Proof.
  intros Hin Hf E.
  destruct (f x) as [|y ys] eqn:Efx; [congruence|].
  assert (Hy : In y (flat_map f l)).
  { apply in_flat_map. exists x. split; [assumption | rewrite Efx; left; reflexivity]. }
  rewrite E in Hy. inversion Hy.
Qed.

(** A greedy star over a class can run to the end of an input made of
    members of the class. *)
Lemma star_class_reaches_end (p : N -> bool) (s sn : jsstring) cs :
  forallb p s = true ->
  In (MState (rev s ++ sn) [] cs) (exec (Star true (Chr p)) (MState sn s cs)).
Proof.
  revert sn; induction s as [|c s IH]; intros sn H.
  - left; reflexivity.
  - simpl in H. apply andb_true_iff in H as [Hc Hs].
    specialize (IH (c :: sn) Hs).
    simpl rev. rewrite <- app_assoc. simpl app at 2.
    simpl. rewrite Hc. simpl.
    assert (Hlt : Nat.ltb (length s) (S (length s)) = true)
      by (apply Nat.ltb_lt; lia).
    rewrite Hlt, app_nil_r. apply in_or_app. left. exact IH.
Qed.

Lemma match_here_some (r : regex) (sn rs : jsstring) (st' : mstate) :
  In st' (exec r (MState sn rs [])) -> match_here r sn rs <> None.
Proof.
  unfold match_here. destruct (exec r (MState sn rs [])); [intros [] | discriminate].
Qed.

Lemma test_at_start (r : regex) (s : jsstring) :
  match_here r [] s <> None -> test r s = true.
Proof.
  unfold test, search. intros H.
  destruct s; simpl; destruct (match_here r [] _); try congruence; reflexivity.
Qed.

(** *** The bounds on iteration are never reached *)

Lemma flat_map_nothing (A B : Type) (l : list A) :
  flat_map (fun _ : A => @nil B) l = [].
Proof. induction l as [|x l IH]; simpl; [reflexivity | exact IH]. Qed.

(** A star needs no more turns than there are characters left: any larger
    bound gives the same matches. *)
Lemma star_loop_fuel (step : mstate -> list mstate) (greedy : bool)
      (n m : nat) (st : mstate) :
  length (rest st) <= n -> length (rest st) <= m ->
  star_loop step greedy n st = star_loop step greedy m st.
Proof.
  revert m st. induction n as [|n IH]; intros m st Hn Hm.
  - assert (Hz : length (rest st) = 0) by lia.
    destruct m as [|m]; [reflexivity|].
    cbn [star_loop]. rewrite Hz.
    rewrite (flat_map_ext _ (fun _ => []));
      [|intros a; reflexivity].
    rewrite flat_map_nothing. destruct greedy; reflexivity.
  - destruct m as [|m].
    + assert (Hz : length (rest st) = 0) by lia.
      cbn [star_loop]. rewrite Hz.
      rewrite (flat_map_ext _ (fun _ => []));
        [|intros a; reflexivity].
      rewrite flat_map_nothing. destruct greedy; reflexivity.
    + cbn [star_loop].
      rewrite (flat_map_ext
                 (fun st' =>
                    if Nat.ltb (length (rest st')) (length (rest st))
                    then star_loop step greedy n st' else [])
                 (fun st' =>
                    if Nat.ltb (length (rest st')) (length (rest st))
                    then star_loop step greedy m st' else [])).
      * reflexivity.
      * intros st'.
        destruct (Nat.ltb (length (rest st')) (length (rest st))) eqn:E;
          [|reflexivity].
        apply Nat.ltb_lt in E. apply IH; lia.
Qed.

(** A global replacement needs no more turns than there are characters
    left, plus one. *)
Lemma replace_from_fuel (r : regex) (by_ : jsstring) (n m : nat)
      (sn rs : jsstring) :
  length rs < n -> length rs < m ->
  replace_from n r by_ sn rs = replace_from m r by_ sn rs.
Proof.
  revert m sn rs. induction n as [|n IH]; intros m sn rs Hn Hm; [lia|].
  destruct m as [|m]; [lia|].
  cbn [replace_from].
  destruct (match_here r sn rs) as [[st st']|].
  - destruct (Nat.ltb (length (rest st')) (length rs)) eqn:E.
    + apply Nat.ltb_lt in E. f_equal. apply IH; lia.
    + destruct rs as [|c rs]; [reflexivity|].
      simpl in Hn, Hm. do 2 f_equal. apply IH; lia.
  - destruct rs as [|c rs]; [reflexivity|].
    simpl in Hn, Hm. f_equal. apply IH; lia.
Qed.

(** *** What a match consumed *)

Lemma advances_refl (st : mstate) : advances st st [].
Proof. split; reflexivity. Qed.

Lemma advances_trans (st st1 st2 : mstate) (w1 w2 : jsstring) :
  advances st st1 w1 -> advances st1 st2 w2 -> advances st st2 (w1 ++ w2).
Proof.
  intros [H1 H2] [H3 H4]. split.
  - rewrite H3, H1, rev_app_distr, app_assoc. reflexivity.
  - rewrite H2, H4, app_assoc. reflexivity.
Qed.

Lemma consumed_advances (st st' : mstate) (w : jsstring) :
  advances st st' w -> consumed st st' = w.
Proof.
  intros [H _]. unfold consumed. rewrite H, length_app, length_rev.
  replace (length w + length (seen st) - length (seen st)) with (length (rev w))
    by (rewrite length_rev; lia).
  rewrite firstn_app, Nat.sub_diag, firstn_all. simpl.
  rewrite app_nil_r. apply rev_involutive.
Qed.

Section Spans.
Variable P : N -> bool.

Lemma star_loop_spans (step : mstate -> list mstate) (greedy : bool) :
  spans P step -> forall n, spans P (star_loop step greedy n).
Proof.
  intros Hstep n. induction n as [|n IH]; intros st st' Hin.
  - destruct Hin as [<-|[]]. exists []. split; [apply advances_refl | reflexivity].
  - cbn [star_loop] in Hin.
    assert (Hcases :
              st' = st \/
              In st' (flat_map
                        (fun st1 =>
                           if Nat.ltb (length (rest st1)) (length (rest st))
                           then star_loop step greedy n st1 else [])
                        (step st))).
    { destruct greedy.
      - apply in_app_or in Hin as [Hin|[<-|[]]]; auto.
      - destruct Hin as [<-|Hin]; auto. }
    destruct Hcases as [->|Hmore].
    + exists []. split; [apply advances_refl | reflexivity].
    + apply in_flat_map in Hmore as (st1 & H1 & Hrest).
      destruct (Nat.ltb (length (rest st1)) (length (rest st)));
        [|inversion Hrest].
      apply Hstep in H1 as (w1 & Ha1 & Hp1).
      apply IH in Hrest as (w2 & Ha2 & Hp2).
      exists (w1 ++ w2). split; [eapply advances_trans; eauto|].
      rewrite forallb_app, Hp1, Hp2. reflexivity.
Qed.

(** A match of a pattern whose classes lie within [P] reads characters of
    [P] only. *)
Lemma exec_spans (r : regex) : within P r -> spans P (exec r).
Proof.
  induction r as [|p|a IHa b IHb|a IHa b IHb|g a IHa|i a IHa| | |];
    intros Hw st st' Hin; cbn [exec within] in *.
  - destruct Hin as [<-|[]]. exists []. split; [apply advances_refl | reflexivity].
  - destruct (rest st) as [|c tl] eqn:Er; [inversion Hin|].
    destruct (p c) eqn:Ep; [|inversion Hin].
    destruct Hin as [<-|[]]. exists [c]. split.
    + split; [reflexivity | exact Er].
    + simpl. rewrite (Hw c Ep). reflexivity.
  - destruct Hw as [Hwa Hwb].
    apply in_flat_map in Hin as (st1 & H1 & H2).
    apply (IHa Hwa) in H1 as (w1 & Ha1 & Hp1).
    apply (IHb Hwb) in H2 as (w2 & Ha2 & Hp2).
    exists (w1 ++ w2). split; [eapply advances_trans; eauto|].
    rewrite forallb_app, Hp1, Hp2. reflexivity.
  - destruct Hw as [Hwa Hwb].
    apply in_app_or in Hin as [Hin|Hin]; [apply (IHa Hwa) | apply (IHb Hwb)];
      assumption.
  - eapply star_loop_spans; [apply IHa, Hw | exact Hin].
  - apply in_map_iff in Hin as (st1 & <- & H1).
    apply (IHa Hw) in H1 as (w & [Hs Hr] & Hp).
    exists w. split; [split; assumption | assumption].
  - destruct (seen st); [|inversion Hin].
    destruct Hin as [<-|[]]. exists []. split; [apply advances_refl | reflexivity].
  - destruct (rest st); [|inversion Hin].
    destruct Hin as [<-|[]]. exists []. split; [apply advances_refl | reflexivity].
  - destruct (at_word_boundary st); [|inversion Hin].
    destruct Hin as [<-|[]]. exists []. split; [apply advances_refl | reflexivity].
Qed.

End Spans.

Lemma search_from_found (r : regex) (sn rs : jsstring) (st st' : mstate) :
  search_from r sn rs = Some (st, st') ->
  caps st = [] /\ exists tl, exec r st = st' :: tl.
Proof.
  revert sn. induction rs as [|c rs IH]; intros sn; simpl;
    unfold match_here;
    destruct (exec r (MState sn _ [])) as [|st1 tl] eqn:E; try discriminate.
  - intros H. injection H as <- <-. split; [reflexivity | eauto].
  - apply IH.
  - intros H. injection H as <- <-. split; [reflexivity | eauto].
Qed.

(** What the first group of a pattern [(...)] captured is what the body of
    the group read. *)
Lemma group1_capture (P : N -> bool) (a : regex) (s g : jsstring) :
  within P a ->
  match_group (Group 1 a) 1 s = Some g -> forallb P g = true.
Proof.
  intros Hw. unfold match_group, search.
  destruct (search_from (Group 1 a) [] s) as [[st st']|] eqn:E; [|discriminate].
  apply search_from_found in E as (_ & tl & E).
  cbn [exec] in E.
  destruct (exec a st) as [|st1 l] eqn:E1; [discriminate|].
  cbn [map] in E. injection E as <- _.
  cbn [caps lookup Nat.eqb]. intros H. injection H as <-.
  assert (Hin : In st1 (exec a st)) by (rewrite E1; left; reflexivity).
  apply (exec_spans P a Hw) in Hin as (w & Hadv & Hp).
  rewrite (consumed_advances Hadv). exact Hp.
Qed.

(** An extracted identifier is made of digits and hyphens. *)
Lemma group_id_chars (s g : jsstring) :
  match_group re_group_id 1 s = Some g -> forallb id_char g = true.
Proof.
  unfold re_group_id. apply group1_capture.
  cbn [within Times AtLeast]. unfold id_char.
  repeat split; intros c Hc; try (rewrite Hc; reflexivity).
  unfold chr in Hc. apply N.eqb_eq in Hc. subst c. reflexivity.
Qed.

(* ================================================================== *)
(** ** The candidate sanitizer *)

Section Sanitizer.
Context `{RT : Runtime}.

Lemma bare_reference_is_ref_char (c : N) :
  bare_reference_char c = true -> Backend.ref_char c = true.
Proof.
  unfold bare_reference_char, Backend.ref_char.
  rewrite !orb_true_iff. intros [[H|H]|H]; auto.
  left; right. apply N.eqb_eq in H; subst; reflexivity.
Qed.

(** The final test of the sanitizer fires on every non-empty string made of
    reference characters. *)
Lemma reference_test_fires (s : jsstring) :
  s <> [] -> forallb Backend.ref_char s = true ->
  test Backend.re_reference s = true.
Proof.
  intros Hne Hall. apply test_at_start.
  destruct s as [|c s]; [congruence|].
  simpl in Hall. apply andb_true_iff in Hall as [Hc Hs].
  pose proof (star_class_reaches_end Backend.ref_char s [c] [] Hs) as Hend.
  apply match_here_some with (st' := MState (rev s ++ [c]) [] []).
  unfold Backend.re_reference, Plus.
  cbn [exec seen rest caps flat_map]. rewrite Hc.
  cbn [flat_map]. rewrite !app_nil_r.
  apply in_flat_map. exists (MState (rev s ++ [c]) [] []).
  split; [exact Hend | left; reflexivity].
Qed.

Lemma cleanup_accepts (raw s : jsstring) :
  Backend.cleanupCandidateName raw = Some s ->
  4 <= length s /\ test Backend.re_reference s = false.
Proof.
  unfold Backend.cleanupCandidateName.
  set (s0 := fold_left Backend.cutAt Backend.stopWords _).
  destruct (Nat.ltb (length s0) 4) eqn:Hlen; [discriminate|].
  destruct (test Backend.re_reference s0) eqn:Ht; [discriminate|].
  intros E; injection E as <-.
  apply Nat.ltb_ge in Hlen. split; assumption.
Qed.

Lemma cleanup_truthy (raw s : jsstring) :
  Backend.cleanupCandidateName raw = Some s -> truthy s = true.
Proof.
  intros H. apply cleanup_accepts in H as [H _].
  apply truthy_length. lia.
Qed.

(** C6. Whatever the input, a name the Candidate Sanitizer accepts has at
    least four characters, and it does not consist solely of digits,
    spaces, slashes, dots and hyphens. *)
Theorem cleanupCandidateName_never_short_or_bare (raw s : jsstring) :
  Backend.cleanupCandidateName raw = Some s ->
  4 <= length s /\ forallb bare_reference_char s = false.
Proof.
  intros H. apply cleanup_accepts in H as [Hlen Ht].
  split; [assumption|].
  destruct (forallb bare_reference_char s) eqn:Hall; [|reflexivity].
  assert (Hne : s <> []) by (destruct s; [simpl in Hlen; lia | discriminate]).
  rewrite reference_test_fires in Ht; [discriminate | assumption |].
  rewrite forallb_forall in Hall |- *.
  intros c Hc. apply bare_reference_is_ref_char, Hall, Hc.
Qed.

End Sanitizer.

Lemma cleanupCandidateName_never_short_or_bare_witness :
  Backend.cleanupCandidateName (RT := Sample.runtime)
    (str "Mario:  Rossi Via Roma 12") = Some (str "Mario Rossi")
  /\ 4 <= length (str "Mario Rossi")
  /\ forallb bare_reference_char (str "Mario Rossi") = false.
Proof.
  split; [vm_compute; reflexivity|].
  apply (cleanupCandidateName_never_short_or_bare (RT := Sample.runtime)
           (str "Mario:  Rossi Via Roma 12")).
  vm_compute; reflexivity.
Defined.

(* ================================================================== *)
(** ** The addressee cascade *)

Section Cascade.
Context `{RT : Runtime}.

Lemma accepted_spec (span : option jsstring) :
  Backend.accepted span =
  match span with
  | Some g => Backend.cleanupCandidateName g
  | None => None
  end.
Proof.
  unfold Backend.accepted. destruct span as [g|]; [|reflexivity].
  destruct (Backend.cleanupCandidateName g) as [cand|] eqn:E; [|reflexivity].
  rewrite (cleanup_truthy _ E). reflexivity.
Qed.

Lemma extractFromText_fold (text : jsstring) :
  Backend.extractFromText text = firstAccepted cascade text.
Proof.
  unfold Backend.extractFromText, cascade. cbn [firstAccepted].
  rewrite !accepted_spec.
  destruct (Backend.sameLine text) as [g1|];
    [destruct (Backend.cleanupCandidateName g1); [reflexivity|]|];
    (destruct (Backend.nextLine text) as [g2|];
     [destruct (Backend.cleanupCandidateName g2); [reflexivity|]|]);
    (destruct (Backend.titledName text) as [g3|];
     [destruct (Backend.cleanupCandidateName g3); reflexivity | reflexivity]).
Qed.

Lemma firstAccepted_some (hs : list (jsstring -> option jsstring))
      (text cand : jsstring) :
  firstAccepted hs text = Some cand <->
  exists i h span,
    nth_error hs i = Some h /\ h text = Some span /\
    Backend.cleanupCandidateName span = Some cand /\
    forall j h', j < i -> nth_error hs j = Some h' -> yieldsNothing h' text.
Proof.
  induction hs as [|h hs IH]; simpl.
  - split; [discriminate|].
    intros (i & h & span & Hn & _). destruct i; discriminate.
  - split.
    + intros H.
      destruct (h text) as [span|] eqn:Eh.
      * destruct (Backend.cleanupCandidateName span) as [c|] eqn:Ec.
        -- injection H as <-. exists 0, h, span.
           repeat split; auto. intros j h' Hj; lia.
        -- apply IH in H as (i & h1 & sp & Hn & Hs & Hc & Hprev).
           exists (S i), h1, sp. repeat split; auto.
           intros [|j] h' Hj Hnth; simpl in Hnth.
           ++ injection Hnth as <-. unfold yieldsNothing. rewrite Eh. exact Ec.
           ++ apply (Hprev j); [lia | assumption].
      * apply IH in H as (i & h1 & sp & Hn & Hs & Hc & Hprev).
        exists (S i), h1, sp. repeat split; auto.
        intros [|j] h' Hj Hnth; simpl in Hnth.
        -- injection Hnth as <-. unfold yieldsNothing. rewrite Eh. exact I.
        -- apply (Hprev j); [lia | assumption].
    + intros (i & h1 & sp & Hn & Hs & Hc & Hprev).
      destruct i as [|i]; simpl in Hn.
      * injection Hn as <-. rewrite Hs, Hc. reflexivity.
      * assert (Hh : yieldsNothing h text) by (apply (Hprev 0); [lia | reflexivity]).
        assert (Htail : firstAccepted hs text = Some cand).
        { apply IH. exists i, h1, sp. repeat split; auto.
          intros j h' Hj Hnth. apply (Hprev (S j)); [lia | exact Hnth]. }
        unfold yieldsNothing in Hh.
        destruct (h text) as [span|]; [rewrite Hh|]; exact Htail.
Qed.

Lemma firstAccepted_none (hs : list (jsstring -> option jsstring))
      (text : jsstring) :
  firstAccepted hs text = None <-> forall h, In h hs -> yieldsNothing h text.
Proof.
  induction hs as [|h hs IH]; simpl.
  - split; [intros _ h [] | reflexivity].
  - unfold yieldsNothing at 1. split.
    + intros H h' [<-|Hin].
      * unfold yieldsNothing.
        destruct (h text) as [span|]; [|exact I].
        destruct (Backend.cleanupCandidateName span); [discriminate | reflexivity].
      * apply IH; [|assumption].
        destruct (h text) as [span|]; [|assumption].
        destruct (Backend.cleanupCandidateName span); [discriminate | assumption].
    + intros H.
      assert (Hh := H h (or_introl eq_refl)). unfold yieldsNothing in Hh.
      assert (Ht : firstAccepted hs text = None)
        by (apply IH; intros h' Hin; apply H; right; assumption).
      destruct (h text) as [span|]; [rewrite Hh|]; exact Ht.
Qed.

(** On every text the addressee extraction of the single-backend server
    returns the candidate of the first heuristic of the cascade (same line,
    next line, titled name) whose captured span the Candidate Sanitizer
    accepts: the heuristics before it yielded nothing, and a rejection only
    moves the cascade on; the extraction returns nothing exactly when every
    heuristic yields nothing. *)
Lemma extractFromText_first_accepted (text : jsstring) :
  (forall cand,
      Backend.extractFromText text = Some cand <->
      exists i h span,
        nth_error cascade i = Some h /\ h text = Some span /\
        Backend.cleanupCandidateName span = Some cand /\
        forall j h', j < i -> nth_error cascade j = Some h' ->
                     yieldsNothing h' text)
  /\ (Backend.extractFromText text = None <->
      forall h, In h cascade -> yieldsNothing h text).
Proof.
  rewrite extractFromText_fold. split.
  - intros cand. apply firstAccepted_some.
  - apply firstAccepted_none.
Qed.

End Cascade.

(* ================================================================== *)
(** ** Naming and collisions in the single-backend server *)

Lemma digits_of_uint_inj (d d' : Decimal.uint) :
  digits_of_uint d = digits_of_uint d' -> d = d'.
Proof.
  revert d'; induction d; destruct d'; simpl; intros H;
    try discriminate; try reflexivity;
    injection H as H; f_equal; apply IHd; assumption.
Qed.

Lemma of_nat_inj (n m : nat) : of_nat n = of_nat m -> n = m.
Proof.
  unfold of_nat. intros H.
  apply Unsigned.to_uint_inj, digits_of_uint_inj, H.
Qed.

Lemma candidate_inj (base : jsstring) (i j : nat) :
  candidate base i = candidate base j -> i = j.
Proof.
  unfold candidate.
  destruct (Nat.eqb i 1) eqn:Ei; destruct (Nat.eqb j 1) eqn:Ej; intros H.
  - apply Nat.eqb_eq in Ei, Ej. congruence.
  - apply app_inv_head in H. discriminate.
  - apply app_inv_head in H. discriminate.
  - apply app_inv_head in H. injection H as H.
    apply app_inv_tail in H. apply of_nat_inj, H.
Qed.

Lemma NoDup_map_injective (A B : Type) (f : A -> B) (l : list A) :
  (forall x y, f x = f y -> x = y) -> NoDup l -> NoDup (map f l).
Proof.
  intros Hinj Hl. induction Hl as [|x l Hx Hl IH]; simpl; constructor; auto.
  intros Hin. apply in_map_iff in Hin as (y & Hy & Hyl).
  apply Hinj in Hy. subst. contradiction.
Qed.

Section Naming.
Context `{RT : Runtime}.

Lemma getEntry_In (z : list entry) (name : jsstring) :
  Backend.getEntry z name = true <-> In name (map fst z).
Proof.
  unfold Backend.getEntry. rewrite existsb_exists. split.
  - intros (e & He & Heq). apply eqb_eq in Heq. subst.
    apply in_map. assumption.
  - intros H. apply in_map_iff in H as (e & <- & He).
    exists e. split; [assumption | apply eqb_refl].
Qed.

(** Not all of [n] successive candidates fit in an archive with fewer than
    [n] entries. *)
Lemma candidates_pigeonhole (z : list entry) (base : jsstring) (k n : nat) :
  (forall j, k <= j < k + n -> Backend.getEntry z (candidate base j) = true) ->
  n <= length z.
Proof.
  intros H.
  assert (Hlen : length (map (candidate base) (seq k n)) <= length (map fst z)).
  2: { rewrite !length_map, length_seq in Hlen. exact Hlen. }
  apply NoDup_incl_length.
  - apply NoDup_map_injective; [apply candidate_inj | apply seq_NoDup].
  - intros name Hin. apply in_map_iff in Hin as (j & <- & Hj).
    apply in_seq in Hj. apply getEntry_In, H. lia.
Qed.

Lemma freeName_step (fuel : nat) (z : list entry) (base : jsstring) (k : nat) :
  1 <= k ->
  Backend.freeName (S fuel) z base (candidate base k) (S k) =
  if Backend.getEntry z (candidate base k)
  then Backend.freeName fuel z base (candidate base (S k)) (S (S k))
  else Some (candidate base k).
Proof.
  intros Hk.
  assert (Hc : candidate base (S k)
               = base ++ str "_" ++ of_nat (S k) ++ Backend.dotPdf).
  { unfold candidate.
    replace (Nat.eqb (S k) 1) with false by (symmetry; apply Nat.eqb_neq; lia).
    reflexivity. }
  rewrite Hc. reflexivity.
Qed.

(** What the collision loop returns: the first candidate the archive does
    not hold yet. *)
Lemma freeName_first_free (fuel : nat) (z : list entry) (base name : jsstring)
      (k : nat) :
  1 <= k ->
  Backend.freeName fuel z base (candidate base k) (S k) = Some name ->
  exists m, k <= m /\ name = candidate base m
            /\ Backend.getEntry z name = false
            /\ forall j, k <= j < m -> Backend.getEntry z (candidate base j) = true.
Proof.
  revert k; induction fuel as [|fuel IH]; intros k Hk H.
  - simpl in H.
    destruct (Backend.getEntry z (candidate base k)) eqn:E; [discriminate|].
    injection H as <-. exists k. repeat split; auto. intros j Hj; lia.
  - rewrite freeName_step in H by assumption.
    destruct (Backend.getEntry z (candidate base k)) eqn:E.
    + apply IH in H as (m & Hm & -> & Hfree & Hprev); [|lia].
      exists m. repeat split; auto; [lia|].
      intros j Hj. destruct (Nat.eq_dec j k) as [->|Hne]; [assumption|].
      apply Hprev. lia.
    + injection H as <-. exists k. repeat split; auto. intros j Hj; lia.
Qed.

Lemma freeName_enough_fuel (fuel : nat) (z : list entry) (base : jsstring)
      (k : nat) :
  1 <= k ->
  (exists j, k <= j <= k + fuel /\ Backend.getEntry z (candidate base j) = false) ->
  Backend.freeName fuel z base (candidate base k) (S k) <> None.
Proof.
  revert k; induction fuel as [|fuel IH]; intros k Hk (j & Hj & Hfree).
  - assert (j = k) by lia. subst. simpl. rewrite Hfree. discriminate.
  - rewrite freeName_step by assumption.
    destruct (Backend.getEntry z (candidate base k)) eqn:E; [|discriminate].
    apply IH; [lia|]. exists j. split; [|assumption].
    destruct (Nat.eq_dec j k) as [->|Hne]; [congruence | lia].
Qed.

(** The collision loop of the route always ends: the archive cannot hold
    all of the candidates the fuel allows. *)
Lemma freeName_total (z : list entry) (base : jsstring) :
  Backend.freeName (S (length z)) z base (base ++ Backend.dotPdf) 2 <> None.
Proof.
  change (base ++ Backend.dotPdf) with (candidate base 1).
  apply freeName_enough_fuel; [lia|].
  destruct (existsb (fun j => negb (Backend.getEntry z (candidate base j)))
                    (seq 1 (S (S (length z))))) eqn:E.
  - apply existsb_exists in E as (j & Hj & Hfree).
    apply in_seq in Hj. apply negb_true_iff in Hfree.
    exists j. split; [lia | assumption].
  - exfalso.
    assert (H : S (S (length z)) <= length z).
    { apply candidates_pigeonhole with (base := base) (k := 1).
      intros j Hj.
      destruct (Backend.getEntry z (candidate base j)) eqn:Ej; [reflexivity|].
      assert (Hex : existsb (fun j => negb (Backend.getEntry z (candidate base j)))
                            (seq 1 (S (S (length z)))) = true).
      { apply existsb_exists. exists j. split; [apply in_seq; lia|].
        rewrite Ej. reflexivity. }
      congruence. }
    lia.
Qed.

End Naming.

(* ================================================================== *)
(** ** Grouping in the single-backend server *)

Lemma addPages_app `{RT : Runtime} (doc pages : list Page) :
  addPages doc pages = doc ++ pages.
Proof.
  unfold addPages. revert doc.
  induction pages as [|p pages IH]; intros doc; simpl.
  - rewrite app_nil_r. reflexivity.
  - rewrite IH, <- app_assoc. reflexivity.
Qed.

Lemma lastOf_snoc (A : Type) (l : list A) (x : A) : lastOf (l ++ [x]) = Some x.
Proof. unfold lastOf. rewrite rev_app_distr. reflexivity. Qed.

Lemma lastOf_In (A : Type) (l : list A) (x : A) : lastOf l = Some x -> In x l.
Proof.
  unfold lastOf. intros H. apply in_rev.
  destruct (rev l); simpl in H; [discriminate|].
  injection H as ->. left; reflexivity.
Qed.

Lemma lastOf_none (A : Type) (l : list A) : lastOf l = None <-> l = [].
Proof.
  unfold lastOf. split.
  - intros H. destruct (rev l) eqn:E; [|discriminate].
    rewrite <- (rev_involutive l), E. reflexivity.
  - intros ->. reflexivity.
Qed.

Section Grouping.
Context `{RT : Runtime}.

Lemma lookup_assign_same (id : jsstring) (b : bool) (f : Backend.File)
      (gs : Backend.groups) :
  lookupGroup id (Backend.assign id b f gs) =
  Some (Backend.setSlot b f
          (match lookupGroup id gs with
           | Some sl => sl
           | None => Backend.MkSlots None None
           end)).
Proof.
  induction gs as [|[k sl] gs IH]; simpl.
  - rewrite eqb_refl. reflexivity.
  - destruct (JS.eqb k id) eqn:E; simpl; rewrite E; [reflexivity | exact IH].
Qed.

Lemma lookup_assign_other (id id' : jsstring) (b : bool) (f : Backend.File)
      (gs : Backend.groups) :
  id <> id' ->
  lookupGroup id' (Backend.assign id b f gs) = lookupGroup id' gs.
Proof.
  intros Hne. induction gs as [|[k sl] gs IH]; simpl.
  - apply eqb_neq in Hne. rewrite Hne. reflexivity.
  - destruct (JS.eqb k id) eqn:E; simpl.
    + apply eqb_eq in E. subst k.
      apply eqb_neq in Hne. rewrite Hne. reflexivity.
    + destruct (JS.eqb k id'); [reflexivity | exact IH].
Qed.

Lemma keys_assign (id : jsstring) (b : bool) (f : Backend.File)
      (gs : Backend.groups) :
  map fst (Backend.assign id b f gs) =
  if existsb (fun k => JS.eqb k id) (map fst gs) then map fst gs
  else map fst gs ++ [id].
Proof.
  induction gs as [|[k sl] gs IH]; simpl; [reflexivity|].
  destruct (JS.eqb k id) eqn:E; simpl; [reflexivity|].
  rewrite IH. destruct (existsb _ (map fst gs)); reflexivity.
Qed.

Lemma keys_assign_NoDup (id : jsstring) (b : bool) (f : Backend.File)
      (gs : Backend.groups) :
  NoDup (map fst gs) -> NoDup (map fst (Backend.assign id b f gs)).
Proof.
  intros H. rewrite keys_assign.
  destruct (existsb (fun k => JS.eqb k id) (map fst gs)) eqn:E; [assumption|].
  apply NoDup_app; [assumption | repeat constructor; intros [] |].
  intros k Hk [Heq|[]]. subst k.
  assert (Hex : existsb (fun k' => JS.eqb k' id) (map fst gs) = true)
    by (apply existsb_exists; exists id; split; [assumption | apply eqb_refl]).
  congruence.
Qed.

Lemma groupFiles_snoc (files : list Backend.File) (f : Backend.File) :
  Backend.groupFiles (files ++ [f]) = Backend.addFile (Backend.groupFiles files) f.
Proof. unfold Backend.groupFiles. rewrite fold_left_app. reflexivity. Qed.

Lemma groupFiles_keys_NoDup (files : list Backend.File) :
  NoDup (map fst (Backend.groupFiles files)).
Proof.
  induction files as [|f files IH] using rev_ind; [constructor|].
  rewrite groupFiles_snoc. unfold Backend.addFile.
  destruct (Backend.extractGroupIdFromFilename _); [|assumption].
  apply keys_assign_NoDup, IH.
Qed.

Lemma lookup_In (id : jsstring) (sl : Backend.slots) (gs : Backend.groups) :
  NoDup (map fst gs) ->
  (In (id, sl) gs <-> lookupGroup id gs = Some sl).
Proof.
  induction gs as [|[k s] gs IH]; simpl; intros Hnd.
  - split; [intros [] | discriminate].
  - inversion Hnd as [|? ? Hk Hnd']; subst.
    destruct (JS.eqb k id) eqn:E.
    + apply eqb_eq in E. subst k. split.
      * intros [H|H]; [congruence|].
        exfalso. apply Hk. change id with (fst (id, sl)).
        apply in_map. assumption.
      * intros H. left. congruence.
    + apply eqb_neq in E. rewrite <- (IH Hnd'). split.
      * intros [H|H]; [congruence | assumption].
      * intros H. right. assumption.
Qed.

Lemma no_file_no_role (files : list Backend.File) (id : jsstring)
      (role : Backend.File -> bool) :
  existsb (hasId id) files = false ->
  filter (fun f => hasId id f && role f) files = [].
Proof.
  induction files as [|g files IH]; [reflexivity|].
  simpl. intros Ex. apply orb_false_iff in Ex as [Eg Ex].
  rewrite Eg. simpl. apply IH. assumption.
Qed.

(** The slots of an identifier hold the last main document and the last
    attachment uploaded for it. *)
Lemma groupFiles_lookup (files : list Backend.File) (id : jsstring) :
  lookupGroup id (Backend.groupFiles files) =
  if existsb (hasId id) files
  then Some (Backend.MkSlots (lastOf (mainsOf id files))
                             (lastOf (attachmentsOf id files)))
  else None.
Proof.
  induction files as [|f files IH] using rev_ind; [reflexivity|].
  rewrite groupFiles_snoc. unfold Backend.addFile.
  change (Backend.extractGroupIdFromFilename (Backend.originalname f))
    with (idOf f).
  change (Backend.isAllegato (Backend.originalname f)) with (isAttachment f).
  unfold mainsOf, attachmentsOf in *.
  rewrite existsb_app, !filter_app. cbn [existsb filter].
  destruct (idOf f) as [k|] eqn:Ek.
  - assert (Hh : hasId id f = JS.eqb k id)
      by (unfold hasId; rewrite Ek; reflexivity).
    rewrite Hh. destruct (JS.eqb k id) eqn:E.
    + apply eqb_eq in E. subst k.
      rewrite lookup_assign_same, IH, !orb_true_r. cbn [andb].
      destruct (existsb (hasId id) files) eqn:Ex.
      * destruct (isAttachment f); cbn [negb Backend.setSlot Backend.main
                                        Backend.allegato];
          rewrite ?lastOf_snoc, ?app_nil_r; reflexivity.
      * rewrite !no_file_no_role by assumption.
        destruct (isAttachment f); reflexivity.
    + rewrite lookup_assign_other by (apply eqb_neq; assumption).
      rewrite IH, !orb_false_r. cbn [andb]. rewrite !app_nil_r. reflexivity.
  - assert (Hh : hasId id f = false)
      by (unfold hasId; rewrite Ek; reflexivity).
    rewrite Hh, IH, !orb_false_r. cbn [andb]. rewrite !app_nil_r. reflexivity.
Qed.

End Grouping.

(* ================================================================== *)
(** ** One turn and one run of the single-backend loop *)

Section BackendRun.
Context `{RT : Runtime}.

Lemma processGroup_incomplete (id : jsstring) (sl : Backend.slots)
      (st : Backend.state) :
  completeSlots sl = false -> Backend.processGroup id sl st = Backend.Next st.
Proof.
  unfold completeSlots, Backend.processGroup.
  destruct (Backend.main sl), (Backend.allegato sl);
    [discriminate | reflexivity | reflexivity | reflexivity].
Qed.

(** A complete group either throws, when one of its two documents does not
    load, or adds one entry: the first free candidate of its base name, with
    the pages of the main document followed by those of the attachment. *)
Lemma processGroup_complete (id : jsstring) (m a : Backend.File)
      (st : Backend.state) :
  let base := Backend.finalBaseOf id (Backend.intestatarioOf m a) in
  exists k,
    1 <= k
    /\ Backend.getEntry (Backend.zip st) (candidate base k) = false
    /\ (forall j, 1 <= j < k ->
                  Backend.getEntry (Backend.zip st) (candidate base j) = true)
    /\ Backend.processGroup id (Backend.MkSlots (Some m) (Some a)) st =
       match PDFDocument_load (Backend.buffer m),
             PDFDocument_load (Backend.buffer a) with
       | Some pm, Some pa =>
           Backend.Next
             (Backend.MkState (Backend.zip st ++ [(candidate base k, pm ++ pa)])
                              (S (Backend.processedCount st)))
       | _, _ => Backend.Throw
       end.
Proof.
  intros base. unfold Backend.processGroup. cbn [Backend.main Backend.allegato].
  fold base.
  destruct (Backend.freeName (S (length (Backend.zip st))) (Backend.zip st) base
                             (base ++ Backend.dotPdf) 2) as [name|] eqn:E.
  2: { exfalso. exact (freeName_total _ _ E). }
  change (base ++ Backend.dotPdf) with (candidate base 1) in E.
  apply freeName_first_free in E as (k & Hk & -> & Hfree & Hprev); [|lia].
  exists k. repeat split; auto.
  destruct (PDFDocument_load (Backend.buffer m)) as [pm|]; [|reflexivity].
  destruct (PDFDocument_load (Backend.buffer a)) as [pa|]; [|reflexivity].
  rewrite !addPages_app. reflexivity.
Qed.

Lemma slots_cases (sl : Backend.slots) :
  completeSlots sl = false \/
  exists m a, sl = Backend.MkSlots (Some m) (Some a).
Proof.
  destruct sl as [[m|] [a|]]; cbn; auto.
  right. exists m, a. reflexivity.
Qed.

Lemma processGroup_never_hangs (id : jsstring) (sl : Backend.slots)
      (st : Backend.state) :
  Backend.processGroup id sl st <> Backend.Hang.
Proof.
  destruct (slots_cases sl) as [H|(m & a & ->)].
  - rewrite processGroup_incomplete by assumption. discriminate.
  - destruct (processGroup_complete id m a st) as (k & _ & _ & _ & ->).
    destruct (PDFDocument_load (Backend.buffer m));
      [destruct (PDFDocument_load (Backend.buffer a))|]; discriminate.
Qed.

Lemma ForallPrefix_snoc (A : Type) (P : list A -> A -> Prop)
      (before l : list A) (x : A) :
  ForallPrefix P before (l ++ [x]) <->
  ForallPrefix P before l /\ P (before ++ l) x.
Proof.
  revert before. induction l as [|y l IH]; intros before; simpl.
  - rewrite app_nil_r. tauto.
  - rewrite IH, <- app_assoc. simpl. tauto.
Qed.

Lemma ForallPrefix_split (A : Type) (P : list A -> A -> Prop)
      (before l1 l2 : list A) (x : A) :
  ForallPrefix P before (l1 ++ x :: l2) -> P (before ++ l1) x.
Proof.
  revert before. induction l1 as [|y l1 IH]; intros before; simpl.
  - rewrite app_nil_r. tauto.
  - intros [_ H]. apply IH in H. rewrite <- app_assoc in H. exact H.
Qed.

Lemma wellFormed_init (files : list Backend.File) :
  wellFormed files (Backend.MkState [] 0).
Proof. repeat split; constructor. Qed.

Lemma group_slots (files : list Backend.File) (id : jsstring) (sl : Backend.slots) :
  In (id, sl) (Backend.groupFiles files) ->
  sl = Backend.MkSlots (lastOf (mainsOf id files)) (lastOf (attachmentsOf id files)).
Proof.
  intros H. apply lookup_In in H; [|apply groupFiles_keys_NoDup].
  rewrite groupFiles_lookup in H.
  destruct (existsb (hasId id) files); congruence.
Qed.

Lemma processGroup_wellFormed (files : list Backend.File) (id : jsstring)
      (sl : Backend.slots) (st st' : Backend.state) :
  In (id, sl) (Backend.groupFiles files) ->
  wellFormed files st ->
  Backend.processGroup id sl st = Backend.Next st' ->
  wellFormed files st'.
Proof.
  intros Hin Hwf H.
  destruct (slots_cases sl) as [Hc|(m & a & ->)].
  - rewrite processGroup_incomplete in H by assumption.
    injection H as <-. assumption.
  - destruct (processGroup_complete id m a st) as (k & Hk & Hfree & Hprev & E).
    rewrite E in H. clear E.
    destruct (PDFDocument_load (Backend.buffer m)) as [pm|] eqn:Em;
      [|discriminate].
    destruct (PDFDocument_load (Backend.buffer a)) as [pa|] eqn:Ea;
      [|discriminate].
    injection H as <-.
    destruct Hwf as (Hnd & Hcount & Hall).
    apply group_slots in Hin. injection Hin as Hm Ha.
    repeat split; cbn [Backend.zip Backend.processedCount].
    + rewrite map_app. apply NoDup_app; [assumption | repeat constructor; intros [] |].
      intros name Hname [<-|[]]. cbn [fst] in Hname.
      apply getEntry_In in Hname. congruence.
    + rewrite length_app, Hcount. simpl. lia.
    + apply ForallPrefix_snoc. split; [assumption|].
      exists id, m, a, pm, pa, k. cbn [fst snd app]. auto 10.
Qed.

Lemma processGroups_wellFormed (files : list Backend.File) (gs : Backend.groups)
      (st : Backend.state) :
  incl gs (Backend.groupFiles files) ->
  wellFormed files st ->
  wellFormed files (stateOf (Backend.processGroups gs st))
  /\ forall st', Backend.processGroups gs st <> Backend.Hung st'.
Proof.
  revert st. induction gs as [|[id sl] gs IH]; intros st Hincl Hwf; simpl.
  - split; [assumption | discriminate].
  - destruct (Backend.processGroup id sl st) as [st1| |] eqn:E.
    + apply IH.
      * intros g Hg. apply Hincl. right. assumption.
      * eapply processGroup_wellFormed; eauto. apply Hincl. left. reflexivity.
    + split; [assumption | discriminate].
    + exfalso. exact (processGroup_never_hangs _ _ _ E).
Qed.

Lemma runRequest_wellFormed (files : list Backend.File) :
  wellFormed files (stateOf (Backend.runRequest files))
  /\ forall st', Backend.runRequest files <> Backend.Hung st'.
Proof.
  apply processGroups_wellFormed; [apply incl_refl | apply wellFormed_init].
Qed.

Lemma route_SendZip (files : list Backend.File) (entries : list entry) :
  Backend.route files = SendZip entries ->
  exists st, Backend.runRequest files = Backend.Finished st
             /\ Backend.toBuffer (Backend.zip st) = entries
             /\ Backend.processedCount st <> 0.
Proof.
  unfold Backend.route.
  destruct (Nat.eqb (length files) 0); [discriminate|].
  destruct (Backend.runRequest files) as [st|st|st]; simpl; try discriminate.
  destruct (Nat.eqb (Backend.processedCount st) 0) eqn:E; [discriminate|].
  intros H. injection H as <-. exists st.
  apply Nat.eqb_neq in E. auto.
Qed.

End BackendRun.

Lemma ForallPrefix_Forall (A : Type) (P : list A -> A -> Prop) (Q : A -> Prop)
      (before l : list A) :
  (forall b x, P b x -> Q x) -> ForallPrefix P before l -> Forall Q l.
Proof.
  intros HPQ. revert before.
  induction l as [|x l IH]; intros before; simpl; [constructor|].
  intros [Hx Hl]. constructor; [eapply HPQ; eauto | eapply IH; eauto].
Qed.

Section BackendClaims.
Context `{RT : Runtime}.

Lemma toBuffer_perm (z : list entry) : Permutation (Backend.toBuffer z) z.
Proof. apply sort_perm. Qed.

Lemma toBuffer_In (z : list entry) (e : entry) :
  In e (Backend.toBuffer z) <-> In e z.
Proof. apply sort_In. Qed.

Lemma toBuffer_length (z : list entry) :
  length (Backend.toBuffer z) = length z.
Proof. apply sort_length. Qed.

Lemma toBuffer_NoDup (z : list entry) :
  NoDup (map fst z) -> NoDup (map fst (Backend.toBuffer z)).
Proof.
  apply Permutation_NoDup, Permutation_map. symmetry. apply toBuffer_perm.
Qed.

Lemma toBuffer_Forall (Q : entry -> Prop) (z : list entry) :
  Forall Q z -> Forall Q (Backend.toBuffer z).
Proof.
  rewrite !Forall_forall. intros H e He. apply H, toBuffer_In, He.
Qed.

(** What is sent is the archive the request produced, written out by
    [toBuffer]; the produced archive is well formed. *)
Lemma route_wellFormed (files : list Backend.File) (entries : list entry) :
  Backend.route files = SendZip entries ->
  exists st,
    Backend.runRequest files = Backend.Finished st
    /\ entries = Backend.toBuffer (Backend.zip st)
    /\ Backend.processedCount st = length (Backend.zip st)
    /\ NoDup (map fst (Backend.zip st))
    /\ ForallPrefix (builtFrom files) [] (Backend.zip st).
Proof.
  intros H. apply route_SendZip in H as (st & Hrun & <- & _).
  destruct (runRequest_wellFormed files) as [(Hnd & Hc & Hall) _].
  rewrite Hrun in Hnd, Hc, Hall. simpl in Hnd, Hc, Hall.
  exists st. auto.
Qed.

Lemma route_entries (Q : entry -> Prop) (files : list Backend.File)
      (entries : list entry) :
  (forall before e, builtFrom files before e -> Q e) ->
  Backend.route files = SendZip entries -> Forall Q entries.
Proof.
  intros HQ H. apply route_wellFormed in H as (st & _ & -> & _ & _ & Hall).
  apply toBuffer_Forall. eapply ForallPrefix_Forall; eauto.
Qed.

Lemma route_responds (files : list Backend.File) :
  Backend.route files <> NoResponse.
Proof.
  unfold Backend.route.
  destruct (Nat.eqb (length files) 0); [discriminate|].
  destruct (runRequest_wellFormed files) as [_ Hhang].
  destruct (Backend.runRequest files) as [st|st|st]; simpl.
  - destruct (Nat.eqb (Backend.processedCount st) 0); discriminate.
  - discriminate.
  - exfalso. exact (Hhang st eq_refl).
Qed.

Lemma role_of_last (files : list Backend.File) (id : jsstring)
      (role : Backend.File -> bool) (f : Backend.File) :
  lastOf (filter (fun f => hasId id f && role f) files) = Some f ->
  In f files /\ hasId id f = true /\ role f = true.
Proof.
  intros H. apply lastOf_In, filter_In in H as [Hin H].
  apply andb_true_iff in H as [H1 H2]. auto.
Qed.

End BackendClaims.

(* ================================================================== *)
(** ** Errors in the single-backend server *)

Section BackendErrors.
Context `{RT : Runtime}.

Lemma processGroup_throws (id : jsstring) (sl : Backend.slots)
      (st : Backend.state) :
  loads sl = false -> Backend.processGroup id sl st = Backend.Throw.
Proof.
  unfold loads. destruct sl as [[m|] [a|]]; try discriminate.
  cbn [Backend.main Backend.allegato]. intros H.
  destruct (processGroup_complete id m a st) as (k & _ & _ & _ & ->).
  destruct (PDFDocument_load (Backend.buffer m));
    [destruct (PDFDocument_load (Backend.buffer a))|];
    [discriminate | reflexivity | reflexivity].
Qed.

Lemma processGroup_loads (id : jsstring) (sl : Backend.slots)
      (st : Backend.state) :
  loads sl = true ->
  exists st',
    Backend.processGroup id sl st = Backend.Next st'
    /\ Backend.processedCount st' =
       Backend.processedCount st + (if completeSlots sl then 1 else 0).
Proof.
  intros H. destruct (slots_cases sl) as [Hc|(m & a & ->)].
  - rewrite processGroup_incomplete, Hc by assumption.
    exists st. split; [reflexivity | lia].
  - destruct (processGroup_complete id m a st) as (k & _ & _ & _ & ->).
    unfold loads in H. cbn [Backend.main Backend.allegato] in H.
    destruct (PDFDocument_load (Backend.buffer m));
      [destruct (PDFDocument_load (Backend.buffer a))|]; try discriminate.
    eexists. split; [reflexivity|]. simpl. lia.
Qed.

(** A run throws as soon as one of its groups does not load. *)
Lemma processGroups_throws (gs : Backend.groups) (st : Backend.state) :
  existsb (fun g => negb (loads (snd g))) gs = true ->
  exists st', Backend.processGroups gs st = Backend.Thrown st'.
Proof.
  revert st. induction gs as [|[id sl] gs IH]; intros st; simpl; [discriminate|].
  destruct (loads sl) eqn:El; simpl.
  - intros H. destruct (processGroup_loads id sl st El) as (st1 & -> & _).
    apply IH. assumption.
  - intros _. rewrite processGroup_throws by assumption.
    exists st. reflexivity.
Qed.


Lemma lastOf_filter_some (A : Type) (p : A -> bool) (l : list A) :
  existsb p l = true <-> lastOf (filter p l) <> None.
Proof.
  rewrite lastOf_none. split.
  - intros H E. apply existsb_exists in H as (x & Hx & Hp).
    assert (Hin : In x (filter p l)) by (apply filter_In; auto).
    rewrite E in Hin. inversion Hin.
  - intros H. destruct (filter p l) as [|x l'] eqn:E; [congruence|].
    assert (Hin : In x (filter p l)) by (rewrite E; left; reflexivity).
    apply filter_In in Hin as [Hin Hp].
    apply existsb_exists. exists x. auto.
Qed.

(** The slots of a group are both filled exactly when the batch holds a
    main document and an attachment for the identifier. *)
Lemma group_complete (files : list Backend.File) (id : jsstring)
      (sl : Backend.slots) :
  In (id, sl) (Backend.groupFiles files) ->
  completeSlots sl = isComplete files id.
Proof.
  intros H. apply group_slots in H. subst sl.
  unfold completeSlots, isComplete. cbn [Backend.main Backend.allegato].
  fold (mainsOf id files). fold (attachmentsOf id files).
  destruct (lastOf (mainsOf id files)) as [m|] eqn:Em;
    destruct (lastOf (attachmentsOf id files)) as [a|] eqn:Ea.
  - symmetry. apply andb_true_iff. split; apply lastOf_filter_some.
    + unfold mainsOf in Em. rewrite Em. discriminate.
    + unfold attachmentsOf in Ea. rewrite Ea. discriminate.
  - symmetry. apply andb_false_iff. right.
    apply not_true_iff_false. intros H. apply lastOf_filter_some in H.
    apply H. exact Ea.
  - symmetry. apply andb_false_iff. left.
    apply not_true_iff_false. intros H. apply lastOf_filter_some in H.
    apply H. exact Em.
  - symmetry. apply andb_false_iff. left.
    apply not_true_iff_false. intros H. apply lastOf_filter_some in H.
    apply H. exact Em.
Qed.

Lemma complete_has_group (files : list Backend.File) (id : jsstring) :
  isComplete files id = true ->
  In (id, Backend.MkSlots (lastOf (mainsOf id files))
                          (lastOf (attachmentsOf id files)))
     (Backend.groupFiles files).
Proof.
  intros H. apply lookup_In; [apply groupFiles_keys_NoDup|].
  rewrite groupFiles_lookup.
  replace (existsb (hasId id) files) with true; [reflexivity|].
  symmetry. unfold isComplete in H. apply andb_true_iff in H as [H _].
  apply existsb_exists in H as (f & Hf & Hp).
  apply andb_true_iff in Hp as [Hp _].
  apply existsb_exists. exists f. auto.
Qed.

Lemma hasId_idOf (id : jsstring) (f : Backend.File) :
  hasId id f = true -> idOf f = Some id.
Proof.
  unfold hasId. destruct (idOf f) as [k|]; [|discriminate].
  intros H. apply eqb_eq in H. congruence.
Qed.

End BackendErrors.

Section BackendErrorClaims.
Context `{RT : Runtime}.

Lemma unreadable_throws (files : list Backend.File) (id : jsstring) :
  unreadable files id ->
  exists st, Backend.runRequest files = Backend.Thrown st.
Proof.
  intros (m & a & Hm & Ha & Hload).
  apply processGroups_throws, existsb_exists.
  exists (id, Backend.MkSlots (Some m) (Some a)). split.
  - rewrite <- Hm, <- Ha. apply complete_has_group.
    unfold isComplete. apply andb_true_iff.
    split; apply lastOf_filter_some.
    + unfold mainsOf in Hm. rewrite Hm. discriminate.
    + unfold attachmentsOf in Ha. rewrite Ha. discriminate.
  - unfold loads. cbn [snd Backend.main Backend.allegato].
    destruct Hload as [-> | ->]; [reflexivity|].
    destruct (PDFDocument_load (Backend.buffer m)); reflexivity.
Qed.

Lemma unreadable_fails_request (files : list Backend.File) (id : jsstring) :
  unreadable files id ->
  Backend.route files = Send 500 "Errore interno durante l'unione dei file.".
Proof.
  intros H. destruct (unreadable_throws H) as (st & Hrun).
  destruct H as (m & a & Hm & _).
  apply lastOf_In, filter_In in Hm as [Hin _].
  unfold Backend.route. destruct files; [inversion Hin|].
  simpl. rewrite Hrun. reflexivity.
Qed.




(** *** Documents that take no part in any merge *)




Lemma processGroups_skip (keep : jsstring -> bool) (gs : Backend.groups)
      (st : Backend.state) :
  (forall id sl, In (id, sl) gs -> keep id = false -> completeSlots sl = false) ->
  Backend.processGroups (filter (fun g => keep (fst g)) gs) st
  = Backend.processGroups gs st.
Proof.
  revert st. induction gs as [|[id sl] gs IH]; intros st H; [reflexivity|].
  cbn [filter fst].
  assert (Hgs : forall id sl, In (id, sl) gs -> keep id = false ->
                              completeSlots sl = false)
    by (intros id' sl' Hin; apply H; right; assumption).
  destruct (keep id) eqn:Hk.
  - simpl. destruct (Backend.processGroup id sl st); try reflexivity.
    apply IH. assumption.
  - simpl. rewrite processGroup_incomplete
      by (apply (H id sl); [left; reflexivity | assumption]).
    apply IH. assumption.
Qed.



End BackendErrorClaims.

(* ================================================================== *)
(** ** Grouping and merging in the serverless handler *)

Section ServerlessGrouping.
Context `{RT : Runtime}.

Lemma lookup_push_same (id : jsstring) (f : Serverless.UploadedFile)
      (gs : Serverless.groups) :
  lookupMembers id (Serverless.push id f gs) =
  Some (match lookupMembers id gs with Some fs => fs | None => [] end ++ [f]).
Proof.
  induction gs as [|[k fs] gs IH]; simpl.
  - rewrite eqb_refl. reflexivity.
  - destruct (JS.eqb k id) eqn:E; simpl; rewrite E; [reflexivity | exact IH].
Qed.

Lemma lookup_push_other (id id' : jsstring) (f : Serverless.UploadedFile)
      (gs : Serverless.groups) :
  id <> id' ->
  lookupMembers id' (Serverless.push id f gs) = lookupMembers id' gs.
Proof.
  intros Hne. induction gs as [|[k fs] gs IH]; simpl.
  - apply eqb_neq in Hne. rewrite Hne. reflexivity.
  - destruct (JS.eqb k id) eqn:E; simpl.
    + apply eqb_eq in E. subst k.
      apply eqb_neq in Hne. rewrite Hne. reflexivity.
    + destruct (JS.eqb k id'); [reflexivity | exact IH].
Qed.

Lemma keys_push (id : jsstring) (f : Serverless.UploadedFile)
      (gs : Serverless.groups) :
  map fst (Serverless.push id f gs) =
  if existsb (fun k => JS.eqb k id) (map fst gs) then map fst gs
  else map fst gs ++ [id].
Proof.
  induction gs as [|[k fs] gs IH]; simpl; [reflexivity|].
  destruct (JS.eqb k id) eqn:E; simpl; [reflexivity|].
  rewrite IH. destruct (existsb _ (map fst gs)); reflexivity.
Qed.

Lemma s_groupFiles_snoc (files : list Serverless.UploadedFile)
      (f : Serverless.UploadedFile) :
  Serverless.groupFiles (files ++ [f])
  = Serverless.addFile (Serverless.groupFiles files) f.
Proof. unfold Serverless.groupFiles. rewrite fold_left_app. reflexivity. Qed.

(** The keys of the groups are pairwise distinct identifiers. *)
Lemma s_groupFiles_keys (files : list Serverless.UploadedFile) :
  NoDup (map fst (Serverless.groupFiles files))
  /\ Forall (fun k => forallb id_char k = true)
            (map fst (Serverless.groupFiles files)).
Proof.
  induction files as [|f files [IHn IHc]] using rev_ind;
    [split; constructor|].
  rewrite s_groupFiles_snoc. unfold Serverless.addFile.
  destruct (match_group re_group_id 1 (Serverless.filename f)) as [id|] eqn:E;
    [|split; assumption].
  rewrite keys_push.
  destruct (existsb (fun k => JS.eqb k id)
                    (map fst (Serverless.groupFiles files))) eqn:Ex;
    [split; assumption|].
  split.
  - apply NoDup_app; [assumption | repeat constructor; intros [] |].
    intros k Hk [Heq|[]]. subst k.
    assert (Hex : existsb (fun k' => JS.eqb k' id)
                          (map fst (Serverless.groupFiles files)) = true)
      by (apply existsb_exists; exists id; split; [assumption | apply eqb_refl]).
    congruence.
  - apply Forall_app. split; [assumption|].
    constructor; [|constructor].
    exact (group_id_chars _ E).
Qed.

Lemma lookupMembers_In (id : jsstring) (fs : list Serverless.UploadedFile)
      (gs : Serverless.groups) :
  NoDup (map fst gs) ->
  (In (id, fs) gs <-> lookupMembers id gs = Some fs).
Proof.
  induction gs as [|[k s] gs IH]; simpl; intros Hnd.
  - split; [intros [] | discriminate].
  - inversion Hnd as [|? ? Hk Hnd']; subst.
    destruct (JS.eqb k id) eqn:E.
    + apply eqb_eq in E. subst k. split.
      * intros [H|H]; [congruence|].
        exfalso. apply Hk. change id with (fst (id, fs)).
        apply in_map. assumption.
      * intros H. left. congruence.
    + apply eqb_neq in E. rewrite <- (IH Hnd'). split.
      * intros [H|H]; [congruence | assumption].
      * intros H. right. assumption.
Qed.

(** A group holds the files uploaded for its identifier, in upload order. *)
Lemma s_groupFiles_lookup (files : list Serverless.UploadedFile) (id : jsstring) :
  lookupMembers id (Serverless.groupFiles files) =
  match membersOf id files with
  | [] => None
  | fs => Some fs
  end.
Proof.
  induction files as [|f files IH] using rev_ind; [reflexivity|].
  rewrite s_groupFiles_snoc. unfold Serverless.addFile, membersOf in *.
  change (match_group re_group_id 1 (Serverless.filename f)) with (keyOf f).
  rewrite filter_app. cbn [filter].
  destruct (keyOf f) as [k|] eqn:Ek.
  - assert (Hh : hasKey id f = JS.eqb k id)
      by (unfold hasKey; rewrite Ek; reflexivity).
    rewrite Hh. destruct (JS.eqb k id) eqn:E.
    + apply eqb_eq in E. subst k. rewrite lookup_push_same, IH.
      destruct (filter (hasKey id) files); reflexivity.
    + rewrite lookup_push_other by (apply eqb_neq; assumption).
      rewrite IH, app_nil_r. reflexivity.
  - assert (Hh : hasKey id f = false)
      by (unfold hasKey; rewrite Ek; reflexivity).
    rewrite Hh, IH, app_nil_r. reflexivity.
Qed.

Lemma s_group_members (files : list Serverless.UploadedFile) (id : jsstring)
      (fs : list Serverless.UploadedFile) :
  In (id, fs) (Serverless.groupFiles files) -> fs = membersOf id files.
Proof.
  intros H. apply lookupMembers_In in H; [|apply s_groupFiles_keys].
  rewrite s_groupFiles_lookup in H.
  destruct (membersOf id files); congruence.
Qed.

Lemma s_pair_has_group (files : list Serverless.UploadedFile) (id : jsstring) :
  isPair files id = true ->
  In (id, membersOf id files) (Serverless.groupFiles files).
Proof.
  intros H. apply lookupMembers_In; [apply s_groupFiles_keys|].
  rewrite s_groupFiles_lookup. unfold isPair in H.
  destruct (membersOf id files); [discriminate | reflexivity].
Qed.

(** The loop that fills the merged document appends the pages of the
    members in order, and throws if one of them does not load. *)
Lemma mergeFiles_spec (fs : list Serverless.UploadedFile) (doc : list Page) :
  Serverless.mergeFiles fs doc =
  if forallb readable fs then Some (doc ++ concat (map pagesOf fs)) else None.
Proof.
  revert doc. induction fs as [|f fs IH]; intros doc; simpl.
  - rewrite app_nil_r. reflexivity.
  - unfold readable at 1, pagesOf at 1.
    destruct (PDFDocument_load (Serverless.buffer f)) as [pdf|]; [|reflexivity].
    rewrite IH, addPages_app, <- app_assoc. reflexivity.
Qed.

Lemma s_processGroup_small (id : jsstring) (fs : list Serverless.UploadedFile)
      (st : Serverless.state) :
  length fs < 2 -> Serverless.processGroup id fs st = Some st.
Proof.
  intros H. unfold Serverless.processGroup.
  apply Nat.ltb_lt in H. rewrite H. reflexivity.
Qed.

(** A group of two files or more throws if it does not load, and otherwise
    files the concatenation of its members' pages, in resolved order, under
    its name. *)
Lemma s_processGroup_pair (id : jsstring) (fs : list Serverless.UploadedFile)
      (st : Serverless.state) :
  2 <= length fs ->
  Serverless.processGroup id fs st =
  if groupLoads fs
  then Some (Serverless.MkState
               (Serverless.zipFile (outputName id fs)
                                   (concat (map pagesOf (ordered fs)))
                                   (Serverless.zip st))
               (S (Serverless.merged st)))
  else None.
Proof.
  intros H. unfold Serverless.processGroup, groupLoads, outputName, textOf.
  assert (Hlt : Nat.ltb (length fs) 2 = false) by (apply Nat.ltb_ge; lia).
  rewrite Hlt. cbn [orb]. fold (ordered fs).
  destruct (ordered fs) as [|first l] eqn:Eo.
  - exfalso. assert (Hl : length (ordered fs) = length fs) by apply sort_length.
    rewrite Eo in Hl. simpl in Hl. lia.
  - unfold parses.
    destruct (pdfParse (Serverless.buffer first)) as [text|]; [|reflexivity].
    rewrite mergeFiles_spec. cbn [andb].
    destruct (forallb readable (first :: l)); reflexivity.
Qed.

End ServerlessGrouping.

(* ================================================================== *)
(** ** One run of the serverless loop *)

Lemma key_prefix_inj (g1 g2 r1 r2 : jsstring) :
  forallb id_char g1 = true -> forallb id_char g2 = true ->
  g1 ++ 32%N :: r1 = g2 ++ 32%N :: r2 -> g1 = g2.
Proof.
  revert g2. induction g1 as [|c g1 IH]; intros [|d g2] H1 H2 E; simpl in *.
  - reflexivity.
  - injection E as <- _. apply andb_true_iff in H2 as [H2 _]. discriminate.
  - injection E as -> _. apply andb_true_iff in H1 as [H1 _]. discriminate.
  - injection E as <- E.
    apply andb_true_iff in H1 as [_ H1]. apply andb_true_iff in H2 as [_ H2].
    f_equal. apply IH; assumption.
Qed.

Section ServerlessRun.
Context `{RT : Runtime}.

Lemma fileNameOf_key_inj (g1 g2 f1 f2 i1 i2 : jsstring) :
  forallb id_char g1 = true -> forallb id_char g2 = true ->
  Serverless.fileNameOf g1 f1 i1 = Serverless.fileNameOf g2 f2 i2 -> g1 = g2.
Proof.
  unfold Serverless.fileNameOf, Serverless.sep. intros H1 H2 E.
  exact (key_prefix_inj g1 g2 _ _ H1 H2 E).
Qed.

Lemma zipFile_fresh (name : jsstring) (doc : list Page) (z : list entry) :
  ~ In name (map fst z) -> Serverless.zipFile name doc z = z ++ [(name, doc)].
Proof.
  induction z as [|[k d] z IH]; simpl; intros H; [reflexivity|].
  destruct (JS.eqb k name) eqn:E.
  - apply eqb_eq in E. exfalso. apply H. left. assumption.
  - rewrite IH; [reflexivity|]. intros Hin. apply H. right. assumption.
Qed.

Lemma mergedFrom_more (files : list Serverless.UploadedFile)
      (done done' : list jsstring) (e : entry) :
  incl done done' -> mergedFrom files done e -> mergedFrom files done' e.
Proof.
  intros Hincl (id & Hin & H). exists id. split; [apply Hincl, Hin | exact H].
Qed.

Lemma s_processGroup_tidy (files : list Serverless.UploadedFile)
      (done : list jsstring) (id : jsstring)
      (fs : list Serverless.UploadedFile) (st st' : Serverless.state) :
  In (id, fs) (Serverless.groupFiles files) ->
  ~ In id done ->
  Forall (fun k => forallb id_char k = true) (id :: done) ->
  tidy files done st ->
  Serverless.processGroup id fs st = Some st' ->
  tidy files (done ++ [id]) st'.
Proof.
  intros Hin Hnew Hclean (Hm & Hnd & Hall) H.
  assert (Hmore : Forall (mergedFrom files (done ++ [id])) (Serverless.zip st)).
  { eapply Forall_impl; [|exact Hall].
    intros e. apply mergedFrom_more. apply incl_appl, incl_refl. }
  destruct (Nat.lt_ge_cases (length fs) 2) as [Hlt|Hge].
  - rewrite s_processGroup_small in H by assumption. injection H as <-.
    repeat split; assumption.
  - rewrite s_processGroup_pair in H by assumption.
    destruct (groupLoads fs) eqn:El; [|discriminate]. injection H as <-.
    pose proof (s_group_members files id fs Hin) as Hfs.
    assert (Hfresh : ~ In (outputName id fs) (map fst (Serverless.zip st))).
    { intros Hname. apply in_map_iff in Hname as (e & He & Hein).
      rewrite Forall_forall in Hall.
      destruct (Hall e Hein) as (id' & Hid' & _ & _ & Hn & _).
      rewrite Hn in He. unfold outputName in He.
      apply fileNameOf_key_inj in He.
      - subst id'. contradiction.
      - inversion Hclean as [|? ? _ Hd]; subst.
        rewrite Forall_forall in Hd. apply Hd. assumption.
      - inversion Hclean; assumption. }
    rewrite zipFile_fresh by assumption.
    repeat split; cbn [Serverless.zip Serverless.merged].
    + rewrite length_app, Hm. simpl. lia.
    + rewrite map_app. apply NoDup_app; [assumption | repeat constructor; intros [] |].
      intros name Hname [Heq|[]]. cbn [fst] in Heq. subst name. contradiction.
    + apply Forall_app. split; [assumption|].
      constructor; [|constructor].
      exists id. cbn [fst snd]. rewrite <- Hfs.
      split; [apply in_or_app; right; left; reflexivity|].
      split; [unfold isPair; rewrite <- Hfs; apply Nat.leb_le; assumption|].
      split; [|split; reflexivity].
      unfold groupLoads in El.
      assert (Hlt : Nat.ltb (length fs) 2 = false) by (apply Nat.ltb_ge; lia).
      rewrite Hlt in El. cbn [orb] in El.
      apply andb_true_iff in El as [_ El].
      rewrite forallb_forall in El |- *.
      intros f Hf. apply El, sort_In, Hf.
Qed.

Lemma s_processGroups_tidy (files : list Serverless.UploadedFile)
      (gs : Serverless.groups) (done : list jsstring) (st : Serverless.state) :
  incl gs (Serverless.groupFiles files) ->
  NoDup (done ++ map fst gs) ->
  Forall (fun k => forallb id_char k = true) (done ++ map fst gs) ->
  tidy files done st ->
  exists done', tidy files done' (endOf (Serverless.processGroups gs st)).
Proof.
  revert done st. induction gs as [|[id fs] gs IH];
    intros done st Hincl Hnd Hclean Htidy; simpl.
  - exists done. assumption.
  - destruct (Serverless.processGroup id fs st) as [st1|] eqn:E.
    + apply (IH (done ++ [id])).
      * intros g Hg. apply Hincl. right. assumption.
      * rewrite <- app_assoc. exact Hnd.
      * rewrite <- app_assoc. exact Hclean.
      * eapply s_processGroup_tidy; eauto.
        -- apply Hincl. left. reflexivity.
        -- intros Hin. simpl in Hnd. apply NoDup_remove_2 in Hnd.
           apply Hnd. apply in_or_app. left. assumption.
        -- simpl in Hclean. rewrite Forall_app in Hclean.
           destruct Hclean as [Hd Hk]. inversion Hk; subst.
           constructor; assumption.
    + exists done. assumption.
Qed.

Lemma s_runRequest_tidy (files : list Serverless.UploadedFile) :
  exists done, tidy files done (endOf (Serverless.runRequest files)).
Proof.
  apply s_processGroups_tidy with (done := []).
  - apply incl_refl.
  - apply s_groupFiles_keys.
  - apply s_groupFiles_keys.
  - repeat split; constructor.
Qed.

Lemma handler_SendZip (files : list Serverless.UploadedFile)
      (entries : list entry) :
  Serverless.handler files = SendZip entries ->
  exists st, Serverless.runRequest files = Serverless.Finished st
             /\ Serverless.zip st = entries
             /\ Serverless.merged st <> 0.
Proof.
  unfold Serverless.handler.
  destruct (Nat.ltb (length files) 2); [discriminate|].
  destruct (Serverless.runRequest files) as [st|st]; simpl; try discriminate.
  destruct (Nat.eqb (Serverless.merged st) 0) eqn:E; [discriminate|].
  intros H. injection H as <-. exists st.
  apply Nat.eqb_neq in E. auto.
Qed.

Lemma handler_tidy (files : list Serverless.UploadedFile)
      (entries : list entry) :
  Serverless.handler files = SendZip entries ->
  exists done st,
    Serverless.runRequest files = Serverless.Finished st
    /\ Serverless.zip st = entries /\ tidy files done st.
Proof.
  intros H. apply handler_SendZip in H as (st & Hrun & Hz & _).
  destruct (s_runRequest_tidy files) as (done & Ht).
  rewrite Hrun in Ht. exists done, st. auto.
Qed.

End ServerlessRun.

(* ================================================================== *)
(** ** Errors in the serverless handler *)

Section ServerlessErrors.
Context `{RT : Runtime}.

Lemma groupLoads_small (fs : list Serverless.UploadedFile) :
  length fs < 2 -> groupLoads fs = true.
Proof.
  intros H. unfold groupLoads. apply Nat.ltb_lt in H. rewrite H. reflexivity.
Qed.

Lemma s_processGroup_throws (id : jsstring) (fs : list Serverless.UploadedFile)
      (st : Serverless.state) :
  groupLoads fs = false -> Serverless.processGroup id fs st = None.
Proof.
  intros H. destruct (Nat.lt_ge_cases (length fs) 2) as [Hlt|Hge].
  - rewrite groupLoads_small in H by assumption. discriminate.
  - rewrite s_processGroup_pair, H by assumption. reflexivity.
Qed.

Lemma s_processGroup_loads (id : jsstring) (fs : list Serverless.UploadedFile)
      (st : Serverless.state) :
  groupLoads fs = true ->
  exists st',
    Serverless.processGroup id fs st = Some st'
    /\ Serverless.merged st' =
       Serverless.merged st + (if Nat.leb 2 (length fs) then 1 else 0).
Proof.
  intros H. destruct (Nat.lt_ge_cases (length fs) 2) as [Hlt|Hge].
  - rewrite s_processGroup_small by assumption. exists st.
    replace (Nat.leb 2 (length fs)) with false
      by (symmetry; apply Nat.leb_gt; assumption).
    split; [reflexivity | lia].
  - rewrite s_processGroup_pair, H by assumption.
    replace (Nat.leb 2 (length fs)) with true
      by (symmetry; apply Nat.leb_le; assumption).
    eexists. split; [reflexivity|]. simpl. lia.
Qed.

Lemma s_processGroups_throws (gs : Serverless.groups) (st : Serverless.state) :
  existsb (fun g => negb (groupLoads (snd g))) gs = true ->
  exists st', Serverless.processGroups gs st = Serverless.Thrown st'.
Proof.
  revert st. induction gs as [|[id fs] gs IH]; intros st; simpl; [discriminate|].
  destruct (groupLoads fs) eqn:El; simpl.
  - intros H. destruct (s_processGroup_loads id fs st El) as (st1 & -> & _).
    apply IH. assumption.
  - intros _. rewrite s_processGroup_throws by assumption.
    exists st. reflexivity.
Qed.


Lemma hasKey_keyOf (id : jsstring) (f : Serverless.UploadedFile) :
  hasKey id f = true -> keyOf f = Some id.
Proof.
  unfold hasKey. destruct (keyOf f) as [k|]; [|discriminate].
  intros H. apply eqb_eq in H. congruence.
Qed.

(** A complete group with a member that does not load makes the run
    throw. *)
Lemma s_unreadable_throws (files : list Serverless.UploadedFile) (id : jsstring)
      (f : Serverless.UploadedFile) :
  isPair files id = true -> In f (membersOf id files) ->
  PDFDocument_load (Serverless.buffer f) = None ->
  exists st, Serverless.runRequest files = Serverless.Thrown st.
Proof.
  intros Hp Hf Hload.
  apply s_processGroups_throws, existsb_exists.
  exists (id, membersOf id files). split; [apply s_pair_has_group, Hp|].
  cbn [snd]. apply negb_true_iff. unfold groupLoads.
  unfold isPair in Hp. apply Nat.leb_le in Hp.
  replace (Nat.ltb (length (membersOf id files)) 2) with false
    by (symmetry; apply Nat.ltb_ge; assumption).
  cbn [orb]. apply andb_false_iff. right.
  apply not_true_iff_false. intros Hall.
  rewrite forallb_forall in Hall.
  assert (Hr : readable f = true) by (apply Hall, sort_In, Hf).
  unfold readable in Hr. rewrite Hload in Hr. discriminate.
Qed.

Lemma s_unreadable_fails_request (files : list Serverless.UploadedFile)
      (id : jsstring) (f : Serverless.UploadedFile) :
  isPair files id = true -> In f (membersOf id files) ->
  PDFDocument_load (Serverless.buffer f) = None ->
  Serverless.handler files = Send 500 "Errore durante il merge PDF".
Proof.
  intros Hp Hf Hload.
  destruct (s_unreadable_throws files id f Hp Hf Hload) as (st & Hrun).
  unfold Serverless.handler.
  assert (Hlen : 2 <= length files).
  { unfold isPair in Hp. apply Nat.leb_le in Hp.
    etransitivity; [exact Hp | apply filter_length_le]. }
  replace (Nat.ltb (length files) 2) with false
    by (symmetry; apply Nat.ltb_ge; assumption).
  rewrite Hrun. reflexivity.
Qed.

Lemma s_all_groups_load (files : list Serverless.UploadedFile) :
  (forall f, In f files -> leftOut files f = false ->
             pdfParse (Serverless.buffer f) <> None
             /\ PDFDocument_load (Serverless.buffer f) <> None) ->
  forallb (fun g => groupLoads (snd g)) (Serverless.groupFiles files) = true.
Proof.
  intros H. apply forallb_forall. intros [id fs] Hin. cbn [snd].
  destruct (Nat.lt_ge_cases (length fs) 2) as [Hlt|Hge];
    [apply groupLoads_small; assumption|].
  pose proof (s_group_members files id fs Hin) as Hfs.
  assert (Hmem : forall f, In f (ordered fs) ->
                           parses f = true /\ readable f = true).
  { intros f Hf. apply sort_In in Hf. rewrite Hfs in Hf.
    apply filter_In in Hf as [Hf Hk]. apply hasKey_keyOf in Hk.
    destruct (H f Hf) as [Hp Hl].
    - unfold leftOut. rewrite Hk. apply negb_false_iff.
      unfold isPair. rewrite <- Hfs. apply Nat.leb_le. assumption.
    - unfold parses, readable.
      destruct (pdfParse (Serverless.buffer f)); [|congruence].
      destruct (PDFDocument_load (Serverless.buffer f)); [auto | congruence]. }
  unfold groupLoads.
  replace (Nat.ltb (length fs) 2) with false
    by (symmetry; apply Nat.ltb_ge; assumption).
  cbn [orb]. apply andb_true_iff. split.
  - destruct (ordered fs) as [|first l] eqn:Eo.
    + exfalso. assert (Hl : length (ordered fs) = length fs) by apply sort_length.
      rewrite Eo in Hl. simpl in Hl. lia.
    + apply Hmem. left. reflexivity.
  - apply forallb_forall. intros f Hf. apply Hmem, Hf.
Qed.

Lemma s_no_pair (files : list Serverless.UploadedFile) :
  length (filter (fun g => Nat.leb 2 (length (snd g)))
                 (Serverless.groupFiles files)) = 0
  <-> forall id, isPair files id = false.
Proof.
  split.
  - intros H id. destruct (isPair files id) eqn:E; [|reflexivity].
    pose proof (s_pair_has_group files id E) as Hin.
    assert (Hf : In (id, membersOf id files)
                    (filter (fun g => Nat.leb 2 (length (snd g)))
                            (Serverless.groupFiles files)))
      by (apply filter_In; split; [assumption | exact E]).
    destruct (filter _ (Serverless.groupFiles files));
      [inversion Hf | discriminate].
  - intros H.
    destruct (filter _ (Serverless.groupFiles files)) as [|[id fs] l] eqn:E;
      [reflexivity|].
    assert (Hf : In (id, fs) (filter (fun g => Nat.leb 2 (length (snd g)))
                                     (Serverless.groupFiles files)))
      by (rewrite E; left; reflexivity).
    apply filter_In in Hf as [Hin Hc]. cbn [snd] in Hc.
    rewrite (s_group_members files id fs Hin) in Hc.
    unfold isPair in H. rewrite H in Hc. discriminate.
Qed.



(** *** Documents that take no part in any merge *)








End ServerlessErrors.

(* ================================================================== *)
(** ** What a comparator sort guarantees *)

Section SortedBy.
Variable A : Type.
Variable cmp : A -> A -> Z.
Variable le : A -> A -> Prop.
Hypothesis le_trans : forall x y z, le x y -> le y z -> le x z.
Hypothesis cmp_le : forall x y, Z.leb (cmp x y) 0 = true -> le x y.
Hypothesis cmp_gt : forall x y, Z.leb (cmp x y) 0 = false -> le y x.

Lemma insert_sorted (x : A) (l : list A) :
  StronglySorted le l -> StronglySorted le (insert cmp x l).
Proof.
  induction l as [|y l IH]; intros Hs; simpl.
  - repeat constructor.
  - inversion Hs as [|? ? Hl Hy]; subst.
    destruct (Z.leb (cmp x y) 0) eqn:E.
    + constructor; [assumption|].
      constructor; [apply cmp_le, E|].
      eapply Forall_impl; [|exact Hy].
      intros z Hz. eapply le_trans; [apply cmp_le, E | exact Hz].
    + constructor; [apply IH, Hl|].
      apply (Permutation_Forall (Permutation_sym (insert_perm cmp x l))).
      constructor; [apply cmp_gt, E | exact Hy].
Qed.

(** Whatever the comparator does on ties, the result of the sort is ordered
    by every transitive relation the comparator respects. *)
Lemma sort_sorted (l : list A) : StronglySorted le (sort cmp l).
Proof.
  induction l as [|x l IH]; simpl; [constructor | apply insert_sorted, IH].
Qed.

End SortedBy.

Section ServerlessOrder.
Context `{RT : Runtime}.

Lemma compareFiles_cases (a b : Serverless.UploadedFile) :
  Serverless.compareFiles a b =
  if marked a && negb (marked b) then 1%Z
  else if negb (marked a) && marked b then (-1)%Z
  else localeCompare (toLowerCase (Serverless.filename a))
                     (toLowerCase (Serverless.filename b)).
Proof. reflexivity. Qed.

(** In the resolved order of a group no file with the attachment marker
    comes before a file without it. *)
Lemma ordered_mains_first (fs : list Serverless.UploadedFile) :
  StronglySorted (fun a b => marked a = true -> marked b = true) (ordered fs).
Proof.
  apply sort_sorted.
  - intros x y z Hxy Hyz Hx. auto.
  - intros x y H Hx. rewrite compareFiles_cases, Hx in H. cbn [andb negb] in H.
    destruct (marked y); [reflexivity | discriminate].
  - intros x y H Hy. rewrite compareFiles_cases, Hy in H. cbn [andb negb] in H.
    destruct (marked x); [reflexivity|]. cbn [andb negb] in H. discriminate.
Qed.

End ServerlessOrder.

Section ClientOrder.
Context `{RT : Runtime}.

Lemma compareNames_cases (a b : Client.FileWithStatus) :
  Client.compareNames (Client.name a) (Client.name b) =
  if negb (Bool.eqb (isMarked a) (isMarked b))
  then (if isMarked a then 1%Z else (-1)%Z)
  else if negb (Z.eqb (attachmentIndex a) (attachmentIndex b))
       then (attachmentIndex a - attachmentIndex b)%Z
       else localeCompare (toLowerCase (Client.name a))
                          (toLowerCase (Client.name b)).
Proof. reflexivity. Qed.

(** [orderGroupFiles] returns the files of the group with the unmarked
    names first and, within each role, in the order of their attachment
    index. *)
Lemma orderGroupFiles_by_role_then_index (fs : list Client.FileWithStatus) :
  Permutation (Client.orderGroupFiles fs) fs
  /\ StronglySorted roleThenIndex (Client.orderGroupFiles fs).
Proof.
  split; [apply sort_perm|].
  apply sort_sorted.
  - intros x y z [[Hx Hy]|[Hxy Hi]] [[Hy' Hz]|[Hyz Hj]]; unfold roleThenIndex.
    + congruence.
    + left. split; congruence.
    + left. split; congruence.
    + right. split; [congruence | lia].
  - intros x y H. rewrite compareNames_cases in H. unfold roleThenIndex.
    destruct (isMarked x) eqn:Ex, (isMarked y) eqn:Ey; cbn in H;
      try discriminate; auto.
    + right. split; [reflexivity|].
      destruct (Z.eqb (attachmentIndex x) (attachmentIndex y)) eqn:E; cbn in H.
      * apply Z.eqb_eq in E. lia.
      * apply Z.leb_le in H. lia.
    + right. split; [reflexivity|].
      destruct (Z.eqb (attachmentIndex x) (attachmentIndex y)) eqn:E; cbn in H.
      * apply Z.eqb_eq in E. lia.
      * apply Z.leb_le in H. lia.
  - intros x y H. rewrite compareNames_cases in H. unfold roleThenIndex.
    destruct (isMarked x) eqn:Ex, (isMarked y) eqn:Ey; cbn in H;
      try discriminate; auto.
    + right. split; [reflexivity|].
      destruct (Z.eqb (attachmentIndex x) (attachmentIndex y)) eqn:E; cbn in H.
      * apply Z.eqb_eq in E. lia.
      * apply Z.leb_gt in H. lia.
    + right. split; [reflexivity|].
      destruct (Z.eqb (attachmentIndex x) (attachmentIndex y)) eqn:E; cbn in H.
      * apply Z.eqb_eq in E. lia.
      * apply Z.leb_gt in H. lia.
Qed.

End ClientOrder.

(* ================================================================== *)
(** * The claims of the specification *)

Section NamingClaim.
Context `{RT : Runtime}.

(** C3. The collision loop of the single-backend server always ends, and in
    every archive the server sends the file names are pairwise distinct.
    The archive that is sent is the archive the request produced, written
    out by [toBuffer], and in the produced archive each output is named by
    the first free candidate of its group's base name, that is [base.pdf]
    if no earlier output took it, and otherwise [base_k.pdf] for the least
    [k >= 2] such that [base.pdf], [base_2.pdf], ..., [base_(k-1).pdf] are
    all taken by earlier outputs.  In the serverless handler, whose names
    start with the group identifier, the names of an archive are pairwise
    distinct as well and every merged group has its own entry. *)
Theorem output_names_pairwise_distinct :
  (forall files : list Backend.File,
      Backend.route files <> NoResponse
      /\ forall entries,
          Backend.route files = SendZip entries ->
          NoDup (map fst entries)
          /\ exists st,
              Backend.runRequest files = Backend.Finished st
              /\ entries = Backend.toBuffer (Backend.zip st)
              /\ forall before e after,
                  Backend.zip st = before ++ e :: after ->
                  exists id m a k,
                    lastOf (mainsOf id files) = Some m
                    /\ lastOf (attachmentsOf id files) = Some a
                    /\ 1 <= k
                    /\ fst e = candidate
                                 (Backend.finalBaseOf id (Backend.intestatarioOf m a)) k
                    /\ ~ In (fst e) (map fst before)
                    /\ forall j, 1 <= j < k ->
                         In (candidate
                               (Backend.finalBaseOf id (Backend.intestatarioOf m a)) j)
                            (map fst before))
  /\ (forall (files : list Serverless.UploadedFile) entries,
         Serverless.handler files = SendZip entries ->
         NoDup (map fst entries)
         /\ exists st,
             Serverless.runRequest files = Serverless.Finished st
             /\ Serverless.zip st = entries
             /\ Serverless.merged st = length entries).
Proof.
  split.
  - intros files. split; [apply route_responds|].
    intros entries H.
    apply route_wellFormed in H as (st & Hrun & -> & _ & Hnd & Hall).
    split; [apply toBuffer_NoDup, Hnd|].
    exists st. split; [assumption|]. split; [reflexivity|].
    intros before e after E. rewrite E in Hall.
    apply ForallPrefix_split in Hall. simpl in Hall.
    destruct Hall as (id & m & a & pm & pa & k & Hm & Ha & _ & _ & _ & Hk & Hname
                      & Hfree & Hprev).
    exists id, m, a, k. repeat split; auto.
    + intros Hin. apply getEntry_In in Hin. congruence.
    + intros j Hj. apply getEntry_In, Hprev, Hj.
  - intros files entries H.
    apply handler_tidy in H as (done & st & Hrun & <- & (Hm & Hnd & _)).
    split; [assumption|]. exists st. auto.
Qed.

End NamingClaim.

Lemma output_names_pairwise_distinct_witness :
  exists st,
    Backend.runRequest Sample.collidingBatch = Backend.Finished st
    /\ map fst (Backend.zip st)
       = [str "Mario Rossi.pdf"; str "Mario Rossi_2.pdf"; str "Mario Rossi_3.pdf"]
    /\ NoDup (map fst (Backend.toBuffer (Backend.zip st))).
Proof.
  eexists. split; [vm_compute; reflexivity|]. split; [reflexivity|].
  refine (proj1 (proj2 (proj1 (output_names_pairwise_distinct (RT := Sample.runtime))
                          Sample.collidingBatch) _ _)).
  vm_compute; reflexivity.
Defined.

Section SlotsClaim.
Context `{RT : Runtime}.

(** C9. In the single-backend server a group holds at most one main
    document and at most one attachment, namely the last file uploaded for
    its identifier in each role (a later file replaces an earlier one in the
    slot), and every output the server sends is merged from exactly two
    uploaded documents: the main document and the attachment of one
    identifier. *)
Theorem single_backend_one_document_per_role (files : list Backend.File) :
  (forall id sl,
      In (id, sl) (Backend.groupFiles files) ->
      Backend.main sl = lastOf (mainsOf id files)
      /\ Backend.allegato sl = lastOf (attachmentsOf id files))
  /\ forall entries,
      Backend.route files = SendZip entries ->
      Forall (fun e : entry =>
                exists id m a pm pa,
                  In m files /\ In a files
                  /\ hasId id m = true /\ hasId id a = true
                  /\ isAttachment m = false /\ isAttachment a = true
                  /\ PDFDocument_load (Backend.buffer m) = Some pm
                  /\ PDFDocument_load (Backend.buffer a) = Some pa
                  /\ snd e = pm ++ pa)
             entries.
Proof.
  split.
  - intros id sl H. apply group_slots in H. subst sl. auto.
  - intros entries H. eapply route_entries; [|exact H].
    intros b e (id & m & a & pm & pa & k & Hm & Ha & Hpm & Hpa & He & _).
    apply role_of_last in Hm as (Him & Hidm & Hrm).
    apply role_of_last in Ha as (Hia & Hida & Hra).
    apply negb_true_iff in Hrm.
    exists id, m, a, pm, pa. auto 12.
Qed.

End SlotsClaim.

Lemma single_backend_one_document_per_role_witness :
  exists entries,
    Backend.route Sample.collidingBatch = SendZip entries
    /\ Forall (fun e : entry (RT := Sample.runtime) =>
                 exists id m a pm pa,
                   In m Sample.collidingBatch /\ In a Sample.collidingBatch
                   /\ hasId id m = true /\ hasId id a = true
                   /\ isAttachment m = false /\ isAttachment a = true
                   /\ PDFDocument_load (Backend.buffer m) = Some pm
                   /\ PDFDocument_load (Backend.buffer a) = Some pa
                   /\ snd e = pm ++ pa)
              entries.
Proof.
  eexists. split; [vm_compute; reflexivity|].
  apply (proj2 (single_backend_one_document_per_role (RT := Sample.runtime)
                  Sample.collidingBatch)).
  vm_compute; reflexivity.
Defined.

(* ------------------------------------------------------------------ *)

Section ParseErrorClaim.
Context `{RT : Runtime}.

(** C1 (amended). A document that does not load is not isolated: if, in
    the single-backend server, the main document or the attachment of a
    complete group does not load, or if, in the serverless handler, a member
    of a group of two files or more does not load, then the whole request is
    answered with status 500 and no archive, whatever the other groups of
    the batch are. *)
Theorem unreadable_group_fails_whole_request :
  (forall (files : list Backend.File) (id : jsstring),
      unreadable files id ->
      Backend.route files = Send 500 "Errore interno durante l'unione dei file.")
  /\ (forall (files : list Serverless.UploadedFile) (id : jsstring)
             (f : Serverless.UploadedFile),
         isPair files id = true ->
         In f (membersOf id files) ->
         PDFDocument_load (Serverless.buffer f) = None ->
         Serverless.handler files = Send 500 "Errore durante il merge PDF").
Proof.
  split.
  - apply unreadable_fails_request.
  - apply s_unreadable_fails_request.
Qed.

End ParseErrorClaim.

Lemma unreadable_group_fails_whole_request_witness :
  Backend.route Sample.brokenBatch
  = Send 500 "Errore interno durante l'unione dei file."
  /\ Serverless.handler Sample.brokenUploads
     = Send 500 "Errore durante il merge PDF".
Proof.
  split.
  - apply (proj1 (unreadable_group_fails_whole_request (RT := Sample.runtime)))
      with (id := str "25-02051").
    exists (Sample.file "25-02051.pdf" Sample.broken),
           (Sample.file "25-02051_Allegato1.pdf" (Sample.pdf "" [6])).
    split; [vm_compute; reflexivity|].
    split; [vm_compute; reflexivity|].
    left. reflexivity.
  - apply (proj2 (unreadable_group_fails_whole_request (RT := Sample.runtime)))
      with (id := str "25-02050")
           (f := Sample.upload "25-02050_Allegato1.pdf" Sample.broken).
    + vm_compute; reflexivity.
    + vm_compute. right. left. reflexivity.
    + reflexivity.
Defined.

(** C1, as the specification words it, fails on a batch of two complete
    groups of which the second has an unreadable main document: the first
    group loads, yet the request is answered with status 500 and no
    archive. *)
Lemma parse_error_aborts_other_groups :
  ~ dropsOnlyFailingGroups Sample.brokenBatch.
Proof.
  intros H. destruct H as (entries & Hr & _).
  - exists (str "25-02050"), [1; 2; 3; 4; 5].
    exists (Sample.file "25-02050.pdf"
                        (Sample.pdf "Intestatario: Mario Rossi" [1; 2; 3])),
           (Sample.file "25-02050_Allegato1.pdf" (Sample.pdf "" [4; 5])),
           [1; 2; 3], [4; 5].
    repeat split; vm_compute; reflexivity.
  - vm_compute in Hr. discriminate.
Qed.

(* ------------------------------------------------------------------ *)

Section EmptyResultClaim.
Context `{RT : Runtime}.


End EmptyResultClaim.



(* ------------------------------------------------------------------ *)

Section MergeClaim.
Context `{RT : Runtime}.

Lemma readable_pagesOf (f : Serverless.UploadedFile) :
  readable f = true ->
  PDFDocument_load (Serverless.buffer f) = Some (pagesOf f).
Proof.
  unfold readable, pagesOf.
  destruct (PDFDocument_load (Serverless.buffer f)); [reflexivity | discriminate].
Qed.

End MergeClaim.

(** C7. The serverless handler does not order attachments by their index:
    with a main document, "Allegato2" and "Allegato10" in one group, its
    sort puts "Allegato10" before "Allegato2" and the pages are merged in
    that order, while [orderGroupFiles] of the in-browser variant puts the
    same names in index order. *)
Lemma serverless_orders_attachments_lexically :
  map (Serverless.filename (RT := Sample.runtime)) (ordered Sample.indexBatch)
  = [str "25-02050.pdf"; str "25-02050_Allegato10.pdf";
     str "25-02050_Allegato2.pdf"]
  /\ Serverless.handler Sample.indexBatch
     = SendZip ([(str "25-02050 - 25-02050 - Mario Rossi.pdf", [1; 10; 2])]
                : list (entry (RT := Sample.runtime)))
  /\ map (Client.name (RT := Sample.runtime))
         (Client.orderGroupFiles
            (map (fun f => Client.MkStatus (RT := Sample.runtime)
                             (Serverless.filename f) (Serverless.buffer f)
                             (keyOf f))
                 Sample.indexBatch))
     = [str "25-02050.pdf"; str "25-02050_Allegato2.pdf";
        str "25-02050_Allegato10.pdf"].
Proof. repeat split; vm_compute; reflexivity. Qed.

(* ------------------------------------------------------------------ *)

Lemma replace1_truthy (a b : N) (s : jsstring) :
  truthy s = true -> truthy (replace1 a b s) = true.
Proof.
  destruct s as [|c s]; simpl; [discriminate|].
  destruct (N.eqb c a); reflexivity.
Qed.

Section AddresseeComponent.
Context `{RT : Runtime}.

(** The single-backend sanitizer never returns the empty string. *)
Lemma safePdfFileName_not_empty (name : jsstring) :
  Backend.safePdfFileName name <> [].
Proof.
  unfold Backend.safePdfFileName.
  destruct (trim _) as [|c s]; simpl; discriminate.
Qed.

(** The serverless handler falls back on "Documento" when neither pattern
    matches. *)
Lemma intestatarioOf_default (text : jsstring) :
  match_group Serverless.re_intestatario 1 text = None ->
  match_group Serverless.re_dr 0 text = None ->
  Serverless.intestatarioOf text = str "Documento".
Proof.
  unfold Serverless.intestatarioOf. intros -> ->. reflexivity.
Qed.

End AddresseeComponent.

(** C10. The addressee component of a serverless file name can be empty:
    when the text reads "Intestatario: ***" the first pattern captures the
    stars, cleaning removes them all, and the entry is named
    "25-02050 - 25-02049 - .pdf"; there is no fallback on "Documento" after
    cleaning, as there is in [safePdfFileName]. *)
Lemma serverless_addressee_component_can_be_empty :
  Serverless.intestatarioOf (str "Fattura N: 25/02049 Intestatario: ***")
  = str "***"
  /\ Serverless.safeName (str "***") = []
  /\ Backend.safePdfFileName (str "***") = str "Documento"
  /\ Serverless.handler Sample.maskedBatch
     = SendZip ([(str "25-02050 - 25-02049 - .pdf", [1; 2])]
                : list (entry (RT := Sample.runtime))).
Proof. repeat split; vm_compute; reflexivity. Qed.

(* ================================================================== *)
(** * The scenarios of the specification, run on the model *)

(** A main document of three pages naming its addressee and an attachment
    of two pages give one output of five pages, named after the
    addressee. *)
Example scenario_pair_named_after_addressee :
  Backend.route
    [ Sample.file "25-02050.pdf"
        (Sample.pdf "Intestatario: Mario Rossi" [1; 2; 3]);
      Sample.file "25-02050_Allegato1.pdf" (Sample.pdf "" [4; 5]) ]
  = SendZip ([(str "Mario Rossi.pdf", [1; 2; 3; 4; 5])]
             : list (entry (RT := Sample.runtime))).
Proof. vm_compute; reflexivity. Qed.

(** A document without identifier is left out; alone, it makes the request
    fail for want of a pair. *)
Example scenario_no_identifier :
  Backend.route
    [ Sample.file "fattura.pdf" (Sample.pdf "Intestatario: Mario Rossi" [1]) ]
  = Send (RT := Sample.runtime) 400
         "Nessuna coppia valida trovata (manca main o allegato).".
Proof. vm_compute; reflexivity. Qed.

(** A purely numeric addressee is rejected by the sanitizer and the name
    falls back on the identifier. *)
Example scenario_numeric_addressee :
  Backend.cleanupCandidateName (RT := Sample.runtime) (str "25/02050") = None
  /\ Backend.route
       [ Sample.file "25-02050.pdf" (Sample.pdf "Intestatario: 25/02050" [1]);
         Sample.file "25-02050_Allegato1.pdf" (Sample.pdf "" [2]) ]
     = SendZip ([(str "25-02050.pdf", [1; 2])]
                : list (entry (RT := Sample.runtime))).
Proof. split; vm_compute; reflexivity. Qed.

(** A main document without pages and an attachment of four pages give an
    output of the four pages of the attachment. *)
Example scenario_empty_main :
  Backend.route
    [ Sample.file "25-02050.pdf" (Sample.pdf "" []);
      Sample.file "25-02050_Allegato1.pdf" (Sample.pdf "" [1; 2; 3; 4]) ]
  = SendZip ([(str "25-02050.pdf", [1; 2; 3; 4])]
             : list (entry (RT := Sample.runtime))).
Proof. vm_compute; reflexivity. Qed.

(** A later file of the same role replaces the earlier one. *)
Example scenario_last_main_wins :
  Backend.route
    [ Sample.file "25-02050_a.pdf" (Sample.pdf "" [1]);
      Sample.file "25-02050_b.pdf" (Sample.pdf "" [2]);
      Sample.file "25-02050_Allegato1.pdf" (Sample.pdf "" [3]) ]
  = SendZip ([(str "25-02050.pdf", [2; 3])]
             : list (entry (RT := Sample.runtime))).
Proof. vm_compute; reflexivity. Qed.

(* ================================================================== *)
(** * Further properties of the code *)

(** ** More on the matcher *)

Lemma star_loop_reads (a : regex) (step : mstate -> list mstate) (greedy : bool) :
  reads a step -> forall n, reads (Star greedy a) (star_loop step greedy n).
Proof.
  intros Hstep n. induction n as [|n IH]; intros st st' Hin.
  - destruct Hin as [<-|[]]. exists []. split; [apply advances_refl | constructor].
  - cbn [star_loop] in Hin.
    assert (Hcases :
              st' = st \/
              In st' (flat_map
                        (fun st1 =>
                           if Nat.ltb (length (rest st1)) (length (rest st))
                           then star_loop step greedy n st1 else [])
                        (step st))).
    { destruct greedy.
      - apply in_app_or in Hin as [Hin|[<-|[]]]; auto.
      - destruct Hin as [<-|Hin]; auto. }
    destruct Hcases as [->|Hmore].
    + exists []. split; [apply advances_refl | constructor].
    + apply in_flat_map in Hmore as (st1 & H1 & Hrest).
      destruct (Nat.ltb (length (rest st1)) (length (rest st)));
        [|inversion Hrest].
      apply Hstep in H1 as (w1 & Ha1 & Hp1).
      apply IH in Hrest as (w2 & Ha2 & Hp2).
      exists (w1 ++ w2). split; [eapply advances_trans; eauto|].
      constructor; assumption.
Qed.

(** The matcher is sound: what it reads between two states is a word of
    the pattern. *)
Lemma exec_reads (r : regex) : reads r (exec r).
Proof.
  induction r as [|p|a IHa b IHb|a IHa b IHb|g a IHa|i a IHa| | |];
    intros st st' Hin; cbn [exec] in *.
  - destruct Hin as [<-|[]]. exists []. split; [apply advances_refl | constructor].
  - destruct (rest st) as [|c tl] eqn:Er; [inversion Hin|].
    destruct (p c) eqn:Ep; [|inversion Hin].
    destruct Hin as [<-|[]]. exists [c]. split.
    + split; [reflexivity | exact Er].
    + constructor. exact Ep.
  - apply in_flat_map in Hin as (st1 & H1 & H2).
    apply IHa in H1 as (w1 & Ha1 & Hp1).
    apply IHb in H2 as (w2 & Ha2 & Hp2).
    exists (w1 ++ w2). split; [eapply advances_trans; eauto|].
    constructor; assumption.
  - apply in_app_or in Hin as [Hin|Hin].
    + apply IHa in Hin as (w & Ha & Hp). exists w. split; [assumption|].
      apply matches_alt_l. assumption.
    + apply IHb in Hin as (w & Ha & Hp). exists w. split; [assumption|].
      apply matches_alt_r. assumption.
  - eapply star_loop_reads; [exact IHa | exact Hin].
  - apply in_map_iff in Hin as (st1 & <- & H1).
    apply IHa in H1 as (w & [Hs Hr] & Hp).
    exists w. split; [split; assumption | constructor; assumption].
  - destruct (seen st); [|inversion Hin].
    destruct Hin as [<-|[]]. exists []. split; [apply advances_refl | constructor].
  - destruct (rest st); [|inversion Hin].
    destruct Hin as [<-|[]]. exists []. split; [apply advances_refl | constructor].
  - destruct (at_word_boundary st); [|inversion Hin].
    destruct Hin as [<-|[]]. exists []. split; [apply advances_refl | constructor].
Qed.

Lemma leading_past (p : N -> bool) (s : jsstring) : leading p s ++ past p s = s.
Proof.
  induction s as [|c s IH]; simpl; [reflexivity|].
  destruct (p c); simpl; [rewrite IH|]; reflexivity.
Qed.

Lemma leading_all (p : N -> bool) (s : jsstring) : forallb p (leading p s) = true.
Proof.
  induction s as [|c s IH]; simpl; [reflexivity|].
  destruct (p c) eqn:E; simpl; [rewrite E, IH|]; reflexivity.
Qed.

Lemma past_head (p : N -> bool) (s : jsstring) :
  match past p s with c :: _ => p c = false | [] => True end.
Proof.
  induction s as [|c s IH]; simpl; [exact I|].
  destruct (p c) eqn:E; [exact IH | exact E].
Qed.

(** A pattern that starts with a character class either fails on the first
    character or goes on after it. *)
Lemma exec_chr_seq (p : N -> bool) (r : regex) (st : mstate) :
  exec (Seq (Chr p) r) st =
  match rest st with
  | c :: tl => if p c then exec r (MState (c :: seen st) tl (caps st)) else []
  | [] => []
  end.
Proof.
  cbn [exec]. destruct (rest st) as [|c tl]; [reflexivity|].
  destruct (p c); [|reflexivity]. cbn [flat_map]. apply app_nil_r.
Qed.

(** The first match of a greedy star over a class takes the whole run. *)
Lemma exec_star_class_first (p : N -> bool) (sn s : jsstring) cs :
  exists others,
    exec (Star true (Chr p)) (MState sn s cs)
    = MState (rev (leading p s) ++ sn) (past p s) cs :: others.
Proof.
  revert sn. induction s as [|c s IH]; intros sn.
  - exists []. reflexivity.
  - cbn [exec rest length star_loop seen caps].
    destruct (p c) eqn:Ep.
    + cbn [flat_map leading past]. rewrite Ep.
      assert (Hlt : Nat.ltb (length s) (S (length s)) = true)
        by (apply Nat.ltb_lt; lia).
      cbn [rest]. rewrite Hlt, app_nil_r.
      destruct (IH (c :: sn)) as (others & E).
      cbn [exec rest] in E. rewrite E.
      cbn [rev]. rewrite <- app_assoc. cbn [app].
      eexists. reflexivity.
    + cbn [flat_map leading past app]. rewrite Ep.
      exists []. reflexivity.
Qed.

Lemma exec_seq_one (a b : regex) (st st1 : mstate) :
  exec a st = [st1] -> exec (Seq a b) st = exec b st1.
Proof. intros H. cbn [exec]. rewrite H. cbn [flat_map]. apply app_nil_r. Qed.

Lemma exec_seq_none (a b : regex) (st : mstate) :
  exec a st = [] -> exec (Seq a b) st = [].
Proof. intros H. cbn [exec]. rewrite H. reflexivity. Qed.

(** A class repeated [n] times reads the next [n] characters, if they are
    there and all belong to the class. *)
Lemma exec_times_class (p : N -> bool) (n : nat) (sn s : jsstring) cs :
  exec (Times n (Chr p)) (MState sn s cs) =
  if Nat.leb n (length s) && forallb p (firstn n s)
  then [MState (rev (firstn n s) ++ sn) (skipn n s) cs] else [].
Proof.
  revert sn s. induction n as [|n IH]; intros sn s.
  - reflexivity.
  - cbn [Times]. rewrite exec_chr_seq. cbn [rest seen caps].
    destruct s as [|c tl]; [reflexivity|].
    cbn [length firstn skipn forallb rev Nat.leb].
    destruct (p c); [|rewrite andb_false_r; reflexivity].
    rewrite IH, <- app_assoc. cbn [andb app]. reflexivity.
Qed.

Lemma exec_seq_if (a b : regex) (st st1 : mstate) (c : bool) :
  exec a st = (if c then [st1] else []) ->
  exec (Seq a b) st = if c then exec b st1 else [].
Proof.
  intros H. destruct c; [apply exec_seq_one | apply exec_seq_none]; exact H.
Qed.

Lemma exec_group (i : nat) (a : regex) (st : mstate) :
  exec (Group i a) st =
  map (fun st' => MState (seen st') (rest st')
                         ((i, consumed st st') :: caps st'))
      (exec a st).
Proof. reflexivity. Qed.

Lemma skipn_leading (p : N -> bool) (s : jsstring) :
  skipn (length (leading p s)) s = past p s.
Proof.
  induction s as [|c s IH]; simpl; [reflexivity|].
  destruct (p c); simpl; [exact IH | reflexivity].
Qed.

(** What the identifier pattern finds at the current position. *)
Lemma match_here_group_id (sn rs : jsstring) :
  match_here re_group_id sn rs =
  match idAt rs with
  | Some g => Some (MState sn rs [],
                    MState (rev g ++ sn) (skipn (length g) rs) [(1, g)])
  | None => None
  end.
Proof.
  unfold match_here, re_group_id, AtLeast. rewrite exec_group.
  rewrite (@exec_seq_if _ _ _ _ _ (exec_times_class is_digit 2 sn rs [])).
  unfold idAt.
  destruct rs as [|d1 [|d2 [|h rs]]]; try reflexivity.
  { rewrite exec_chr_seq. cbn [rest skipn].
    destruct (_ && _); reflexivity. }
  cbn [length Nat.leb firstn skipn forallb andb rev app].
  rewrite andb_true_r.
  destruct (is_digit d1 && is_digit d2) eqn:E12; cbn [andb].
  2: { destruct rs as [|? [|? [|? [|? ?]]]]; reflexivity. }
  rewrite exec_chr_seq. cbn [rest seen caps].
  unfold chr at 1. change (N_of_ascii "-") with 45%N.
  destruct (N.eqb h 45) eqn:Eh; cbn [andb].
  2: { destruct rs as [|? [|? [|? [|? ?]]]]; reflexivity. }
  rewrite (@exec_seq_if _ _ _ _ _ (exec_times_class is_digit 4 _ rs [])).
  destruct rs as [|d3 [|d4 [|d5 [|d6 tl]]]]; try reflexivity.
  cbn [length Nat.leb firstn skipn forallb andb rev app].
  rewrite andb_true_r.
  replace (is_digit d3 && (is_digit d4 && (is_digit d5 && is_digit d6)))
    with (is_digit d3 && is_digit d4 && is_digit d5 && is_digit d6)
    by (rewrite !andb_assoc; reflexivity).
  destruct (is_digit d3 && is_digit d4 && is_digit d5 && is_digit d6) eqn:E36;
    [|reflexivity].
  destruct (exec_star_class_first is_digit
              (d6 :: d5 :: d4 :: d3 :: h :: d2 :: d1 :: sn) tl [])
    as (others & ->).
  cbn [map seen rest caps].
  set (g := d1 :: d2 :: h :: d3 :: d4 :: d5 :: d6 :: leading is_digit tl).
  assert (Hseen : rev (leading is_digit tl)
                  ++ d6 :: d5 :: d4 :: d3 :: h :: d2 :: d1 :: sn
                  = rev g ++ sn).
  { unfold g. cbn [rev]. rewrite <- !app_assoc. reflexivity. }
  rewrite Hseen.
  assert (Hrest : past is_digit tl
                  = skipn (length g) (d1 :: d2 :: h :: d3 :: d4 :: d5 :: d6 :: tl)).
  { unfold g. cbn [length skipn]. symmetry. apply skipn_leading. }
  rewrite Hrest.
  rewrite (@consumed_advances _ _ g); [reflexivity|].
  split; [reflexivity|]. cbn [rest]. rewrite <- Hrest. unfold g.
  cbn [app]. rewrite leading_past. reflexivity.
Qed.

(** The search returns the first position, from the left, at which the
    pattern matches. *)
Lemma search_from_none (r : regex) (sn rs : jsstring) :
  search_from r sn rs = None <->
  forall pre post, rs = pre ++ post -> match_here r (rev pre ++ sn) post = None.
Proof.
  revert sn. induction rs as [|c rs IH]; intros sn; simpl.
  - split.
    + destruct (match_here r sn []) eqn:Em; [discriminate|].
      intros _ pre post E. symmetry in E. apply app_eq_nil in E as [-> ->].
      exact Em.
    + intros H. pose proof (H [] [] eq_refl) as H0. simpl in H0.
      rewrite H0. reflexivity.
  - split.
    + destruct (match_here r sn (c :: rs)) eqn:Em; [discriminate|].
      intros H pre post E.
      destruct pre as [|c' pre]; simpl in E.
      * subst post. exact Em.
      * injection E as <- E. simpl. rewrite <- app_assoc. simpl.
        apply (proj1 (IH (c :: sn)) H). exact E.
    + intros H. pose proof (H [] (c :: rs) eq_refl) as H0. simpl in H0.
      rewrite H0. apply IH. intros pre post E.
      specialize (H (c :: pre) post). simpl in H.
      rewrite <- app_assoc in H. apply H. rewrite E. reflexivity.
Qed.

Lemma search_from_some (r : regex) (sn rs : jsstring) (m : mstate * mstate) :
  search_from r sn rs = Some m ->
  exists pre post,
    rs = pre ++ post
    /\ match_here r (rev pre ++ sn) post = Some m
    /\ forall pre' post', rs = pre' ++ post' -> length pre' < length pre ->
                          match_here r (rev pre' ++ sn) post' = None.
Proof.
  revert sn. induction rs as [|c rs IH]; intros sn; simpl.
  - destruct (match_here r sn []) eqn:Em; [|discriminate].
    intros H. injection H as <-. exists [], []. repeat split; auto.
    intros pre' post' _ Hl. simpl in Hl. lia.
  - destruct (match_here r sn (c :: rs)) eqn:Em.
    + intros H. injection H as <-. exists [], (c :: rs). repeat split; auto.
      intros pre' post' _ Hl. simpl in Hl. lia.
    + intros H. apply IH in H as (pre & post & E & Hm & Hleft).
      exists (c :: pre), post. simpl. rewrite <- app_assoc. simpl.
      split; [rewrite E; reflexivity|]. split; [exact Hm|].
      intros [|c' pre'] post' E' Hl; simpl in E'.
      * subst post'. exact Em.
      * injection E' as <- E'. simpl. rewrite <- app_assoc. simpl.
        apply Hleft; [exact E' | simpl in Hl; lia].
Qed.

Lemma idAt_some (s g : jsstring) :
  idAt s = Some g ->
  isGroupId g /\ s = g ++ past is_digit (skipn 7 s)
  /\ match past is_digit (skipn 7 s) with
     | c :: _ => is_digit c = false
     | [] => True
     end.
Proof.
  unfold idAt.
  destruct s as [|d1 [|d2 [|h [|d3 [|d4 [|d5 [|d6 tl]]]]]]]; try discriminate.
  destruct (is_digit d1 && is_digit d2 && N.eqb h 45 && is_digit d3
            && is_digit d4 && is_digit d5 && is_digit d6) eqn:E; [|discriminate].
  intros H. injection H as <-.
  do 6 (apply andb_true_iff in E as [E ?]).
  match goal with H : N.eqb h 45 = true |- _ => apply N.eqb_eq in H; subst h end.
  split; [|split].
  - exists d1, d2, (d3 :: d4 :: d5 :: d6 :: leading is_digit tl).
    repeat split; auto.
    + cbn [length]. lia.
    + cbn [forallb]. rewrite leading_all.
      repeat match goal with H : is_digit _ = true |- _ => rewrite H; clear H end.
      reflexivity.
  - cbn [skipn app]. rewrite leading_past. reflexivity.
  - cbn [skipn]. apply past_head.
Qed.

Lemma idAt_complete (g post : jsstring) :
  isGroupId g -> idAt (g ++ post) <> None.
Proof.
  intros (d1 & d2 & ds & -> & H1 & H2 & Hlen & Hds).
  destruct ds as [|d3 [|d4 [|d5 [|d6 ds]]]]; simpl in Hlen; try lia.
  cbn [forallb] in Hds. do 4 (apply andb_true_iff in Hds as [? Hds]).
  cbn [app idAt]. rewrite N.eqb_refl.
  repeat match goal with H : is_digit _ = true |- _ => rewrite H; clear H end.
  discriminate.
Qed.

Lemma group_id_shape (name g : jsstring) :
  match_group re_group_id 1 name = Some g -> isGroupId g.
Proof.
  unfold match_group, search.
  destruct (search_from re_group_id [] name) as [[st st']|] eqn:E;
    [|discriminate].
  apply search_from_some in E as (pre & rs & Hname & Hm & _).
  rewrite match_here_group_id in Hm.
  destruct (idAt rs) as [g0|] eqn:Eg; [|discriminate].
  injection Hm as <- <-. cbn [caps lookup Nat.eqb].
  intros H. injection H as <-.
  apply idAt_some in Eg as (Hg & _). exact Hg.
Qed.

(** The identifier extractor returns the leftmost group identifier of the
    name, taken with all its digits, and nothing when the name holds no
    identifier. *)
Theorem extractGroupId_leftmost_longest (name : jsstring) :
  match Backend.extractGroupIdFromFilename name with
  | Some g =>
      exists pre post,
        name = pre ++ g ++ post
        /\ isGroupId g
        /\ match post with c :: _ => is_digit c = false | [] => True end
        /\ forall pre' g' post',
            name = pre' ++ g' ++ post' -> isGroupId g' ->
            length pre <= length pre'
  | None =>
      forall pre g post, name = pre ++ g ++ post -> ~ isGroupId g
  end.
Proof.
  unfold Backend.extractGroupIdFromFilename, match_group, search.
  destruct (search_from re_group_id [] name) as [[st st']|] eqn:E.
  - apply search_from_some in E as (pre & rs & Hname & Hm & Hleft).
    rewrite match_here_group_id in Hm.
    destruct (idAt rs) as [g|] eqn:Eg; [|discriminate].
    injection Hm as <- <-. cbn [caps lookup Nat.eqb].
    apply idAt_some in Eg as (Hg & Hrs & Hpost).
    exists pre, (past is_digit (skipn 7 rs)).
    split; [rewrite Hname, Hrs at 1; reflexivity|].
    split; [assumption|]. split; [assumption|].
    intros pre' g' post' Hname' Hg'.
    destruct (Nat.le_gt_cases (length pre) (length pre')) as [Hle|Hgt];
      [assumption|].
    exfalso. specialize (Hleft pre' (g' ++ post') Hname' Hgt).
    rewrite match_here_group_id in Hleft.
    destruct (idAt (g' ++ post')) eqn:Ei; [discriminate|].
    exact (idAt_complete post' Hg' Ei).
  - intros pre g post Hname Hg.
    pose proof (proj1 (search_from_none re_group_id [] name) E pre (g ++ post)
                      Hname) as Hm.
    rewrite match_here_group_id in Hm.
    destruct (idAt (g ++ post)) eqn:Ei; [discriminate|].
    exact (idAt_complete post Hg Ei).
Qed.

(* ================================================================== *)
(** ** The role test *)

Lemma exec_lit (cs : list (N -> bool)) (sn s : jsstring) c0 :
  exec (Lit cs) (MState sn s c0) =
  if fits cs s
  then [MState (rev (firstn (length cs) s) ++ sn) (skipn (length cs) s) c0]
  else [].
Proof.
  revert sn s. induction cs as [|p cs IH]; intros sn s; [reflexivity|].
  cbn [Lit]. rewrite exec_chr_seq. cbn [rest seen caps fits].
  destruct s as [|c tl]; [reflexivity|].
  destruct (p c); [|reflexivity].
  rewrite IH. cbn [andb length firstn skipn rev].
  rewrite <- app_assoc. reflexivity.
Qed.

Lemma fits_chr_i (l : list ascii) (s : jsstring) :
  fits (map chr_i l) s = true <->
  exists w post,
    s = w ++ post
    /\ map fold_ascii w = map (fun a => fold_ascii (N_of_ascii a)) l.
Proof.
  revert s. induction l as [|a l IH]; intros s; cbn [map fits].
  - split; [|reflexivity]. intros _. exists [], s. auto.
  - destruct s as [|c s].
    + split; [discriminate|].
      intros (w & post & E & Hw). symmetry in E.
      apply app_eq_nil in E as [-> _]. discriminate.
    + rewrite andb_true_iff, IH. unfold chr_i at 1. rewrite N.eqb_eq. split.
      * intros (Hc & w & post & -> & Hw).
        exists (c :: w), post. split; [reflexivity|].
        cbn [map]. rewrite Hc, Hw. reflexivity.
      * intros (w & post & E & Hw).
        destruct w as [|c' w]; [discriminate|].
        cbn [map app] in *. injection E as <- ->. injection Hw as Hc Hw.
        split; [assumption|]. exists w, post. auto.
Qed.

Lemma test_iff (r : regex) (s : jsstring) :
  test r s = true <->
  exists pre post, s = pre ++ post /\ match_here r (rev pre) post <> None.
Proof.
  unfold test, search. split.
  - destruct (search_from r [] s) as [m|] eqn:E; [|discriminate].
    intros _. apply search_from_some in E as (pre & post & Hs & Hm & _).
    rewrite app_nil_r in Hm. exists pre, post. split; [assumption|]. congruence.
  - intros (pre & post & Hs & Hm).
    destruct (search_from r [] s) as [m|] eqn:E; [reflexivity|].
    exfalso. apply Hm.
    pose proof (proj1 (search_from_none r [] s) E pre post Hs) as H.
    rewrite app_nil_r in H. exact H.
Qed.

(** A file is an attachment exactly when its name holds the word
    "allegato" written in any mix of ASCII upper and lower case. *)
Theorem isAllegato_iff (fileName : jsstring) :
  Backend.isAllegato fileName = true <->
  exists pre w post,
    fileName = pre ++ w ++ post /\ map fold_ascii w = str "allegato".
Proof.
  unfold Backend.isAllegato. rewrite test_iff. split.
  - intros (pre & rs & Hs & Hm). unfold match_here, WordI in Hm.
    rewrite exec_lit in Hm.
    destruct (fits _ rs) eqn:Ef; [|congruence].
    apply fits_chr_i in Ef as (w & post & -> & Hw).
    exists pre, w, post. split; [assumption | exact Hw].
  - intros (pre & w & post & Hs & Hw).
    exists pre, (w ++ post). split; [assumption|].
    unfold match_here, WordI. rewrite exec_lit.
    replace (fits _ (w ++ post)) with true; [discriminate|].
    symmetry. apply fits_chr_i. exists w, post. split; [reflexivity | exact Hw].
Qed.

(* ================================================================== *)
(** ** Global replacements *)

Lemma replace_from_step (n : nat) (r : regex) (by_ sn rs : jsstring) :
  replace_from (S n) r by_ sn rs =
  match match_here r sn rs with
  | Some (st, st') =>
      if Nat.ltb (length (rest st')) (length rs)
      then by_ ++ replace_from n r by_ (seen st') (rest st')
      else match rs with
           | [] => by_
           | c :: rs' => by_ ++ c :: replace_from n r by_ (c :: sn) rs'
           end
  | None =>
      match rs with
      | [] => []
      | c :: rs' => c :: replace_from n r by_ (c :: sn) rs'
      end
  end.
Proof. reflexivity. Qed.

(** Replacing every character of a class. *)
Lemma replace_all_class (p : N -> bool) (by_ s : jsstring) :
  replace_all (Chr p) by_ s = flat_map (fun c => if p c then by_ else [c]) s.
Proof.
  unfold replace_all.
  assert (H : forall sn,
             replace_from (S (length s)) (Chr p) by_ sn s
             = flat_map (fun c => if p c then by_ else [c]) s);
    [|apply H].
  induction s as [|c s IH]; intros sn; [reflexivity|].
  cbn [length flat_map]. rewrite replace_from_step.
  unfold match_here. cbn [exec rest].
  destruct (p c).
  - cbn [rest seen length].
    assert (Hlt : Nat.ltb (length s) (S (length s)) = true)
      by (apply Nat.ltb_lt; lia).
    rewrite Hlt, IH. reflexivity.
  - rewrite IH. reflexivity.
Qed.

Lemma replace_all_delete (p : N -> bool) (s : jsstring) :
  replace_all (Chr p) [] s = filter (fun c => negb (p c)) s.
Proof.
  rewrite replace_all_class.
  induction s as [|c s IH]; simpl; [reflexivity|].
  destruct (p c); simpl; rewrite IH; reflexivity.
Qed.

Lemma replace_all_map (p : N -> bool) (x : N) (s : jsstring) :
  replace_all (Chr p) [x] s = map (fun c => if p c then x else c) s.
Proof.
  rewrite replace_all_class.
  induction s as [|c s IH]; simpl; [reflexivity|].
  destruct (p c); simpl; rewrite IH; reflexivity.
Qed.

Lemma past_length (p : N -> bool) (s : jsstring) : length (past p s) <= length s.
Proof.
  induction s as [|c s IH]; simpl; [lia|].
  destruct (p c); simpl; lia.
Qed.

Lemma squeeze_in_run (p : N -> bool) (by_ s : jsstring) :
  squeeze_in p by_ true s = squeeze_in p by_ false (past p s).
Proof.
  induction s as [|c s IH]; simpl; [reflexivity|].
  destruct (p c) eqn:E; simpl; [exact IH | rewrite E; reflexivity].
Qed.

(** Replacing every run of characters of a class. *)
Lemma replace_from_runs (p : N -> bool) (by_ : jsstring) (n : nat)
      (sn rs : jsstring) :
  length rs < n ->
  replace_from n (Plus (Chr p)) by_ sn rs = squeeze p by_ rs.
Proof.
  revert sn rs. induction n as [|n IH]; intros sn rs Hn; [lia|].
  rewrite replace_from_step. unfold match_here, Plus. rewrite exec_chr_seq.
  cbn [rest seen caps].
  destruct rs as [|c rs]; [reflexivity|].
  unfold squeeze. cbn [squeeze_in].
  destruct (p c).
  - destruct (exec_star_class_first p (c :: sn) rs []) as (others & ->).
    cbn [rest seen].
    assert (Hlt : Nat.ltb (length (past p rs)) (length (c :: rs)) = true).
    { apply Nat.ltb_lt. pose proof (past_length p rs). simpl. lia. }
    rewrite Hlt, squeeze_in_run. f_equal.
    apply IH. pose proof (past_length p rs). simpl in Hn. lia.
  - f_equal. apply IH. simpl in Hn. lia.
Qed.

Lemma replace_all_runs (p : N -> bool) (by_ s : jsstring) :
  replace_all (Plus (Chr p)) by_ s = squeeze p by_ s.
Proof. apply replace_from_runs. lia. Qed.

(** A global replacement writes nothing but characters of the input and of
    the replacement. *)
Lemma replace_from_Forall (Q : N -> Prop) (r : regex) (by_ : jsstring)
      (n : nat) (sn rs : jsstring) :
  Forall Q by_ -> Forall Q rs -> Forall Q (replace_from n r by_ sn rs).
Proof.
  intros Hby. revert sn rs. induction n as [|n IH]; intros sn rs Hrs;
    [exact Hrs|].
  rewrite replace_from_step. unfold match_here.
  destruct (exec r (MState sn rs [])) as [|st' l] eqn:E.
  - destruct rs as [|c rs]; [constructor|]. inversion Hrs; subst.
    constructor; [assumption | apply IH; assumption].
  - assert (Hin : In st' (exec r (MState sn rs []))) by (rewrite E; left; reflexivity).
    apply exec_reads in Hin as (w & [_ Hr] & _). cbn [rest] in Hr.
    destruct (Nat.ltb (length (rest st')) (length rs)).
    + apply Forall_app. split; [assumption|]. apply IH.
      rewrite Hr in Hrs. apply Forall_app in Hrs. tauto.
    + destruct rs as [|c rs]; [assumption|]. inversion Hrs; subst.
      apply Forall_app. split; [assumption|].
      constructor; [assumption | apply IH; assumption].
Qed.

Lemma replace_all_Forall (Q : N -> Prop) (r : regex) (by_ s : jsstring) :
  Forall Q by_ -> Forall Q s -> Forall Q (replace_all r by_ s).
Proof. apply replace_from_Forall. Qed.

(* ================================================================== *)
(** ** Trimming *)

Lemma drop_spaces_startsClean (s : jsstring) : startsClean (drop_spaces s) = true.
Proof.
  induction s as [|c s IH]; simpl; [reflexivity|].
  destruct (is_space c) eqn:E; [exact IH|]. simpl. rewrite E. reflexivity.
Qed.

Lemma drop_spaces_id (s : jsstring) : startsClean s = true -> drop_spaces s = s.
Proof.
  destruct s as [|c s]; simpl; [reflexivity|].
  intros H. apply negb_true_iff in H. rewrite H. reflexivity.
Qed.

Lemma drop_spaces_split (s : jsstring) :
  exists l, s = l ++ drop_spaces s /\ forallb is_space l = true.
Proof.
  induction s as [|c s (l & Hs & Hl)]; simpl.
  - exists []. auto.
  - destruct (is_space c) eqn:E.
    + exists (c :: l). simpl. rewrite E, Hl. split; [congruence | reflexivity].
    + exists []. auto.
Qed.

(** [trim] removes a stretch of blanks on either side and nothing else. *)
Lemma trim_split (s : jsstring) :
  exists l r,
    s = l ++ trim s ++ r
    /\ forallb is_space l = true /\ forallb is_space r = true.
Proof.
  unfold trim.
  destruct (drop_spaces_split s) as (l & Hs & Hl).
  destruct (drop_spaces_split (rev (drop_spaces s))) as (w & Hu & Hw).
  exists l, (rev w). split; [|split; [assumption|]].
  - rewrite Hs at 1. f_equal.
    rewrite <- (rev_involutive (drop_spaces s)) at 1.
    rewrite Hu at 1. rewrite rev_app_distr. reflexivity.
  - rewrite forallb_forall in Hw |- *. intros c Hc. apply Hw, in_rev, Hc.
Qed.

Lemma trim_trimmed (s : jsstring) : trimmed (trim s) = true.
Proof.
  unfold trimmed. apply andb_true_iff. split.
  - unfold trim.
    destruct (drop_spaces_split (rev (drop_spaces s))) as (w & Hu & _).
    pose proof (drop_spaces_startsClean s) as Hc.
    rewrite <- (rev_involutive (drop_spaces s)) in Hc.
    rewrite Hu, rev_app_distr in Hc.
    destruct (rev (drop_spaces (rev (drop_spaces s)))); [reflexivity | exact Hc].
  - unfold trim. rewrite rev_involutive. apply drop_spaces_startsClean.
Qed.

Lemma trim_id (s : jsstring) : trimmed s = true -> trim s = s.
Proof.
  unfold trimmed, trim. intros H. apply andb_true_iff in H as [H1 H2].
  rewrite (drop_spaces_id s H1), (drop_spaces_id (rev s) H2).
  apply rev_involutive.
Qed.

Lemma trim_Forall (Q : N -> Prop) (s : jsstring) :
  Forall Q s -> Forall Q (trim s).
Proof.
  intros H. destruct (trim_split s) as (l & r & Hs & _).
  rewrite Hs in H. apply Forall_app in H as [_ H].
  apply Forall_app in H as [H _]. exact H.
Qed.

Lemma trim_blank (s : jsstring) : forallb is_space s = true -> trim s = [].
Proof.
  intros H. unfold trim.
  assert (Hd : drop_spaces s = []).
  { induction s as [|c s IH]; simpl in *; [reflexivity|].
    apply andb_true_iff in H as [Hc Hs]. rewrite Hc. apply IH, Hs. }
  rewrite Hd. reflexivity.
Qed.

(** ** Single blanks *)

Lemma spaced_prefix (b : bool) (x y : jsstring) :
  spaced b (x ++ y) = true -> spaced b x = true.
Proof.
  revert b. induction x as [|c x IH]; intros b; simpl; [reflexivity|].
  destruct (is_space c).
  - rewrite !andb_true_iff. intros [H1 H2]. split; [assumption | eapply IH; eauto].
  - apply IH.
Qed.

Lemma spaced_suffix (b : bool) (x y : jsstring) :
  spaced b (x ++ y) = true -> exists b', spaced b' y = true.
Proof.
  revert b. induction x as [|c x IH]; intros b; simpl; [eauto|].
  destruct (is_space c).
  - rewrite !andb_true_iff. intros [_ H]. eapply IH; eauto.
  - apply IH.
Qed.

Lemma spaced_startsClean (b : bool) (s : jsstring) :
  spaced b s = true -> startsClean s = true -> spaced false s = true.
Proof.
  destruct s as [|c s]; simpl; [reflexivity|].
  intros H Hc. apply negb_true_iff in Hc. rewrite Hc in *. exact H.
Qed.

Lemma trim_spaced (s : jsstring) :
  spaced false s = true -> spaced false (trim s) = true.
Proof.
  intros H. destruct (trim_split s) as (l & r & Hs & _).
  rewrite Hs in H. apply spaced_suffix in H as (b' & H).
  pose proof (trim_trimmed s) as Ht. unfold trimmed in Ht.
  apply andb_true_iff in Ht as [Ht _].
  apply spaced_prefix in H.
  eapply spaced_startsClean; eauto.
Qed.

Lemma squeeze_spaced (b : bool) (s : jsstring) :
  spaced b (squeeze_in is_space [32%N] b s) = true.
Proof.
  revert b. induction s as [|c s IH]; intros b; simpl; [reflexivity|].
  destruct (is_space c) eqn:E.
  - destruct b; simpl; [apply IH|]. rewrite IH. reflexivity.
  - simpl. rewrite E. apply IH.
Qed.

Lemma squeeze_id (b : bool) (s : jsstring) :
  spaced b s = true -> squeeze_in is_space [32%N] b s = s.
Proof.
  revert b. induction s as [|c s IH]; intros b; simpl; [reflexivity|].
  destruct (is_space c).
  - rewrite !andb_true_iff. intros [[Hb Hc] Hs].
    apply negb_true_iff in Hb. apply N.eqb_eq in Hc. subst b c.
    simpl. rewrite IH by assumption. reflexivity.
  - intros H. rewrite IH by assumption. reflexivity.
Qed.

Lemma squeeze_Forall (Q : N -> Prop) (p : N -> bool) (by_ : jsstring)
      (b : bool) (s : jsstring) :
  Forall Q by_ -> Forall Q s -> Forall Q (squeeze_in p by_ b s).
Proof.
  intros Hby. revert b. induction s as [|c s IH]; intros b Hs; simpl;
    [constructor|].
  inversion Hs; subst.
  destruct (p c).
  - apply Forall_app. split; [destruct b; [constructor | assumption]|].
    apply IH. assumption.
  - constructor; [assumption | apply IH; assumption].
Qed.

(** ** What survives the cleaning *)

Lemma visible_not_space (l : jsstring) :
  forallb is_space l = true -> filter visible l = [].
Proof.
  induction l as [|c l IH]; simpl; [reflexivity|].
  intros H. apply andb_true_iff in H as [Hc Hl].
  unfold visible at 1. rewrite Hc, andb_false_r. apply IH, Hl.
Qed.

Lemma trim_visible (s : jsstring) : filter visible (trim s) = filter visible s.
Proof.
  destruct (trim_split s) as (l & r & Hs & Hl & Hr).
  rewrite Hs at 2. rewrite !filter_app.
  rewrite (visible_not_space l Hl), (visible_not_space r Hr), app_nil_r.
  reflexivity.
Qed.

Lemma squeeze_visible (b : bool) (s : jsstring) :
  filter visible (squeeze_in is_space [32%N] b s) = filter visible s.
Proof.
  revert b. induction s as [|c s IH]; intros b; simpl; [reflexivity|].
  destruct (is_space c) eqn:E.
  - unfold visible at 2. rewrite E, andb_false_r.
    rewrite filter_app, IH.
    destruct b; [reflexivity|]. reflexivity.
  - simpl. rewrite IH. reflexivity.
Qed.

Lemma legal_visible (s : jsstring) :
  filter visible (filter (fun c => negb (illegal c)) s) = filter visible s.
Proof.
  induction s as [|c s IH]; simpl; [reflexivity|].
  destruct (illegal c) eqn:E; simpl.
  - unfold visible at 2. rewrite E. simpl. exact IH.
  - rewrite IH. reflexivity.
Qed.

(* ================================================================== *)
(** ** The sanitizers of file names *)

Lemma safeName_eq (s : jsstring) :
  Serverless.safeName s
  = trim (squeeze is_space [32%N] (filter (fun c => negb (illegal c)) s)).
Proof.
  unfold Serverless.safeName, re_spaces, re_illegal.
  rewrite replace_all_delete, replace_all_runs. reflexivity.
Qed.

Lemma forallb_Forall_true (p : N -> bool) (s : jsstring) :
  forallb p s = true <-> Forall (fun c => p c = true) s.
Proof. rewrite forallb_forall, Forall_forall. reflexivity. Qed.

Lemma safeName_cleans (s : jsstring) : cleanName (Serverless.safeName s).
Proof.
  rewrite safeName_eq. split; [|split].
  - apply forallb_Forall_true, trim_Forall, squeeze_Forall.
    + repeat constructor.
    + apply Forall_forall. intros c Hc. apply filter_In in Hc. tauto.
  - apply trim_trimmed.
  - apply trim_spaced, squeeze_spaced.
Qed.

Lemma clean_fixed (t : jsstring) : cleanName t -> Serverless.safeName t = t.
Proof.
  intros (Hl & Ht & Hs). rewrite safeName_eq.
  assert (Hf : filter (fun c => negb (illegal c)) t = t).
  { apply forallb_filter_id. exact Hl. }
  rewrite Hf. unfold squeeze. rewrite (squeeze_id false t Hs).
  apply trim_id, Ht.
Qed.

(** The cleaning of the serverless handler returns a name without illegal
    character, without blank at either end, and whose blanks are single
    plain spaces.  Cleaning a name twice changes nothing more, the names
    cleaning leaves alone are exactly the clean ones, and cleaning neither
    drops nor moves a character that is legal and not a blank. *)
Theorem safeName_clean_idempotent (s : jsstring) :
  cleanName (Serverless.safeName s)
  /\ Serverless.safeName (Serverless.safeName s) = Serverless.safeName s
  /\ (Serverless.safeName s = s <-> cleanName s)
  /\ filter visible (Serverless.safeName s) = filter visible s.
Proof.
  split; [apply safeName_cleans|].
  split; [apply clean_fixed, safeName_cleans|]. split.
  - split; [intros H; rewrite <- H; apply safeName_cleans | apply clean_fixed].
  - rewrite safeName_eq, trim_visible. unfold squeeze.
    rewrite squeeze_visible. apply legal_visible.
Qed.

Lemma safePdfFileName_eq (name : jsstring) :
  Backend.safePdfFileName name =
  match Serverless.safeName name with
  | [] => str "Documento"
  | cleaned => cleaned
  end.
Proof.
  unfold Backend.safePdfFileName, Serverless.safeName.
  destruct (trim _); reflexivity.
Qed.

Lemma safePdfFileName_cleans (name : jsstring) :
  cleanName (Backend.safePdfFileName name).
Proof.
  rewrite safePdfFileName_eq. pose proof (safeName_cleans name) as H.
  destruct (Serverless.safeName name); [|exact H].
  repeat split; vm_compute; reflexivity.
Qed.

(** The cleaning of the single-backend server returns a clean name that is
    never empty, and cleaning its result again returns it unchanged. *)
Theorem safePdfFileName_clean (name : jsstring) :
  Backend.safePdfFileName name <> []
  /\ cleanName (Backend.safePdfFileName name)
  /\ Backend.safePdfFileName (Backend.safePdfFileName name)
     = Backend.safePdfFileName name.
Proof.
  pose proof (safePdfFileName_cleans name) as Hc.
  split; [apply safePdfFileName_not_empty|]. split; [exact Hc|].
  rewrite (safePdfFileName_eq (Backend.safePdfFileName name)).
  rewrite (clean_fixed Hc).
  pose proof (safePdfFileName_not_empty name) as Hne.
  destruct (Backend.safePdfFileName name); [congruence | reflexivity].
Qed.

(** The cleaning of the in-browser variant returns at most 140 code units,
    none of them illegal: the first 140 of the clean name. *)
Theorem safeFilenamePart_bounded (s : jsstring) :
  length (Client.safeFilenamePart s) <= 140
  /\ forallb (fun c => negb (illegal c)) (Client.safeFilenamePart s) = true
  /\ Client.safeFilenamePart s = firstn 140 (Serverless.safeName s)
  /\ (length (Serverless.safeName s) <= 140 ->
      Client.safeFilenamePart s = Serverless.safeName s).
Proof.
  assert (E : Client.safeFilenamePart s = firstn 140 (Serverless.safeName s))
    by reflexivity.
  split; [rewrite E; apply firstn_le_length|].
  split; [|split; [exact E|]].
  - rewrite E. destruct (safeName_cleans s) as (Hl & _).
    apply forallb_Forall_true. apply forallb_Forall_true in Hl.
    rewrite <- (firstn_skipn 140 (Serverless.safeName s)) in Hl.
    apply Forall_app in Hl. tauto.
  - intros H. rewrite E. apply firstn_all2. exact H.
Qed.

(* ================================================================== *)
(** ** More on the candidate sanitizer and the extraction *)

Lemma trim_prefix (x : jsstring) :
  startsClean x = true -> exists r, x = trim x ++ r.
Proof.
  intros H. unfold trim. rewrite (drop_spaces_id x H).
  destruct (drop_spaces_split (rev x)) as (w & Hu & _).
  exists (rev w). rewrite <- (rev_involutive x) at 1.
  rewrite Hu at 1. apply rev_app_distr.
Qed.

Lemma startsClean_firstn (n : nat) (s : jsstring) :
  startsClean s = true -> startsClean (firstn n s) = true.
Proof. destruct n, s; simpl; auto. Qed.

Lemma cleanName_startsClean (s : jsstring) : cleanName s -> startsClean s = true.
Proof.
  intros (_ & H & _). unfold trimmed in H. apply andb_true_iff in H. tauto.
Qed.

Section SanitizerMore.
Context `{RT : Runtime}.

(** One turn of the stop-word loop keeps a clean name clean and only cuts
    it short. *)
Lemma cutAt_clean_prefix (s w : jsstring) :
  cleanName s ->
  cleanName (Backend.cutAt s w) /\ exists r, s = Backend.cutAt s w ++ r.
Proof.
  intros Hc. unfold Backend.cutAt.
  destruct (JS.indexOf (32%N :: w) (toLowerCase s)) as [idx|];
    [|split; [assumption | exists []; symmetry; apply app_nil_r]].
  destruct (Nat.ltb 0 idx);
    [|split; [assumption | exists []; symmetry; apply app_nil_r]].
  unfold slice0.
  pose proof (cleanName_startsClean Hc) as Hs.
  destruct Hc as (Hl & _ & Hsp).
  split.
  - split; [|split].
    + apply forallb_Forall_true, trim_Forall.
      apply forallb_Forall_true in Hl.
      rewrite <- (firstn_skipn idx s) in Hl. apply Forall_app in Hl. tauto.
    + apply trim_trimmed.
    + apply trim_spaced. rewrite <- (firstn_skipn idx s) in Hsp.
      eapply spaced_prefix; eauto.
  - destruct (trim_prefix (firstn idx s) (startsClean_firstn idx s Hs)) as (r & Hr).
    exists (r ++ skipn idx s). rewrite app_assoc, <- Hr.
    symmetry. apply firstn_skipn.
Qed.

Lemma cut_all_clean_prefix (ws : list jsstring) (s : jsstring) :
  cleanName s ->
  cleanName (fold_left Backend.cutAt ws s)
  /\ exists r, s = fold_left Backend.cutAt ws s ++ r.
Proof.
  revert s. induction ws as [|w ws IH]; intros s Hc; simpl.
  - split; [assumption | exists []; symmetry; apply app_nil_r].
  - destruct (@cutAt_clean_prefix s w Hc) as (Hc1 & r1 & Hr1).
    destruct (IH _ Hc1) as (Hc2 & r2 & Hr2).
    split; [assumption|]. exists (r2 ++ r1).
    rewrite app_assoc, <- Hr2. exact Hr1.
Qed.

Lemma cleanup_eq (raw : jsstring) :
  Backend.cleanupCandidateName raw =
  let s := fold_left Backend.cutAt Backend.stopWords (Serverless.safeName raw) in
  if Nat.ltb (length s) 4 then None
  else if test Backend.re_reference s then None
  else Some s.
Proof. reflexivity. Qed.

Lemma accepted_clean_prefix (raw s : jsstring) :
  Backend.cleanupCandidateName raw = Some s ->
  cleanName s /\ exists r, Serverless.safeName raw = s ++ r.
Proof.
  pose proof (@cut_all_clean_prefix Backend.stopWords _ (safeName_cleans raw))
    as Hcut.
  rewrite cleanup_eq. cbv zeta.
  set (s0 := fold_left Backend.cutAt Backend.stopWords (Serverless.safeName raw))
    in *.
  destruct (Nat.ltb (length s0) 4); [discriminate|].
  destruct (test Backend.re_reference s0); [discriminate|].
  intros H. assert (E : s0 = s) by congruence. rewrite <- E. exact Hcut.
Qed.

(** The candidate sanitizer only cleans and cuts: a name it accepts is a
    clean name and a prefix of the cleaned capture. *)
Theorem cleanupCandidateName_clean_prefix (raw s : jsstring) :
  Backend.cleanupCandidateName raw = Some s ->
  cleanName s /\ exists r, Serverless.safeName raw = s ++ r.
Proof. apply accepted_clean_prefix. Qed.

Lemma accepted_bounds (raw s : jsstring) :
  Backend.cleanupCandidateName raw = Some s ->
  4 <= length s /\ forallb bare_reference_char s = false.
Proof.
  intros H. apply cleanup_accepts in H as [Hlen Ht].
  split; [assumption|].
  destruct (forallb bare_reference_char s) eqn:Hall; [|reflexivity].
  assert (Hne : s <> []) by (destruct s; [simpl in Hlen; lia | discriminate]).
  rewrite reference_test_fires in Ht; [discriminate | assumption |].
  rewrite forallb_forall in Hall |- *.
  intros c Hc. apply bare_reference_is_ref_char, Hall, Hc.
Qed.

(** The addressee extraction absorbs a failing parser and a text without
    visible content, and whatever name it returns went through the
    sanitizer: it is clean, has four characters or more, and is not a bare
    reference. *)
Theorem extractIntestatario_result (pdfBuffer : Buffer) :
  (pdfParse pdfBuffer = None -> Backend.extractIntestatario pdfBuffer = None)
  /\ (forall rawText,
         pdfParse pdfBuffer = Some rawText ->
         forallb is_space rawText = true ->
         Backend.extractIntestatario pdfBuffer = None)
  /\ (forall name,
         Backend.extractIntestatario pdfBuffer = Some name ->
         cleanName name /\ 4 <= length name
         /\ forallb bare_reference_char name = false).
Proof.
  unfold Backend.extractIntestatario. split; [intros ->; reflexivity|]. split.
  - intros rawText -> Hb. rewrite (trim_blank rawText Hb).
    rewrite orb_true_r. reflexivity.
  - intros name.
    destruct (pdfParse pdfBuffer) as [rawText|]; [|discriminate].
    destruct (negb (truthy rawText) || Nat.eqb (length (trim rawText)) 0);
      [discriminate|].
    rewrite extractFromText_fold. intros H.
    apply firstAccepted_some in H as (i & h & span & _ & _ & Hc & _).
    split; [exact (proj1 (accepted_clean_prefix _ Hc))|].
    exact (accepted_bounds _ Hc).
Qed.

End SanitizerMore.

Lemma cleanupCandidateName_clean_prefix_witness :
  cleanName (str "Mario Rossi")
  /\ exists r,
      Serverless.safeName (str "Mario:  Rossi Via Roma 12")
      = str "Mario Rossi" ++ r.
Proof.
  apply (cleanupCandidateName_clean_prefix (RT := Sample.runtime)
           (str "Mario:  Rossi Via Roma 12")).
  vm_compute; reflexivity.
Defined.

Lemma extractIntestatario_result_witness :
  cleanName (str "Mario Rossi") /\ 4 <= length (str "Mario Rossi")
  /\ forallb bare_reference_char (str "Mario Rossi") = false.
Proof.
  apply (proj2 (proj2 (extractIntestatario_result (RT := Sample.runtime)
                         (Sample.pdf "Intestatario: Mario Rossi" [1])))).
  vm_compute; reflexivity.
Defined.

(* ================================================================== *)
(** ** The archive of the single-backend server *)

Lemma filter_filter (A : Type) (p q : A -> bool) (l : list A) :
  filter p (filter q l) = filter (fun x => q x && p x) l.
Proof.
  induction l as [|x l IH]; simpl; [reflexivity|].
  destruct (q x); simpl; [destruct (p x); rewrite IH|rewrite IH]; reflexivity.
Qed.

Lemma eqb_sym (a b : jsstring) : JS.eqb a b = JS.eqb b a.
Proof.
  destruct (JS.eqb a b) eqn:E.
  - apply eqb_eq in E. subst. symmetry. apply eqb_refl.
  - symmetry. apply eqb_neq. apply eqb_neq in E. congruence.
Qed.

(** Adding keys one at a time, each where it first occurs, lists the keys
    without repetition in the order of their first occurrence. *)
Lemma add_keys_firstSeen (ks0 l : list jsstring) :
  fold_left (fun ks k => if existsb (fun x => JS.eqb x k) ks then ks
                         else ks ++ [k]) l ks0
  = ks0 ++ filter (fun x => negb (existsb (fun y => JS.eqb y x) ks0))
                  (firstSeen l).
Proof.
  revert ks0. induction l as [|k l IH]; intros ks0; simpl.
  - symmetry. apply app_nil_r.
  - rewrite IH. destruct (existsb (fun x => JS.eqb x k) ks0) eqn:E; simpl.
    + f_equal. rewrite filter_filter. apply filter_ext_in. intros x _.
      destruct (JS.eqb x k) eqn:Ex; simpl; [|reflexivity].
      apply eqb_eq in Ex. subst x. rewrite E. reflexivity.
    + rewrite <- app_assoc. simpl. f_equal. f_equal.
      rewrite filter_filter. apply filter_ext. intros x.
      rewrite existsb_app. simpl. rewrite orb_false_r, negb_orb.
      rewrite (eqb_sym k x). apply andb_comm.
Qed.

Section BackendArchive.
Context `{RT : Runtime}.

Lemma addFile_keys (gs : Backend.groups) (f : Backend.File) :
  map fst (Backend.addFile gs f) =
  fold_left (fun ks k => if existsb (fun x => JS.eqb x k) ks then ks
                         else ks ++ [k])
            (match idOf f with Some k => [k] | None => [] end)
            (map fst gs).
Proof.
  unfold Backend.addFile, idOf.
  destruct (Backend.extractGroupIdFromFilename (Backend.originalname f));
    [|reflexivity].
  simpl. apply keys_assign.
Qed.

(** The keys of the groups are the identifiers of the batch, each once, in
    the order in which they first occur among the uploaded files. *)
Lemma groupFiles_keys_order (files : list Backend.File) :
  map fst (Backend.groupFiles files) = firstSeen (idsOf files).
Proof.
  assert (H : forall gs,
             map fst (fold_left Backend.addFile files gs)
             = fold_left (fun ks k => if existsb (fun x => JS.eqb x k) ks then ks
                                      else ks ++ [k])
                         (idsOf files) (map fst gs)).
  { induction files as [|f files IH]; intros gs; [reflexivity|].
    cbn [fold_left idsOf flat_map]. rewrite fold_left_app, IH, addFile_keys.
    reflexivity. }
  unfold Backend.groupFiles. rewrite H, add_keys_firstSeen. simpl.
  apply forallb_filter_id. apply forallb_forall. reflexivity.
Qed.

Lemma processGroups_pages (gs : Backend.groups) (st : Backend.state) :
  forallb (fun g => loads (snd g)) gs = true ->
  exists st',
    Backend.processGroups gs st = Backend.Finished st'
    /\ map snd (Backend.zip st')
       = map snd (Backend.zip st)
           ++ map (fun g => slotPages (snd g))
                  (filter (fun g => completeSlots (snd g)) gs).
Proof.
  revert st. induction gs as [|[id sl] gs IH]; intros st;
    cbn [Backend.processGroups forallb filter snd map].
  - intros _. exists st. split; [reflexivity | symmetry; apply app_nil_r].
  - intros H. apply andb_true_iff in H as [El Hgs].
    destruct (slots_cases sl) as [Hc|(m & a & ->)].
    + rewrite processGroup_incomplete, Hc by assumption. apply IH, Hgs.
    + destruct (processGroup_complete id m a st) as (k & _ & _ & _ & ->).
      assert (Hcs : completeSlots (Backend.MkSlots (Some m) (Some a)) = true)
        by reflexivity.
      rewrite Hcs. cbn [map snd].
      unfold loads in El. unfold slotPages at 1.
      cbn [Backend.main Backend.allegato] in *.
      destruct (PDFDocument_load (Backend.buffer m)) as [pm|];
        [|discriminate].
      destruct (PDFDocument_load (Backend.buffer a)) as [pa|];
        [|discriminate].
      destruct (IH (Backend.MkState
                      (Backend.zip st
                         ++ [(candidate
                                (Backend.finalBaseOf id (Backend.intestatarioOf m a))
                                k, pm ++ pa)])
                      (S (Backend.processedCount st))) Hgs)
        as (st' & -> & Hz).
      exists st'. split; [reflexivity|].
      rewrite Hz. cbn [Backend.zip]. rewrite map_app, <- app_assoc.
      reflexivity.
Qed.

Lemma map_filter_fst (A B C : Type) (f : A -> C) (p : A -> bool)
      (l : list (A * B)) :
  map (fun g => f (fst g)) (filter (fun g => p (fst g)) l)
  = map f (filter p (map fst l)).
Proof.
  induction l as [|[a b] l IH]; simpl; [reflexivity|].
  destruct (p a); simpl; rewrite IH; reflexivity.
Qed.

(** Every group that finishes without throwing has loaded its documents. *)
Lemma processGroups_loaded (gs : Backend.groups) (st st' : Backend.state) :
  Backend.processGroups gs st = Backend.Finished st' ->
  forallb (fun g => loads (snd g)) gs = true.
Proof.
  intros H.
  destruct (forallb (fun g => loads (snd g)) gs) eqn:E; [reflexivity|].
  assert (Hex : existsb (fun g => negb (loads (snd g))) gs = true).
  { clear H. induction gs as [|g gs IH]; [discriminate|].
    cbn [forallb existsb] in *.
    destruct (loads (snd g)); [apply IH, E | reflexivity]. }
  destruct (processGroups_throws gs st Hex) as (st1 & Ht). congruence.
Qed.

(** The archive a request produces holds one document for each complete
    group, in the order in which the identifiers first occur among the
    uploaded files. *)
Lemma runRequest_pages (files : list Backend.File) (st : Backend.state) :
  Backend.runRequest files = Backend.Finished st ->
  map snd (Backend.zip st)
  = map (pairPages files) (filter (isComplete files) (firstSeen (idsOf files))).
Proof.
  intros Hrun. unfold Backend.runRequest in Hrun.
  pose proof (processGroups_loaded _ _ Hrun) as Hload.
  destruct (processGroups_pages (Backend.groupFiles files)
                                (Backend.MkState [] 0) Hload)
    as (st' & Hrun' & Hz).
  rewrite Hrun in Hrun'. injection Hrun' as <-. rewrite Hz. cbn [Backend.zip map app].
  rewrite <- groupFiles_keys_order, <- map_filter_fst.
  assert (Hf : filter (fun g => completeSlots (snd g)) (Backend.groupFiles files)
               = filter (fun g => isComplete files (fst g))
                        (Backend.groupFiles files)).
  { apply filter_ext_in. intros [id sl] Hin. cbn [fst snd].
    apply group_complete, Hin. }
  rewrite Hf. apply map_ext_in. intros [id sl] Hin.
  apply filter_In in Hin as [Hin _]. cbn [fst snd].
  apply group_slots in Hin. subst sl. reflexivity.
Qed.

(** Whenever the server sends an archive, the archive the request produced
    holds one document for each complete group, in the order in which the
    identifiers first occur among the uploaded files: the pages of the last
    main document followed by those of the last attachment.  What is sent
    is this archive as [toBuffer] writes it out, its entries sorted by
    their lower-cased names. *)
Theorem route_documents_in_upload_order (files : list Backend.File)
        (entries : list entry) :
  Backend.route files = SendZip entries ->
  exists st,
    Backend.runRequest files = Backend.Finished st
    /\ map snd (Backend.zip st)
       = map (pairPages files)
             (filter (isComplete files) (firstSeen (idsOf files)))
    /\ entries = Backend.toBuffer (Backend.zip st).
Proof.
  intros H. apply route_SendZip in H as (st & Hrun & <- & _).
  exists st. split; [exact Hrun|]. split; [|reflexivity].
  apply runRequest_pages, Hrun.
Qed.

(** A batch without a complete group is answered with status 400, whether
    its documents can be read or not. *)
Theorem route_without_pair (files : list Backend.File) :
  (forall id, isComplete files id = false) ->
  exists message, Backend.route files = Send 400 message.
Proof.
  intros H. unfold Backend.route.
  destruct (Nat.eqb (length files) 0); [eauto|].
  assert (Hrun : Backend.runRequest files
                 = Backend.Finished (Backend.MkState [] 0)).
  { unfold Backend.runRequest.
    rewrite <- (processGroups_skip (fun _ => false)).
    - replace (filter _ (Backend.groupFiles files)) with (@nil (jsstring * Backend.slots));
        [reflexivity|].
      symmetry. induction (Backend.groupFiles files); [reflexivity | assumption].
    - intros id sl Hin _. rewrite (group_complete files id sl Hin). apply H. }
  rewrite Hrun. simpl. eauto.
Qed.

End BackendArchive.

(* ================================================================== *)
(** ** The names in the archives *)

Lemma digits_legal (d : Decimal.uint) :
  forallb (fun c => negb (illegal c)) (digits_of_uint d) = true.
Proof. induction d; simpl; auto. Qed.

Lemma id_char_legal (c : N) : id_char c = true -> negb (illegal c) = true.
Proof.
  unfold id_char. intros H. apply orb_true_iff in H as [H|H].
  - unfold is_digit, between in H. apply andb_true_iff in H as [H1 H2].
    apply N.leb_le in H1, H2.
    unfold illegal, one_of. cbn [str list_ascii_of_string map existsb].
    repeat match goal with
           | |- context [N.eqb c ?k] =>
               replace (N.eqb c k) with false
                 by (symmetry; apply N.eqb_neq; cbn; lia)
           end.
    reflexivity.
  - apply N.eqb_eq in H. subst c. reflexivity.
Qed.

Lemma ids_legal (g : jsstring) :
  forallb id_char g = true -> forallb (fun c => negb (illegal c)) g = true.
Proof.
  rewrite !forallb_forall. intros H c Hc. apply id_char_legal, H, Hc.
Qed.

Lemma forallb_legal_app (x y : jsstring) :
  forallb (fun c => negb (illegal c)) x = true ->
  forallb (fun c => negb (illegal c)) y = true ->
  forallb (fun c => negb (illegal c)) (x ++ y) = true.
Proof. intros Hx Hy. rewrite forallb_app, Hx, Hy. reflexivity. Qed.

Lemma candidate_safe (base : jsstring) (k : nat) :
  base <> [] ->
  forallb (fun c => negb (illegal c)) base = true ->
  safeFileName (candidate base k).
Proof.
  intros Hne Hl. unfold candidate, Backend.dotPdf.
  destruct (Nat.eqb k 1).
  - split; [apply forallb_legal_app; [assumption | reflexivity]|].
    exists base. auto.
  - split.
    + repeat apply forallb_legal_app; try assumption; try reflexivity.
      apply digits_legal.
    + exists (base ++ str "_" ++ of_nat k). split.
      * destruct base; [congruence | discriminate].
      * rewrite <- !app_assoc. reflexivity.
Qed.

Section ArchiveNames.
Context `{RT : Runtime}.

Lemma finalBaseOf_safe (id : jsstring) (x : option jsstring) :
  id <> [] -> forallb id_char id = true ->
  Backend.finalBaseOf id x <> []
  /\ forallb (fun c => negb (illegal c)) (Backend.finalBaseOf id x) = true.
Proof.
  intros Hne Hid. unfold Backend.finalBaseOf.
  destruct x as [s|]; [destruct (truthy s)|]; try (split; [assumption|apply ids_legal, Hid]).
  destruct (safePdfFileName_cleans s) as (H2 & _).
  split; [apply safePdfFileName_not_empty | exact H2].
Qed.

Lemma idOf_chars (f : Backend.File) (id : jsstring) :
  idOf f = Some id -> id <> [] /\ forallb id_char id = true.
Proof.
  unfold idOf. intros H.
  destruct (group_id_shape _ H) as (d1 & d2 & ds & Hg & _).
  split; [rewrite Hg; discriminate|].
  exact (group_id_chars _ H).
Qed.

(** Every entry of an archive of the single-backend server has a name fit
    for a file system: no illegal character, and the extension [.pdf]
    after a stem that is not empty. *)
Theorem route_names_safe (files : list Backend.File) (entries : list entry) :
  Backend.route files = SendZip entries ->
  Forall (fun e : entry => safeFileName (fst e)) entries.
Proof.
  intros H. eapply route_entries; [|exact H].
  intros b e (id & m & a & pm & pa & k & Hm & _ & _ & _ & _ & _ & Hname & _).
  rewrite Hname.
  apply role_of_last in Hm as (_ & Hid & _). apply hasId_idOf in Hid.
  apply idOf_chars in Hid as [Hne Hc].
  destruct (finalBaseOf_safe (Backend.intestatarioOf m a) Hne Hc) as [H1 H2].
  apply candidate_safe; assumption.
Qed.

End ArchiveNames.

(* ================================================================== *)
(** ** The archive of the serverless handler *)

Lemma replace1_back (a b : N) (s : jsstring) :
  forallb (fun c => negb (N.eqb c b)) s = true ->
  replace1 b a (replace1 a b s) = s.
Proof.
  induction s as [|c s IH]; simpl; [reflexivity|].
  intros H. apply andb_true_iff in H as [Hc Hs].
  destruct (N.eqb c a) eqn:E; simpl.
  - rewrite N.eqb_refl. apply N.eqb_eq in E. congruence.
  - apply negb_true_iff in Hc. rewrite Hc, IH by assumption. reflexivity.
Qed.

Lemma id_char_not_space (c : N) : id_char c = true -> is_space c = false.
Proof.
  unfold id_char. intros H. apply orb_true_iff in H as [H|H].
  - unfold is_digit, between in H. apply andb_true_iff in H as [H1 H2].
    apply N.leb_le in H1, H2. unfold is_space, between.
    repeat match goal with
           | |- context [N.eqb c ?k] =>
               replace (N.eqb c k) with false
                 by (symmetry; apply N.eqb_neq; lia)
           | |- context [N.leb c ?k] =>
               first [ replace (N.leb c k) with false
                         by (symmetry; apply N.leb_gt; lia)
                     | replace (N.leb c k) with true
                         by (symmetry; apply N.leb_le; lia) ]
           | |- context [N.leb ?k c] =>
               first [ replace (N.leb k c) with false
                         by (symmetry; apply N.leb_gt; lia)
                     | replace (N.leb k c) with true
                         by (symmetry; apply N.leb_le; lia) ]
           end.
    reflexivity.
  - apply N.eqb_eq in H. subst c. reflexivity.
Qed.

Lemma no_blank_spaced (b : bool) (s : jsstring) :
  forallb (fun c => negb (is_space c)) s = true -> spaced b s = true.
Proof.
  revert b. induction s as [|c s IH]; intros b; simpl; [reflexivity|].
  intros H. apply andb_true_iff in H as [Hc Hs].
  apply negb_true_iff in Hc. rewrite Hc. apply IH, Hs.
Qed.

Lemma no_blank_trimmed (s : jsstring) :
  forallb (fun c => negb (is_space c)) s = true -> trimmed s = true.
Proof.
  intros H. unfold trimmed.
  assert (Hs : forall t, forallb (fun c => negb (is_space c)) t = true ->
                         startsClean t = true).
  { intros [|c t]; simpl; [reflexivity|].
    intros Ht. apply andb_true_iff in Ht. tauto. }
  rewrite (Hs s H), (Hs (rev s)); [reflexivity|].
  rewrite forallb_forall in H |- *. intros c Hc. apply H, in_rev, Hc.
Qed.

(** An identifier is a clean name. *)
Lemma id_clean (g : jsstring) : forallb id_char g = true -> cleanName g.
Proof.
  intros H.
  assert (Hb : forallb (fun c => negb (is_space c)) g = true).
  { rewrite forallb_forall in H |- *. intros c Hc.
    rewrite (id_char_not_space c (H c Hc)). reflexivity. }
  split; [apply ids_legal, H|]. split; [apply no_blank_trimmed, Hb|].
  apply no_blank_spaced, Hb.
Qed.

(** When the text of the invoice carries no invoice number, the reference
    the serverless handler puts in the name is the identifier itself: the
    hyphen turned into a slash for the default is turned back for the
    name. *)
Theorem default_reference_is_identifier (groupId text intestatario : jsstring) :
  forallb id_char groupId = true ->
  match_group Serverless.re_fattura 1 text = None ->
  Serverless.fileNameOf groupId (Serverless.fatturaOf groupId text) intestatario
  = groupId ++ str " - " ++ groupId ++ str " - "
            ++ Serverless.safeName intestatario ++ str ".pdf".
Proof.
  intros Hid Hno. unfold Serverless.fileNameOf, Serverless.fatturaOf.
  rewrite Hno. cbn [Serverless.orElse].
  rewrite replace1_back.
  - rewrite (clean_fixed (id_clean groupId Hid)). reflexivity.
  - rewrite forallb_forall in Hid |- *. intros c Hc. specialize (Hid c Hc).
    destruct (N.eqb c 47) eqn:E; [|reflexivity].
    apply N.eqb_eq in E. subst c. discriminate.
Qed.

Lemma default_reference_is_identifier_witness :
  Serverless.fileNameOf (str "25-02050")
    (Serverless.fatturaOf (str "25-02050") (str "Intestatario: Mario Rossi"))
    (str "Mario Rossi")
  = str "25-02050" ++ str " - " ++ str "25-02050" ++ str " - "
        ++ Serverless.safeName (str "Mario Rossi") ++ str ".pdf".
Proof.
  apply default_reference_is_identifier; vm_compute; reflexivity.
Defined.

Section ServerlessArchiveOrder.
Context `{RT : Runtime}.

Lemma s_addFile_keys (gs : Serverless.groups) (f : Serverless.UploadedFile) :
  map fst (Serverless.addFile gs f) =
  fold_left (fun ks k => if existsb (fun x => JS.eqb x k) ks then ks
                         else ks ++ [k])
            (match keyOf f with Some k => [k] | None => [] end)
            (map fst gs).
Proof.
  unfold Serverless.addFile, keyOf.
  destruct (match_group re_group_id 1 (Serverless.filename f));
    [|reflexivity].
  simpl. apply keys_push.
Qed.

Lemma s_groupFiles_keys_order (files : list Serverless.UploadedFile) :
  map fst (Serverless.groupFiles files) = firstSeen (keysOf files).
Proof.
  assert (H : forall gs,
             map fst (fold_left Serverless.addFile files gs)
             = fold_left (fun ks k => if existsb (fun x => JS.eqb x k) ks then ks
                                      else ks ++ [k])
                         (keysOf files) (map fst gs)).
  { induction files as [|f files IH]; intros gs; [reflexivity|].
    cbn [fold_left keysOf flat_map]. rewrite fold_left_app, IH, s_addFile_keys.
    reflexivity. }
  unfold Serverless.groupFiles. rewrite H, add_keys_firstSeen. simpl.
  apply forallb_filter_id. apply forallb_forall. reflexivity.
Qed.

(** In a tidy archive the entry of a new group never replaces another. *)
Lemma s_processGroup_appends (files : list Serverless.UploadedFile)
      (done : list jsstring) (id : jsstring)
      (fs : list Serverless.UploadedFile) (st : Serverless.state) :
  In (id, fs) (Serverless.groupFiles files) ->
  ~ In id done ->
  Forall (fun k => forallb id_char k = true) (id :: done) ->
  tidy files done st ->
  2 <= length fs -> groupLoads fs = true ->
  Serverless.processGroup id fs st
  = Some (Serverless.MkState (Serverless.zip st ++ [entryOf files id])
                             (S (Serverless.merged st))).
Proof.
  intros Hin Hnew Hclean (Hm & Hnd & Hall) Hge El.
  rewrite s_processGroup_pair, El by assumption.
  pose proof (s_group_members files id fs Hin) as Hfs.
  assert (Hfresh : ~ In (outputName id fs) (map fst (Serverless.zip st))).
  { intros Hname. apply in_map_iff in Hname as (e & He & Hein).
    rewrite Forall_forall in Hall.
    destruct (Hall e Hein) as (id' & Hid' & _ & _ & Hn & _).
    rewrite Hn in He. unfold outputName in He.
    apply fileNameOf_key_inj in He.
    - subst id'. contradiction.
    - inversion Hclean as [|? ? _ Hd]; subst.
      rewrite Forall_forall in Hd. apply Hd. assumption.
    - inversion Hclean; assumption. }
  rewrite zipFile_fresh by assumption.
  unfold entryOf. rewrite <- Hfs. reflexivity.
Qed.

Lemma s_processGroups_entries (files : list Serverless.UploadedFile)
      (gs : Serverless.groups) (done : list jsstring) (st : Serverless.state) :
  incl gs (Serverless.groupFiles files) ->
  NoDup (done ++ map fst gs) ->
  Forall (fun k => forallb id_char k = true) (done ++ map fst gs) ->
  tidy files done st ->
  forallb (fun g => groupLoads (snd g)) gs = true ->
  exists st',
    Serverless.processGroups gs st = Serverless.Finished st'
    /\ Serverless.zip st'
       = Serverless.zip st
           ++ map (fun g => entryOf files (fst g))
                  (filter (fun g => Nat.leb 2 (length (snd g))) gs).
Proof.
  revert done st. induction gs as [|[id fs] gs IH];
    intros done st Hincl Hnd Hclean Htidy Hload;
    cbn [Serverless.processGroups forallb filter snd fst map] in *.
  - exists st. split; [reflexivity | symmetry; apply app_nil_r].
  - apply andb_true_iff in Hload as [El Hgs].
    assert (Hin : In (id, fs) (Serverless.groupFiles files))
      by (apply Hincl; left; reflexivity).
    assert (Hnew : ~ In id done).
    { intros Hd. apply NoDup_remove_2 in Hnd.
      apply Hnd. apply in_or_app. left. assumption. }
    assert (Hcl : Forall (fun k => forallb id_char k = true) (id :: done)).
    { rewrite Forall_app in Hclean. destruct Hclean as [Hd Hk].
      inversion Hk; subst. constructor; assumption. }
    assert (Hrest : incl gs (Serverless.groupFiles files))
      by (intros g Hg; apply Hincl; right; assumption).
    destruct (Serverless.processGroup id fs st) as [st1|] eqn:E.
    2: { destruct (s_processGroup_loads id fs st El) as (? & E' & _).
         congruence. }
    assert (Ht1 : tidy files (done ++ [id]) st1)
      by (eapply s_processGroup_tidy; eauto).
    destruct (IH (done ++ [id]) st1 Hrest) as (st' & Hrun & Hz); auto.
    + rewrite <- app_assoc. exact Hnd.
    + rewrite <- app_assoc. exact Hclean.
    + exists st'. split; [exact Hrun|]. rewrite Hz.
      destruct (Nat.leb 2 (length fs)) eqn:Ele.
      * apply Nat.leb_le in Ele.
        rewrite (@s_processGroup_appends files done id fs st Hin Hnew Hcl Htidy
                                         Ele El) in E.
        injection E as <-. cbn [Serverless.zip map fst].
        rewrite <- app_assoc. reflexivity.
      * apply Nat.leb_gt in Ele.
        rewrite s_processGroup_small in E by assumption.
        injection E as <-. reflexivity.
Qed.

(** When every document of the complete groups parses and loads, the
    archive of the serverless handler holds one entry for each identifier
    with two files or more, in the order in which the identifiers first
    occur among the uploaded files: the name built from the identifier and
    the text of the first file in sorted order, and the pages of the files
    in sorted order. *)
Theorem handler_entries_in_upload_order (files : list Serverless.UploadedFile)
        (entries : list entry) :
  (forall f, In f files -> leftOut files f = false ->
             pdfParse (Serverless.buffer f) <> None
             /\ PDFDocument_load (Serverless.buffer f) <> None) ->
  Serverless.handler files = SendZip entries ->
  entries
  = map (entryOf files) (filter (isPair files) (firstSeen (keysOf files))).
Proof.
  intros Hload H. apply handler_SendZip in H as (st & Hrun & <- & _).
  apply s_all_groups_load in Hload.
  destruct (@s_processGroups_entries files (Serverless.groupFiles files) []
                                     (Serverless.MkState [] 0))
    as (st' & Hrun' & Hz); auto.
  - apply incl_refl.
  - apply s_groupFiles_keys.
  - apply s_groupFiles_keys.
  - repeat split; constructor.
  - unfold Serverless.runRequest in Hrun. rewrite Hrun in Hrun'.
    injection Hrun' as <-. rewrite Hz. cbn [Serverless.zip app].
    rewrite <- s_groupFiles_keys_order, <- map_filter_fst.
    f_equal. apply filter_ext_in. intros [id fs] Hin. cbn [fst snd].
    rewrite (s_group_members files id fs Hin). reflexivity.
Qed.

Lemma keyOf_chars (f : Serverless.UploadedFile) (id : jsstring) :
  keyOf f = Some id -> id <> [] /\ forallb id_char id = true.
Proof.
  unfold keyOf. intros H.
  destruct (group_id_shape _ H) as (d1 & d2 & ds & Hg & _).
  split; [rewrite Hg; discriminate|].
  exact (group_id_chars _ H).
Qed.

(** Every entry of an archive of the serverless handler has a name fit for
    a file system that starts with the identifier of a complete group. *)
Theorem handler_names_safe (files : list Serverless.UploadedFile)
        (entries : list entry) :
  Serverless.handler files = SendZip entries ->
  Forall (fun e : entry =>
            safeFileName (fst e)
            /\ exists id rest,
                isPair files id = true /\ fst e = id ++ str " - " ++ rest)
         entries.
Proof.
  intros H. apply handler_tidy in H as (done & st & _ & <- & (_ & _ & Hall)).
  eapply Forall_impl; [|exact Hall].
  intros e (id & _ & Hp & _ & Hname & _).
  assert (Hid : id <> [] /\ forallb id_char id = true).
  { unfold isPair in Hp. apply Nat.leb_le in Hp.
    destruct (membersOf id files) as [|f l] eqn:Em; [simpl in Hp; lia|].
    assert (Hf : In f (membersOf id files)) by (rewrite Em; left; reflexivity).
    apply filter_In in Hf as [_ Hk]. apply hasKey_keyOf in Hk.
    exact (keyOf_chars f Hk). }
  destruct Hid as [Hne Hc].
  rewrite Hname. unfold outputName, Serverless.fileNameOf, Serverless.sep.
  split; [split|].
  - repeat apply forallb_legal_app; try reflexivity.
    + apply ids_legal, Hc.
    + apply safeName_cleans.
    + apply safeName_cleans.
  - eexists. split; [|rewrite !app_assoc; reflexivity].
    destruct id; [congruence | discriminate].
  - eexists id, _. split; [assumption | reflexivity].
Qed.

End ServerlessArchiveOrder.

(* ================================================================== *)
(** ** The archive theorems on the sample batches *)

Lemma route_documents_in_upload_order_witness :
  exists st,
    Backend.runRequest Sample.collidingBatch = Backend.Finished st
    /\ map snd (Backend.zip st) = [[1; 2; 3; 4; 5]; [6; 7]; [9]]
    /\ map snd (Backend.zip st)
       = map (pairPages Sample.collidingBatch)
             (filter (isComplete Sample.collidingBatch)
                     (firstSeen (idsOf Sample.collidingBatch))).
Proof.
  destruct (@route_documents_in_upload_order Sample.runtime Sample.collidingBatch
              (Backend.toBuffer (RT := Sample.runtime)
                 [ (str "Mario Rossi.pdf", [1; 2; 3; 4; 5]);
                   (str "Mario Rossi_2.pdf", [6; 7]);
                   (str "Mario Rossi_3.pdf", [9]) ]))
    as (st & Hrun & Hz & _); [vm_compute; reflexivity|].
  exists st. split; [exact Hrun|]. split; [|exact Hz].
  vm_compute in Hrun. injection Hrun as <-. reflexivity.
Defined.

Lemma route_without_pair_witness :
  exists message,
    Backend.route [Sample.file "note.pdf" (Sample.pdf "Intestatario: Mario Rossi" [8])]
    = Send 400 message.
Proof.
  apply (route_without_pair (RT := Sample.runtime)).
  intros id. reflexivity.
Defined.

Lemma route_names_safe_witness :
  Forall (fun e : entry (RT := Sample.runtime) => safeFileName (fst e))
         [ (str "Mario Rossi.pdf", [1; 2; 3; 4; 5]);
           (str "Mario Rossi_2.pdf", [6; 7]);
           (str "Mario Rossi_3.pdf", [9]) ].
Proof.
  apply (route_names_safe (RT := Sample.runtime) Sample.collidingBatch).
  vm_compute. reflexivity.
Defined.

Lemma handler_entries_in_upload_order_witness :
  ([ (str "25-02050 - 25-02050 - Mario Rossi.pdf", [1; 10; 2]) ]
   : list (entry (RT := Sample.runtime)))
  = map (entryOf Sample.indexBatch)
        (filter (isPair Sample.indexBatch) (firstSeen (keysOf Sample.indexBatch))).
Proof.
  apply (handler_entries_in_upload_order (RT := Sample.runtime)).
  - intros f Hin _.
    repeat (destruct Hin as [<-|Hin]; [cbn; split; discriminate|]).
    destruct Hin.
  - vm_compute. reflexivity.
Defined.

Lemma handler_names_safe_witness :
  Forall (fun e : entry (RT := Sample.runtime) =>
            safeFileName (fst e)
            /\ exists id rest,
                isPair Sample.maskedBatch id = true
                /\ fst e = id ++ str " - " ++ rest)
         [ (str "25-02050 - 25-02049 - .pdf", [1; 2]) ].
Proof.
  apply (handler_names_safe (RT := Sample.runtime) Sample.maskedBatch).
  vm_compute. reflexivity.
Defined.

(* ================================================================== *)
(** ** The state of the user interface *)

Lemma firstSeen_snoc (l : list jsstring) (g : jsstring) :
  firstSeen (l ++ [g])
  = if existsb (fun x => JS.eqb x g) l then firstSeen l else firstSeen l ++ [g].
Proof.
  induction l as [|k l IH]; simpl; [reflexivity|].
  rewrite IH. destruct (JS.eqb k g) eqn:E; simpl.
  - apply eqb_eq in E. subst k.
    destruct (existsb (fun x => JS.eqb x g) l); [reflexivity|].
    rewrite filter_app. simpl. rewrite eqb_refl. simpl.
    rewrite app_nil_r. reflexivity.
  - destruct (existsb (fun x => JS.eqb x g) l); [reflexivity|].
    rewrite filter_app. simpl. rewrite (eqb_sym g k), E. reflexivity.
Qed.

Lemma firstSeen_In (l : list jsstring) (x : jsstring) :
  In x (firstSeen l) <-> In x l.
Proof.
  induction l as [|k l IH]; simpl; [tauto|].
  rewrite filter_In, IH. split.
  - intros [H|[H _]]; auto.
  - intros [H|H]; [left; assumption|].
    destruct (JS.eqb x k) eqn:E.
    + apply eqb_eq in E. left. congruence.
    + right. split; [assumption | reflexivity].
Qed.

Lemma firstSeen_NoDup (l : list jsstring) : NoDup (firstSeen l).
Proof.
  induction l as [|k l IH]; simpl; constructor.
  - rewrite filter_In. intros [_ H]. rewrite eqb_refl in H. discriminate.
  - apply NoDup_filter. assumption.
Qed.

Lemma existsb_eqb_In (l : list jsstring) (g : jsstring) :
  existsb (fun x => JS.eqb x g) l = true <-> In g l.
Proof.
  rewrite existsb_exists. split.
  - intros (x & Hx & E). apply eqb_eq in E. congruence.
  - intros H. exists g. split; [assumption | apply eqb_refl].
Qed.

Section UiState.
Context `{RT : Runtime}.

Lemma keyed_some (kf : App.FileWithStatus -> option jsstring)
      (f : App.FileWithStatus) (g k : jsstring) :
  kf f = Some g -> keyed kf k f = JS.eqb g k.
Proof. unfold keyed. intros ->. reflexivity. Qed.

Lemma keyed_none (kf : App.FileWithStatus -> option jsstring)
      (f : App.FileWithStatus) (k : jsstring) :
  kf f = None -> keyed kf k f = false.
Proof. unfold keyed. intros ->. reflexivity. Qed.

Lemma push_map (kf : App.FileWithStatus -> option jsstring)
      (fs : list App.FileWithStatus) (f : App.FileWithStatus) (g : jsstring)
      (L : list jsstring) :
  kf f = Some g -> NoDup L ->
  App.push g f (map (fun k => (k, filter (keyed kf k) fs)) L)
  = map (fun k => (k, filter (keyed kf k) (fs ++ [f]))) L
    ++ (if existsb (fun x => JS.eqb x g) L then [] else [(g, [f])]).
Proof.
  intros Hk. induction L as [|k L IH]; intros Hnd; [reflexivity|].
  inversion Hnd as [|? ? Hnot Hnd']; subst.
  cbn [map App.push existsb]. rewrite filter_app. cbn [filter].
  rewrite (@keyed_some kf f g k Hk), (eqb_sym g k).
  destruct (JS.eqb k g) eqn:E; cbn [orb].
  - apply eqb_eq in E. subst k. cbn [app]. rewrite app_nil_r.
    f_equal. apply map_ext_in. intros k Hin. f_equal.
    rewrite filter_app. cbn [filter]. rewrite (@keyed_some kf f g k Hk).
    assert (En : JS.eqb g k = false)
      by (apply eqb_neq; intros ->; contradiction).
    rewrite En. symmetry. apply app_nil_r.
  - rewrite app_nil_r. cbn [app]. f_equal. apply IH, Hnd'.
Qed.

(** Grouping by a key: one group for each key, where the key first occurs,
    with the files of that key in their order. *)
Lemma grouping_spec (kf : App.FileWithStatus -> option jsstring)
      (fs : list App.FileWithStatus) :
  fold_left (fun acc f => match kf f with
                          | Some g => App.push g f acc
                          | None => acc
                          end) fs []
  = map (fun k => (k, filter (keyed kf k) fs))
        (firstSeen (flat_map (fun f => match kf f with
                                       | Some k => [k]
                                       | None => []
                                       end) fs)).
Proof.
  induction fs as [|f fs IH] using rev_ind; [reflexivity|].
  rewrite fold_left_app. cbn [fold_left]. rewrite IH.
  rewrite flat_map_app. cbn [flat_map]. rewrite app_nil_r.
  destruct (kf f) as [g|] eqn:Ek.
  - rewrite (@push_map kf fs f g _ Ek) by apply firstSeen_NoDup.
    rewrite firstSeen_snoc.
    set (ks := flat_map _ fs).
    assert (Hex : existsb (fun x => JS.eqb x g) (firstSeen ks)
                  = existsb (fun x => JS.eqb x g) ks).
    { apply eq_true_iff_eq. rewrite !existsb_eqb_In. apply firstSeen_In. }
    rewrite Hex. destruct (existsb (fun x => JS.eqb x g) ks) eqn:Eks.
    + apply app_nil_r.
    + rewrite map_app. cbn [map]. do 2 f_equal.
      rewrite filter_app. cbn [filter].
      rewrite (@keyed_some kf f g g Ek), eqb_refl.
      assert (Hnone : filter (keyed kf g) fs = []).
      { destruct (filter (keyed kf g) fs) as [|x l] eqn:Ef; [reflexivity|].
        exfalso.
        assert (Hx : In x (filter (keyed kf g) fs)) by (rewrite Ef; left; reflexivity).
        apply filter_In in Hx as [Hx Hkx]. unfold keyed in Hkx.
        destruct (kf x) as [k|] eqn:Ekx; [|discriminate].
        apply eqb_eq in Hkx. subst k.
        assert (Hin : In g ks).
        { unfold ks. apply in_flat_map. exists x. rewrite Ekx.
          split; [assumption | left; reflexivity]. }
        apply existsb_eqb_In in Hin. congruence. }
      rewrite Hnone. reflexivity.
  - rewrite app_nil_r. apply map_ext. intros k. f_equal.
    rewrite filter_app. cbn [filter]. rewrite (@keyed_none kf f k Ek).
    symmetry. apply app_nil_r.
Qed.

End UiState.

Section UiPairing.
Context `{RT : Runtime}.

Lemma countOf_bump (g k : jsstring) (counts : list (jsstring * nat)) :
  App.countOf g (App.bump k counts)
  = if JS.eqb k g
    then Some (S (match App.countOf g counts with Some n => n | None => 0 end))
    else App.countOf g counts.
Proof.
  induction counts as [|[k' n] cs IH]; cbn [App.bump App.countOf].
  - destruct (JS.eqb k g); reflexivity.
  - destruct (JS.eqb k' k) eqn:E; cbn [App.countOf].
    + apply eqb_eq in E. subst k'. destruct (JS.eqb k g); reflexivity.
    + rewrite IH. destruct (JS.eqb k' g) eqn:E'; [|reflexivity].
      apply eqb_eq in E'. subst k'. rewrite (eqb_sym k g), E. reflexivity.
Qed.

(** [groupCounts] counts the files of each identifier. *)
Lemma groupCounts_counts (g : jsstring) (fs : list App.FileWithStatus) :
  match App.countOf g (App.groupCounts fs) with Some n => n | None => 0 end
  = length (mates g fs).
Proof.
  unfold App.groupCounts, mates, sameKey, keyed.
  induction fs as [|f fs IH] using rev_ind; [reflexivity|].
  rewrite fold_left_app, filter_app, length_app. cbn [fold_left filter].
  destruct (App.key f) as [k|]; cbn [length].
  - rewrite countOf_bump.
    destruct (JS.eqb k g); cbn [length]; rewrite <- IH; lia.
  - rewrite <- IH. lia.
Qed.

Lemma pairedIn_hasMate (fs : list App.FileWithStatus) (f : App.FileWithStatus) :
  App.pairedIn (App.groupCounts fs) f = hasMate fs f.
Proof.
  unfold App.pairedIn, hasMate. destruct (App.key f) as [g|]; [|reflexivity].
  rewrite <- groupCounts_counts.
  destruct (App.countOf g (App.groupCounts fs)); reflexivity.
Qed.

Lemma updatePairing_files (s : App.state) (fs : list App.FileWithStatus) :
  App.files (App.updatePairing s fs) = map (flagged fs) fs.
Proof.
  unfold App.updatePairing. cbn [App.files]. apply map_ext. intros f.
  unfold flagged. rewrite pairedIn_hasMate. reflexivity.
Qed.

Lemma mates_flagged (fs0 fs : list App.FileWithStatus) (g : jsstring) :
  mates g (map (flagged fs0) fs) = map (flagged fs0) (mates g fs).
Proof.
  unfold mates. induction fs as [|f fs IH]; [reflexivity|].
  cbn [map filter].
  change (sameKey g (flagged fs0 f)) with (sameKey g f).
  destruct (sameKey g f); cbn [map]; rewrite IH; reflexivity.
Qed.

Lemma hasMate_flagged (fs0 fs : list App.FileWithStatus) (f : App.FileWithStatus) :
  hasMate (map (flagged fs0) fs) (flagged fs0 f) = hasMate fs f.
Proof.
  unfold hasMate. change (App.key (flagged fs0 f)) with (App.key f).
  destruct (App.key f); [|reflexivity].
  rewrite mates_flagged, length_map. reflexivity.
Qed.

Lemma sound_flagged (fs : list App.FileWithStatus) :
  forallb tagged fs = true -> sound (map (flagged fs) fs) = true.
Proof.
  intros Ht. unfold sound. apply andb_true_iff. split.
  - rewrite forallb_forall in Ht |- *. intros f' Hin.
    apply in_map_iff in Hin as (f & <- & Hin).
    change (tagged (flagged fs f)) with (tagged f). apply Ht, Hin.
  - apply forallb_forall. intros f' Hin.
    apply in_map_iff in Hin as (f & <- & Hin).
    rewrite hasMate_flagged. cbn [flagged App.paired].
    apply eqb_reflx.
Qed.

Lemma sound_tagged (fs : list App.FileWithStatus) :
  sound fs = true -> forallb tagged fs = true.
Proof. unfold sound. intros H. apply andb_true_iff in H. tauto. Qed.

Lemma sound_paired (fs : list App.FileWithStatus) (f : App.FileWithStatus) :
  sound fs = true -> In f fs -> App.paired f = hasMate fs f.
Proof.
  unfold sound. intros H Hin. apply andb_true_iff in H as [_ H].
  rewrite forallb_forall in H. apply eqb_prop, H, Hin.
Qed.

Lemma incomingFile_tagged (x : jsstring * Buffer * jsstring) :
  tagged (App.incomingFile x) = true.
Proof.
  destruct x as [[name content] i]. unfold tagged, App.incomingFile.
  cbn [App.file Client.groupId Client.name].
  destruct (App.extractGroupIdFromFilename name); [apply eqb_refl | reflexivity].
Qed.

Lemma processFiles_files
      (getDocument : Buffer -> option (list (option (list jsstring))))
      (s : App.state) :
  App.files (fst (App.processFiles getDocument s)) = App.files s.
Proof.
  unfold App.processFiles.
  destruct (Nat.eqb (length (App.files s)) 0); [reflexivity|].
  destruct (Nat.eqb (length (App.valid s)) 0); [reflexivity|].
  destruct (App.processGroups _ _ _) as [a|]; [|reflexivity].
  destruct (Nat.eqb (App.mergedCount a) 0); reflexivity.
Qed.

Lemma reachable_sound
      (getDocument : Buffer -> option (list (option (list jsstring))))
      (s : App.state) :
  reachable getDocument s -> sound (App.files s) = true.
Proof.
  induction 1 as [|s l Hr IH|s i Hr IH|s Hr IH|s Hr IH].
  - reflexivity.
  - destruct l as [l|]; [|exact IH]. cbn [App.handleFiles].
    rewrite updatePairing_files. apply sound_flagged.
    rewrite forallb_app. apply andb_true_iff. split.
    + apply sound_tagged, IH.
    + apply forallb_forall. intros f Hin.
      apply in_map_iff in Hin as (x & <- & _). apply incomingFile_tagged.
  - unfold App.removeFile. rewrite updatePairing_files. apply sound_flagged.
    apply sound_tagged in IH. rewrite forallb_forall in IH |- *.
    intros f Hin. apply filter_In in Hin as [Hin _]. apply IH, Hin.
  - reflexivity.
  - rewrite processFiles_files. exact IH.
Qed.

(** On files whose identifiers are those of their names, [updatePairing]
    keeps the files, their order, their names, bytes and identifiers, and
    sets the flag [paired] of a file exactly when two files or more of the
    list carry its identifier; it clears the error and the success
    notice. *)
Theorem updatePairing_flags (s : App.state) (currentFiles : list App.FileWithStatus) :
  forallb tagged currentFiles = true ->
  let s' := App.updatePairing s currentFiles in
  map App.file (App.files s') = map App.file currentFiles
  /\ map App.id (App.files s') = map App.id currentFiles
  /\ map App.paired (App.files s') = map (hasMate currentFiles) currentFiles
  /\ App.error s' = None /\ App.isSuccess s' = false.
Proof.
  intros _. cbv zeta. rewrite updatePairing_files, !map_map.
  repeat split; apply map_ext; reflexivity.
Qed.

(** In every state the component reaches, each file carries the identifier
    its name holds, and its flag [paired] tells whether two files or more
    carry that identifier. *)
Theorem ui_flags_accurate
        (getDocument : Buffer -> option (list (option (list jsstring))))
        (s : App.state) :
  reachable getDocument s ->
  forall f, In f (App.files s) ->
    Client.groupId (App.file f)
    = App.extractGroupIdFromFilename (Client.name (App.file f))
    /\ (App.paired f = true
        <-> exists g, App.key f = Some g /\ 2 <= length (mates g (App.files s))).
Proof.
  intros Hr f Hin. apply reachable_sound in Hr.
  split.
  - apply sound_tagged in Hr. rewrite forallb_forall in Hr.
    specialize (Hr f Hin). unfold tagged in Hr.
    destruct (Client.groupId (App.file f)) as [a|],
             (App.extractGroupIdFromFilename (Client.name (App.file f))) as [b|];
      try discriminate; [|reflexivity].
    apply eqb_eq in Hr. congruence.
  - rewrite (sound_paired _ f Hr Hin). unfold hasMate.
    destruct (App.key f) as [g|].
    + rewrite Nat.leb_le. split.
      * intros H. exists g. split; [reflexivity | assumption].
      * intros (g' & Hg & H). injection Hg as <-. assumption.
    + split; [discriminate | intros (g' & Hg & _); discriminate].
Qed.

Lemma valid_spec (s : App.state) :
  App.valid s
  = map (fun k => (k, mates k (App.files s)))
        (filter (fun k => Nat.leb 2 (length (mates k (App.files s))))
                (firstSeen (uiKeys (App.files s)))).
Proof.
  unfold App.valid, App.groups. rewrite (grouping_spec App.key).
  fold (uiKeys (App.files s)).
  induction (firstSeen (uiKeys (App.files s))) as [|k l IH]; [reflexivity|].
  cbn [map filter snd].
  change (filter (keyed App.key k) (App.files s)) with (mates k (App.files s)).
  destruct (Nat.leb 2 (length (mates k (App.files s)))); cbn [map];
    rewrite IH; reflexivity.
Qed.

Lemma key_in_uiKeys (fs : list App.FileWithStatus) (f : App.FileWithStatus)
      (g : jsstring) :
  In f fs -> App.key f = Some g -> In g (uiKeys fs).
Proof.
  intros Hin Hk. unfold uiKeys. apply in_flat_map. exists f.
  rewrite Hk. split; [assumption | left; reflexivity].
Qed.

Lemma uiKeys_key (fs : list App.FileWithStatus) (g : jsstring) :
  In g (uiKeys fs) -> exists f, In f fs /\ App.key f = Some g.
Proof.
  unfold uiKeys. intros H. apply in_flat_map in H as (f & Hin & Hg).
  exists f. split; [assumption|].
  destruct (App.key f); [destruct Hg as [<-|[]]; reflexivity | destruct Hg].
Qed.

Lemma mates_key (fs : list App.FileWithStatus) (g : jsstring) (f : App.FileWithStatus) :
  In f (mates g fs) <-> In f fs /\ App.key f = Some g.
Proof.
  unfold mates. rewrite filter_In. unfold sameKey, keyed.
  destruct (App.key f) as [k|].
  - rewrite eqb_eq. split; intros [H1 H2]; split; congruence.
  - split; intros [H1 H2]; discriminate.
Qed.

(** Some file is flagged exactly when some group is valid. *)
Lemma paired_iff_valid (s : App.state) :
  sound (App.files s) = true ->
  App.hasAnyPairedGroup s = negb (Nat.eqb (length (App.valid s)) 0).
Proof.
  intros Hs. rewrite valid_spec, length_map. unfold App.hasAnyPairedGroup.
  set (fs := App.files s) in *.
  destruct (filter _ (firstSeen (uiKeys fs))) as [|k l] eqn:Ef; cbn [length Nat.eqb negb].
  - destruct (existsb App.paired fs) eqn:Ex; [|reflexivity].
    apply existsb_exists in Ex as (f & Hin & Hp).
    rewrite (sound_paired _ f Hs Hin) in Hp. unfold hasMate in Hp.
    destruct (App.key f) as [g|] eqn:Ek; [|discriminate].
    assert (Hg : In g (filter (fun k => Nat.leb 2 (length (mates k fs)))
                              (firstSeen (uiKeys fs)))).
    { apply filter_In. split; [|assumption].
      apply firstSeen_In. eapply key_in_uiKeys; eauto. }
    rewrite Ef in Hg. destruct Hg.
  - assert (Hk : In k (filter (fun k => Nat.leb 2 (length (mates k fs)))
                              (firstSeen (uiKeys fs))))
      by (rewrite Ef; left; reflexivity).
    apply filter_In in Hk as [Hk Hge].
    apply (proj1 (firstSeen_In _ _)) in Hk.
    apply uiKeys_key in Hk as (f & Hin & Hkey).
    apply existsb_exists. exists f. split; [assumption|].
    rewrite (sound_paired _ f Hs Hin). unfold hasMate. rewrite Hkey. exact Hge.
Qed.

End UiPairing.

Section UiAndServers.
Context `{RT : Runtime}.

Lemma tagged_key (f : App.FileWithStatus) :
  tagged f = true -> App.key f = keyOf (uploaded f).
Proof.
  unfold tagged, App.key, keyOf, uploaded, App.extractGroupIdFromFilename.
  cbn [Serverless.filename].
  destruct (Client.groupId (App.file f)) as [a|];
    destruct (match_group re_group_id 1 (Client.name (App.file f))) as [b|] eqn:E;
    try discriminate; [|reflexivity].
  intros H. apply eqb_eq in H. subst b.
  destruct (group_id_shape _ E) as (d1 & d2 & ds & -> & _). reflexivity.
Qed.

Lemma mates_membersOf (fs : list App.FileWithStatus) (g : jsstring) :
  forallb tagged fs = true ->
  map uploaded (mates g fs) = membersOf g (map uploaded fs).
Proof.
  unfold mates, membersOf. induction fs as [|f fs IH]; [reflexivity|].
  cbn [forallb map filter]. intros H. apply andb_true_iff in H as [Hf Hfs].
  assert (E : sameKey g f = hasKey g (uploaded f)).
  { unfold sameKey, keyed, hasKey. rewrite (tagged_key f Hf). reflexivity. }
  rewrite E. destruct (hasKey g (uploaded f)); cbn [map]; rewrite IH;
    auto.
Qed.

Lemma s_processGroups_counts (gs : Serverless.groups) (st st' : Serverless.state) :
  Serverless.processGroups gs st = Serverless.Finished st' ->
  Serverless.merged st'
  = Serverless.merged st + length (filter (fun g => Nat.leb 2 (length (snd g))) gs).
Proof.
  revert st. induction gs as [|[id fs] gs IH]; intros st;
    cbn [Serverless.processGroups filter snd].
  - intros H. injection H as <-. simpl. lia.
  - destruct (Serverless.processGroup id fs st) as [st1|] eqn:E; [|discriminate].
    intros H. rewrite (IH _ H).
    destruct (Nat.leb 2 (length fs)) eqn:El.
    + apply Nat.leb_le in El. rewrite s_processGroup_pair in E by assumption.
      destruct (groupLoads fs); [|discriminate]. injection E as <-.
      cbn [Serverless.merged length]. lia.
    + apply Nat.leb_gt in El. rewrite s_processGroup_small in E by assumption.
      injection E as <-. lia.
Qed.

Lemma paired_has_mates (fs : list App.FileWithStatus) :
  sound fs = true -> existsb App.paired fs = true ->
  exists g, 2 <= length (mates g fs).
Proof.
  intros Hs Hp. apply existsb_exists in Hp as (f & Hin & Hp).
  rewrite (sound_paired _ f Hs Hin) in Hp. unfold hasMate in Hp.
  destruct (App.key f) as [g|]; [|discriminate].
  exists g. apply Nat.leb_le, Hp.
Qed.

(** The hint under the button of the in-browser variant is shown exactly
    when [processFiles] finds no valid group. *)
Theorem hint_iff_no_valid_group
        (getDocument : Buffer -> option (list (option (list jsstring))))
        (s : App.state) :
  reachable getDocument s ->
  App.hasAnyPairedGroup s = negb (Nat.eqb (length (App.valid s)) 0).
Proof. intros H. apply paired_iff_valid. exact (reachable_sound H). Qed.

(** A batch the user interface lets through passes the two guards of the
    serverless handler: once some file is flagged as paired, the handler
    answers the posted files with an archive or with status 500, never with
    status 400. *)
Theorem paired_batch_passes_handler_guards
        (getDocument : Buffer -> option (list (option (list jsstring))))
        (s : App.state) (status : nat) (message : string) :
  reachable getDocument s ->
  App.hasAnyPairedGroup s = true ->
  Serverless.handler (map uploaded (App.files s)) = Send status message ->
  status = 500.
Proof.
  intros Hr Hp. apply reachable_sound in Hr.
  destruct (paired_has_mates _ Hr Hp) as (g & Hg).
  set (files := map uploaded (App.files s)).
  assert (Hpair : isPair files g = true).
  { unfold isPair, files. rewrite <- mates_membersOf by (apply sound_tagged, Hr).
    rewrite length_map. apply Nat.leb_le, Hg. }
  assert (Hlen : Nat.ltb (length files) 2 = false).
  { apply Nat.ltb_ge. unfold isPair in Hpair. apply Nat.leb_le in Hpair.
    eapply Nat.le_trans; [exact Hpair | apply filter_length_le]. }
  unfold Serverless.handler. rewrite Hlen.
  destruct (Serverless.runRequest files) as [st|st] eqn:Erun;
    cbn [Serverless.respond].
  - apply s_processGroups_counts in Erun. cbn [Serverless.merged] in Erun.
    destruct (Nat.eqb (Serverless.merged st) 0) eqn:E0; [|discriminate].
    apply Nat.eqb_eq in E0. exfalso.
    assert (Hnone : forall id, isPair files id = false).
    { apply s_no_pair. lia. }
    rewrite Hnone in Hpair. discriminate.
  - intros H. injection H as <- _. reflexivity.
Qed.

Lemma two_members (A : Type) (l : list A) (x y : A) :
  In x l -> In y l -> x <> y -> 2 <= length l.
Proof.
  intros Hx Hy Hne.
  assert (Hnd : NoDup [x; y]).
  { constructor; [intros [H|[]]; congruence|]. constructor; [intros []|constructor]. }
  apply (NoDup_incl_length Hnd).
  intros z [<-|[<-|[]]]; assumption.
Qed.

(** The single-backend server merges nothing for a batch in which the user
    interface flags no file: an archive in answer to the posted files means
    that some file was flagged as paired. *)
Theorem archive_means_paired
        (getDocument : Buffer -> option (list (option (list jsstring))))
        (s : App.state) (entries : list entry) :
  reachable getDocument s ->
  Backend.route (map posted (App.files s)) = SendZip entries ->
  App.hasAnyPairedGroup s = true.
Proof.
  intros Hr H. apply reachable_sound in Hr.
  set (fs := App.files s) in *.
  pose proof (route_SendZip _ H) as (st & Hrun & _ & Hcount).
  apply route_wellFormed in H as (st' & Hrun' & _ & Hlen & _ & Hall).
  rewrite Hrun in Hrun'. injection Hrun' as <-.
  destruct (Backend.zip st) as [|e produced];
    [simpl in Hlen; contradiction|].
  destruct Hall as [(id & m & a & pm & pa & k & Hm & Ha & _) _].
  apply role_of_last in Hm as (Hmin & Hmid & Hmrole).
  apply role_of_last in Ha as (Hain & Haid & Harole).
  apply in_map_iff in Hmin as (fm & <- & Hfm).
  apply in_map_iff in Hain as (fa & <- & Hfa).
  pose proof (sound_tagged _ Hr) as Ht. rewrite forallb_forall in Ht.
  assert (Hkm : App.key fm = Some id).
  { rewrite (tagged_key fm (Ht fm Hfm)). apply hasId_idOf in Hmid. exact Hmid. }
  assert (Hka : App.key fa = Some id).
  { rewrite (tagged_key fa (Ht fa Hfa)). apply hasId_idOf in Haid. exact Haid. }
  assert (Hne : fm <> fa).
  { intros ->. rewrite Harole in Hmrole. discriminate. }
  unfold App.hasAnyPairedGroup. apply existsb_exists. exists fm.
  split; [assumption|].
  rewrite (sound_paired _ fm Hr Hfm). unfold hasMate. rewrite Hkm.
  apply Nat.leb_le.
  apply (@two_members _ (mates id fs) fm fa); [| |assumption];
    apply mates_key; auto.
Qed.

End UiAndServers.

Lemma hint_iff_no_valid_group_witness :
  App.hasAnyPairedGroup SampleUi.unpaired
  = negb (Nat.eqb (length (App.valid SampleUi.unpaired)) 0).
Proof.
  apply (hint_iff_no_valid_group (RT := Sample.runtime) (getDocument := SampleUi.getDocument)).
  repeat constructor.
Defined.

(* ================================================================== *)
(** ** What a group captures *)

Lemma star_loop_captures (i : nat) (bs : list regex)
      (step : mstate -> list mstate) (greedy : bool) :
  captures i bs step -> forall n, captures i bs (star_loop step greedy n).
Proof.
  intros Hstep n. induction n as [|n IH]; intros st st' Hin.
  - destruct Hin as [<-|[]]. left. reflexivity.
  - cbn [star_loop] in Hin.
    assert (Hcases :
              st' = st \/
              In st' (flat_map
                        (fun st1 =>
                           if Nat.ltb (length (rest st1)) (length (rest st))
                           then star_loop step greedy n st1 else [])
                        (step st))).
    { destruct greedy.
      - apply in_app_or in Hin as [Hin|[<-|[]]]; auto.
      - destruct Hin as [<-|Hin]; auto. }
    destruct Hcases as [->|Hmore]; [left; reflexivity|].
    apply in_flat_map in Hmore as (st1 & H1 & Hrest).
    destruct (Nat.ltb (length (rest st1)) (length (rest st)));
      [|inversion Hrest].
    apply IH in Hrest as [Hk|Hc]; [|right; exact Hc].
    rewrite Hk. apply Hstep, H1.
Qed.

Lemma captures_incl (i : nat) (bs bs' : list regex)
      (step : mstate -> list mstate) :
  incl bs bs' -> captures i bs step -> captures i bs' step.
Proof.
  intros Hincl H st st' Hin.
  destruct (H st st' Hin) as [Hk|(a & w & Ha & Hw & Hl)]; [left; exact Hk|].
  right. exists a, w. auto.
Qed.

Lemma exec_captures (i : nat) (r : regex) : captures i (bodies i r) (exec r).
Proof.
  induction r as [|p|a IHa b IHb|a IHa b IHb|g a IHa|j a IHa| | |];
    cbn [bodies exec].
  - intros st st' [<-|[]]. left. reflexivity.
  - intros st st' Hin. destruct (rest st) as [|c tl]; [inversion Hin|].
    destruct (p c); [|inversion Hin]. destruct Hin as [<-|[]]. left. reflexivity.
  - intros st st' Hin. apply in_flat_map in Hin as (st1 & H1 & H2).
    apply (captures_incl (bs' := bodies i a ++ bodies i b)) in IHa;
      [|apply incl_appl, incl_refl].
    apply (captures_incl (bs' := bodies i a ++ bodies i b)) in IHb;
      [|apply incl_appr, incl_refl].
    apply IHb in H2 as [Hk|Hc]; [|right; exact Hc].
    rewrite Hk. apply IHa, H1.
  - intros st st' Hin. apply in_app_or in Hin as [Hin|Hin].
    + apply (captures_incl (bs' := bodies i a ++ bodies i b)) in IHa;
        [|apply incl_appl, incl_refl].
      apply IHa, Hin.
    + apply (captures_incl (bs' := bodies i a ++ bodies i b)) in IHb;
        [|apply incl_appr, incl_refl].
      apply IHb, Hin.
  - intros st st' Hin. eapply star_loop_captures; [exact IHa | exact Hin].
  - intros st st' Hin. apply in_map_iff in Hin as (st1 & <- & H1).
    cbn [caps lookup]. destruct (Nat.eqb i j) eqn:E.
    + right. exists a. apply exec_reads in H1 as (w & Hadv & Hw).
      exists w. split; [left; reflexivity|]. split; [exact Hw|].
      rewrite (consumed_advances Hadv). reflexivity.
    + destruct (IHa st st1 H1) as [Hk|(a' & w & Ha & Hw & Hl)];
        [left; exact Hk|].
      right. exists a', w. auto.
  - intros st st' Hin. destruct (seen st); [|inversion Hin].
    destruct Hin as [<-|[]]. left. reflexivity.
  - intros st st' Hin. destruct (rest st); [|inversion Hin].
    destruct Hin as [<-|[]]. left. reflexivity.
  - intros st st' Hin. destruct (at_word_boundary st); [|inversion Hin].
    destruct Hin as [<-|[]]. left. reflexivity.
Qed.

(** What [s.match(re)[i]] returns was read by a group numbered [i]. *)
Lemma match_group_captured (r : regex) (i : nat) (s g : jsstring) :
  1 <= i -> match_group r i s = Some g ->
  exists a, In a (bodies i r) /\ matches a g.
Proof.
  intros Hi. unfold match_group, search.
  destruct (search_from r [] s) as [[st st']|] eqn:E; [|discriminate].
  apply search_from_found in E as (Hc & tl & E).
  destruct i as [|i]; [lia|]. intros Hl.
  assert (Hin : In st' (exec r st)) by (rewrite E; left; reflexivity).
  destruct (exec_captures (S i) r st st' Hin) as [Hk|(a & w & Ha & Hw & Hw')].
  - rewrite Hc in Hk. cbn [lookup] in Hk. congruence.
  - exists a. split; [assumption|]. congruence.
Qed.

(** A reference number found in a text has the shape [dd/ddddd]. *)
Lemma re_fattura_shape (text g : jsstring) :
  match_group Serverless.re_fattura 1 text = Some g -> referenceShape g = true.
Proof.
  intros H. apply match_group_captured in H as (a & Ha & Hm); [|lia].
  cbn in Ha. destruct Ha as [<-|[]].
  cbn [Times] in Hm. invert_matches.
  cbn. repeat match goal with H : _ = true |- _ => rewrite H; clear H end.
  reflexivity.
Qed.

(* ================================================================== *)
(** ** The metadata of the in-browser variant *)

Lemma digit_not_slash (c : N) : is_digit c = true -> N.eqb c 47 = false.
Proof.
  unfold is_digit, between. intros H. apply andb_true_iff in H as [H _].
  apply N.leb_le in H. apply N.eqb_neq. lia.
Qed.

Lemma digit_id_char (c : N) : is_digit c = true -> id_char c = true.
Proof. unfold id_char. intros ->. reflexivity. Qed.

Lemma referenceShape_inv (g : jsstring) :
  referenceShape g = true ->
  exists d1 d2 d3 d4 d5 d6 d7,
    g = [d1; d2; 47%N; d3; d4; d5; d6; d7]
    /\ Forall (fun d => is_digit d = true) [d1; d2; d3; d4; d5; d6; d7].
Proof.
  unfold referenceShape. intros H. apply andb_true_iff in H as [Hl Hf].
  apply Nat.eqb_eq in Hl.
  destruct g as [|d1 [|d2 [|c [|d3 [|d4 [|d5 [|d6 [|d7 [|x g]]]]]]]]];
    try discriminate.
  cbn [fits] in Hf.
  repeat (apply andb_true_iff in Hf as [? Hf]).
  exists d1, d2, d3, d4, d5, d6, d7.
  assert (c = 47%N) by (apply N.eqb_eq; assumption). subst c.
  split; [reflexivity | repeat constructor; assumption].
Qed.

Lemma referenceShape_trim (g : jsstring) :
  referenceShape g = true -> trim g = g.
Proof.
  intros H. apply referenceShape_inv in H
    as (d1 & d2 & d3 & d4 & d5 & d6 & d7 & -> & Hd).
  apply trim_id. unfold trimmed. cbn [rev app startsClean].
  inversion Hd as [|? ? H1 Hd1]; subst.
  do 5 (inversion Hd1 as [|? ? _ Hd2]; subst; clear Hd1; rename Hd2 into Hd1).
  inversion Hd1 as [|? ? H7 _]; subst.
  rewrite (id_char_not_space _ (digit_id_char _ H1)).
  rewrite (id_char_not_space _ (digit_id_char _ H7)). reflexivity.
Qed.

Lemma referenceShape_dash (g : jsstring) :
  referenceShape g = true ->
  replace1 47 45 g <> [] /\ forallb id_char (replace1 47 45 g) = true.
Proof.
  intros H. apply referenceShape_inv in H
    as (d1 & d2 & d3 & d4 & d5 & d6 & d7 & -> & Hd).
  inversion Hd as [|? ? H1 Hd1]; subst.
  inversion Hd1 as [|? ? H2 Hd2]; subst.
  cbn [replace1]. rewrite (digit_not_slash _ H1), (digit_not_slash _ H2).
  cbn [N.eqb Pos.eqb]. split; [discriminate|].
  apply forallb_forall. rewrite Forall_forall in Hd2.
  intros c [<-|[<-|[<-|Hc]]].
  - apply digit_id_char, H1.
  - apply digit_id_char, H2.
  - reflexivity.
  - apply digit_id_char, Hd2, Hc.
Qed.

Section DocInfo.
Context `{RT : Runtime}.
Variable getDocument : Buffer -> option (list (option (list jsstring))).

Lemma fill_shaped (x m : option jsstring) :
  shaped x -> shaped m -> shaped (App.fill x m).
Proof.
  unfold App.fill. intros Hx Hm.
  destruct (App.falsy x); [|exact Hx].
  destruct m as [g|]; [|exact Hx].
  destruct (truthy g); [|exact Hx].
  cbn in Hm |- *. rewrite (referenceShape_trim _ Hm). exact Hm.
Qed.

Lemma readInfo_shaped (text : jsstring) (info : Client.DocInfo) :
  shaped (Client.fatturaNo info) ->
  shaped (Client.fatturaNo (App.readInfo text info)).
Proof.
  intros H. unfold App.readInfo. cbn [Client.fatturaNo].
  apply fill_shaped; [exact H|].
  destruct (match_group Serverless.re_fattura 1 text) as [g|] eqn:E; [|exact I].
  exact (re_fattura_shape _ E).
Qed.

Lemma readPages_shaped (doc : list (option (list jsstring))) (pages : list nat)
      (info info' : Client.DocInfo) :
  shaped (Client.fatturaNo info) ->
  App.readPages doc pages info = Some info' ->
  shaped (Client.fatturaNo info').
Proof.
  revert info. induction pages as [|p pages IH]; intros info Hs; cbn [App.readPages].
  - intros H. injection H as <-. exact Hs.
  - destruct (App.readPageText doc p) as [text|]; [|discriminate].
    pose proof (readInfo_shaped text info Hs) as Hs'.
    destruct (_ && _).
    + intros H. injection H as <-. exact Hs'.
    + apply IH, Hs'.
Qed.

Lemma extractDocInfo_shaped (content : Buffer) :
  shaped (Client.fatturaNo (App.extractDocInfo getDocument content)).
Proof.
  unfold App.extractDocInfo.
  destruct (getDocument content) as [doc|]; [|exact I].
  destruct (App.readPages doc (App.pagesToTry doc) App.noInfo) as [info|] eqn:E;
    [|exact I].
  exact (readPages_shaped doc _ App.noInfo I E).
Qed.

(** [extractDocInfo] gives no metadata for a document that pdf.js does not
    open, and a reference number only of the shape [dd/ddddd].  On a
    document of two pages or more whose second page can be read, what the
    second page gives is returned as it is when it holds both fields, and
    page 1 is then not read; otherwise page 1 is read too, a reference
    number of page 2 is kept whatever page 1 holds, and a page 1 that
    cannot be read discards what page 2 gave. *)
Theorem extractDocInfo_pages (content : Buffer) :
  (getDocument content = None ->
   App.extractDocInfo getDocument content = App.noInfo)
  /\ (forall f,
         Client.fatturaNo (App.extractDocInfo getDocument content) = Some f ->
         referenceShape f = true)
  /\ (forall p1 items2 more,
         getDocument content = Some (p1 :: Some items2 :: more) ->
         let found := App.readInfo (Client.join (str " ") items2) App.noInfo in
         (bothFound found = true ->
          App.extractDocInfo getDocument content = found)
         /\ (bothFound found = false -> p1 = None ->
             App.extractDocInfo getDocument content = App.noInfo)
         /\ (forall items1 f,
                p1 = Some items1 -> Client.fatturaNo found = Some f ->
                Client.fatturaNo (App.extractDocInfo getDocument content)
                = Some f)).
Proof.
  split; [|split].
  - unfold App.extractDocInfo. intros ->. reflexivity.
  - intros f Hf. pose proof (extractDocInfo_shaped content) as H.
    rewrite Hf in H. exact H.
  - intros p1 items2 more Hdoc. cbv zeta.
    unfold App.extractDocInfo. rewrite Hdoc.
    unfold App.pagesToTry. cbn [length filter Nat.leb].
    cbn [App.readPages App.readPageText Nat.sub nth_error].
    set (found := App.readInfo (Client.join (str " ") items2) App.noInfo).
    fold (bothFound found).
    split; [intros ->; reflexivity|]. split.
    + intros -> ->. reflexivity.
    + intros items1 f -> Hf.
      destruct (bothFound found); [exact Hf|].
      set (info := App.readInfo _ found).
      assert (Hi : Client.fatturaNo info = Some f).
      { unfold info, App.readInfo. cbn [Client.fatturaNo].
        rewrite Hf. unfold App.fill, App.falsy.
        pose proof (readInfo_shaped (Client.join (str " ") items2) App.noInfo I)
          as Hs.
        fold found in Hs. rewrite Hf in Hs. cbn in Hs.
        apply referenceShape_inv in Hs as (d1 & d2 & d3 & d4 & d5 & d6 & d7 & E & _).
        rewrite E. reflexivity. }
      fold (bothFound info). destruct (bothFound info); exact Hi.
Qed.

End DocInfo.

(* ================================================================== *)
(** ** The in-browser merge *)

Lemma id_prefix_inj (g1 g2 r1 r2 : jsstring) (c1 c2 : N) :
  forallb id_char g1 = true -> forallb id_char g2 = true ->
  id_char c1 = false -> id_char c2 = false ->
  g1 ++ c1 :: r1 = g2 ++ c2 :: r2 -> g1 = g2.
Proof.
  intros H1 H2 Hc1 Hc2. revert g2 H2.
  induction g1 as [|c g1 IH]; intros [|d g2] H2 E; simpl in *.
  - reflexivity.
  - injection E as -> _. apply andb_true_iff in H2 as [H2 _]. congruence.
  - injection E as -> _. apply andb_true_iff in H1 as [H1 _]. congruence.
  - injection E as <- E.
    apply andb_true_iff in H1 as [_ H1]. apply andb_true_iff in H2 as [_ H2].
    f_equal. apply IH; assumption.
Qed.

Lemma headed_inj (k1 k2 name : jsstring) :
  forallb id_char k1 = true -> forallb id_char k2 = true ->
  headed k1 name -> headed k2 name -> k1 = k2.
Proof.
  intros H1 H2 (c1 & r1 & E1 & Hc1) (c2 & r2 & E2 & Hc2).
  rewrite E1 in E2. exact (@id_prefix_inj k1 k2 r1 r2 c1 c2 H1 H2 Hc1 Hc2 E2).
Qed.

Lemma join_legal (parts : list jsstring) :
  Forall (fun p => forallb (fun c => negb (illegal c)) p = true) parts ->
  forallb (fun c => negb (illegal c)) (Client.join (str " - ") parts) = true.
Proof.
  induction parts as [|p [|q parts] IH]; intros H; [reflexivity | |].
  - inversion H; subst. assumption.
  - inversion H as [|? ? Hp Hrest]; subst.
    change (Client.join (str " - ") (p :: q :: parts))
      with (p ++ str " - " ++ Client.join (str " - ") (q :: parts)).
    rewrite !forallb_app. rewrite Hp, (IH Hrest). reflexivity.
Qed.

Section InBrowser.
Context `{RT : Runtime}.
Variable getDocument : Buffer -> option (list (option (list jsstring))).

Lemma fileNameOf_headed (k : jsstring) (info : Client.DocInfo) :
  k <> [] -> headed k (Client.fileNameOf k info).
Proof.
  intros Hk. unfold Client.fileNameOf. cbv zeta.
  assert (Hp : Client.part (Some k) = [k]).
  { unfold Client.part. destruct k; [congruence | reflexivity]. }
  rewrite Hp. set (more := Client.part _ ++ Client.part _). cbn [app].
  destruct more as [|q more].
  - cbn [Client.join]. exists 46%N, (str "pdf"). split; reflexivity.
  - change (Client.join (str " - ") (k :: q :: more))
      with (k ++ str " - " ++ Client.join (str " - ") (q :: more)).
    exists 32%N. eexists. split; [|reflexivity].
    rewrite <- !app_assoc. reflexivity.
Qed.

Lemma part_legal (x : option jsstring) :
  match x with
  | Some s => forallb (fun c => negb (illegal c)) s = true
  | None => True
  end ->
  Forall (fun p => forallb (fun c => negb (illegal c)) p = true) (Client.part x).
Proof.
  unfold Client.part. destruct x as [s|]; [|constructor].
  destruct (truthy s); repeat constructor. assumption.
Qed.

Lemma safeFilenamePart_legal (s : jsstring) :
  forallb (fun c => negb (illegal c)) (Client.safeFilenamePart s) = true.
Proof.
  change (Client.safeFilenamePart s) with (firstn 140 (Serverless.safeName s)).
  destruct (safeName_cleans s) as (Hl & _).
  apply forallb_Forall_true. apply forallb_Forall_true in Hl.
  rewrite <- (firstn_skipn 140 (Serverless.safeName s)) in Hl.
  apply Forall_app in Hl. tauto.
Qed.

Lemma fileNameOf_safe (k : jsstring) (info : Client.DocInfo) :
  k <> [] -> forallb id_char k = true -> shaped (Client.fatturaNo info) ->
  safeFileName (Client.fileNameOf k info).
Proof.
  intros Hne Hk Hs. split.
  - unfold Client.fileNameOf. cbv zeta. rewrite forallb_app.
    apply andb_true_iff. split; [|reflexivity].
    apply join_legal. repeat (apply Forall_app; split); apply part_legal.
    + apply ids_legal, Hk.
    + destruct (Client.fatturaNo info) as [f|]; [|exact I].
      destruct (truthy f); [|exact I].
      apply ids_legal. apply referenceShape_dash, Hs.
    + destruct (Client.intestatario info) as [s|]; [|exact I].
      destruct (truthy s); [|exact I]. apply safeFilenamePart_legal.
  - unfold Client.fileNameOf. cbv zeta. eexists. split; [|reflexivity].
    assert (Hp : Client.part (Some k) = [k]).
    { unfold Client.part. destruct k; [congruence | reflexivity]. }
    rewrite Hp. set (more := Client.part _ ++ Client.part _). cbn [app].
    destruct more as [|q more].
    + exact Hne.
    + change (Client.join (str " - ") (k :: q :: more))
        with (k ++ str " - " ++ Client.join (str " - ") (q :: more)).
      destruct k; [congruence | discriminate].
Qed.

Lemma ui_mergeFiles_spec (fs : list Client.FileWithStatus) (doc : list Page) :
  App.mergeFiles fs doc =
  if forallb loadsFile fs then Some (doc ++ concat (map pagesOfFile fs)) else None.
Proof.
  revert doc. induction fs as [|f fs IH]; intros doc; simpl.
  - rewrite app_nil_r. reflexivity.
  - unfold loadsFile at 1, pagesOfFile at 1.
    destruct (PDFDocument_load (Client.content f)) as [pdf|]; [|reflexivity].
    rewrite IH, addPages_app, <- app_assoc. reflexivity.
Qed.

(** One turn of the loop, for a group that is not empty. *)
Lemma ui_processGroup_spec (fs : list App.FileWithStatus) (k : jsstring)
      (a : App.archive) :
  mates k fs <> [] ->
  App.processGroup getDocument k (mates k fs) a =
  if forallb loadsFile (orderedMates k fs)
  then Some (App.MkArchive
               (Serverless.zipFile (fst (browserEntry getDocument fs k))
                                   (snd (browserEntry getDocument fs k))
                                   (App.zip a))
               (S (App.mergedCount a)))
  else None.
Proof.
  intros Hne. unfold App.processGroup, browserEntry, infoOf. cbv zeta.
  fold (orderedMates k fs). cbn [fst snd].
  destruct (orderedMates k fs) as [|first l] eqn:Eo.
  - exfalso. apply Hne.
    assert (Hl : length (orderedMates k fs) = length (mates k fs)).
    { unfold orderedMates, Client.orderGroupFiles.
      rewrite sort_length, length_map. reflexivity. }
    rewrite Eo in Hl. destruct (mates k fs); [reflexivity | discriminate].
  - rewrite ui_mergeFiles_spec. cbn [app].
    destruct (forallb loadsFile (first :: l)); reflexivity.
Qed.

Lemma ui_processGroups_entries (fs : list App.FileWithStatus)
      (ks done : list jsstring) (a : App.archive) :
  NoDup (done ++ ks) ->
  Forall (fun k => k <> [] /\ forallb id_char k = true) (done ++ ks) ->
  (forall k, In k ks -> mates k fs <> []) ->
  Forall (fun e : entry => exists k, In k done /\ headed k (fst e)) (App.zip a) ->
  App.processGroups getDocument (map (fun k => (k, mates k fs)) ks) a =
  if forallb (fun k => forallb loadsFile (orderedMates k fs)) ks
  then Some (App.MkArchive
               (App.zip a ++ map (browserEntry getDocument fs) ks)
               (App.mergedCount a + length ks))
  else None.
Proof.
  revert done a. induction ks as [|k ks IH]; intros done a Hnd Hid Hne Hz;
    cbn [map App.processGroups forallb length].
  - rewrite app_nil_r, Nat.add_0_r. destruct a; reflexivity.
  - rewrite ui_processGroup_spec by (apply Hne; left; reflexivity).
    destruct (forallb loadsFile (orderedMates k fs)); [|reflexivity].
    cbn [andb].
    assert (Hk : k <> [] /\ forallb id_char k = true).
    { rewrite Forall_app in Hid. destruct Hid as [_ Hid].
      inversion Hid; subst. assumption. }
    assert (Hhead : headed k (fst (browserEntry getDocument fs k))).
    { cbn [browserEntry fst]. apply fileNameOf_headed, Hk. }
    assert (Hfresh : ~ In (fst (browserEntry getDocument fs k))
                          (map fst (App.zip a))).
    { intros Hin. apply in_map_iff in Hin as (e & He & Hein).
      rewrite Forall_forall in Hz. destruct (Hz e Hein) as (k' & Hk' & Hh').
      rewrite He in Hh'.
      assert (Hk'id : forallb id_char k' = true).
      { rewrite Forall_forall in Hid. apply Hid. apply in_or_app. left. exact Hk'. }
      assert (E : k' = k) by (apply (headed_inj Hk'id (proj2 Hk) Hh' Hhead)).
      subst k'. apply NoDup_remove_2 in Hnd. apply Hnd.
      apply in_or_app. left. exact Hk'. }
    rewrite zipFile_fresh by exact Hfresh.
    rewrite (IH (done ++ [k])).
    + cbn [App.zip App.mergedCount].
      destruct (forallb _ ks); [|reflexivity].
      rewrite <- app_assoc. cbn [app].
      replace (S (App.mergedCount a) + length ks)
        with (App.mergedCount a + S (length ks)) by lia.
      destruct (browserEntry getDocument fs k). reflexivity.
    + rewrite <- app_assoc. exact Hnd.
    + rewrite <- app_assoc. exact Hid.
    + intros k' Hk'. apply Hne. right. exact Hk'.
    + cbn [App.zip]. apply Forall_app. split.
      * eapply Forall_impl; [|exact Hz].
        intros e (k' & Hk' & Hh). exists k'. split; [|exact Hh].
        apply in_or_app. left. exact Hk'.
      * constructor; [|constructor]. exists k. split; [|exact Hhead].
        apply in_or_app. right. left. reflexivity.
Qed.

Lemma validKeys_NoDup (fs : list App.FileWithStatus) : NoDup (validKeys fs).
Proof. apply NoDup_filter, firstSeen_NoDup. Qed.

Lemma validKeys_ids (fs : list App.FileWithStatus) :
  forallb tagged fs = true ->
  Forall (fun k => k <> [] /\ forallb id_char k = true) (validKeys fs).
Proof.
  intros Ht. apply Forall_forall. intros k Hk.
  apply filter_In in Hk as [Hk _]. apply (proj1 (firstSeen_In _ _)) in Hk.
  apply uiKeys_key in Hk as (f & Hin & Hkey).
  rewrite forallb_forall in Ht. rewrite (tagged_key f (Ht f Hin)) in Hkey.
  exact (keyOf_chars _ Hkey).
Qed.

Lemma validKeys_mates (fs : list App.FileWithStatus) (k : jsstring) :
  In k (validKeys fs) -> mates k fs <> [].
Proof.
  intros Hk. apply filter_In in Hk as [_ Hk]. apply Nat.leb_le in Hk.
  destruct (mates k fs); [simpl in Hk; lia | discriminate].
Qed.

Lemma valid_keys (s : App.state) :
  App.valid s = map (fun k => (k, mates k (App.files s))) (validKeys (App.files s)).
Proof. apply valid_spec. Qed.

(** The loop of [processFiles] on the valid groups of a sound list. *)
Lemma ui_run (s : App.state) :
  sound (App.files s) = true ->
  App.processGroups getDocument (App.valid s) (App.MkArchive [] 0) =
  if forallb (fun k => forallb loadsFile (orderedMates k (App.files s)))
             (validKeys (App.files s))
  then Some (App.MkArchive
               (map (browserEntry getDocument (App.files s))
                    (validKeys (App.files s)))
               (length (validKeys (App.files s))))
  else None.
Proof.
  intros Hs. rewrite valid_keys.
  rewrite (@ui_processGroups_entries (App.files s) (validKeys (App.files s)) []).
  - reflexivity.
  - apply validKeys_NoDup.
  - apply validKeys_ids, sound_tagged, Hs.
  - apply validKeys_mates.
  - constructor.
Qed.

End InBrowser.

Section InBrowserUse.
Context `{RT : Runtime}.
Variable getDocument : Buffer -> option (list (option (list jsstring))).

Lemma validKeys_length (s : App.state) :
  length (App.valid s) = length (validKeys (App.files s)).
Proof. rewrite valid_keys, length_map. reflexivity. Qed.

Lemma processFiles_sound (s : App.state) :
  sound (App.files s) = true ->
  App.processFiles getDocument s =
  if Nat.eqb (length (App.files s)) 0
  then (App.showError s (App.Text "Carica almeno 2 PDF per iniziare."), None)
  else
    match validKeys (App.files s) with
    | [] =>
        (App.showError s (App.Text "Nessuna coppia valida trovata. Carica almeno 2 PDF con lo stesso ID (es. 25-0249.pdf e 25-0249_Allegato1.pdf)."),
         None)
    | ks =>
        if forallb (fun k => forallb loadsFile (orderedMates k (App.files s))) ks
        then (App.MkState (App.files s) false None true,
              Some (map (browserEntry getDocument (App.files s)) ks))
        else (App.MkState (App.files s) false (Some App.OfException) false, None)
    end.
Proof.
  intros Hs. unfold App.processFiles.
  destruct (Nat.eqb (length (App.files s)) 0); [reflexivity|].
  rewrite validKeys_length, (ui_run getDocument s Hs).
  destruct (validKeys (App.files s)) as [|k ks]; [reflexivity|].
  cbn [length Nat.eqb].
  destruct (forallb _ (k :: ks)); reflexivity.
Qed.

(** [processFiles] refuses an empty list of files and a list in which no
    identifier is carried by two files.  Otherwise it is all or nothing:
    when every file of the valid groups loads, the archive handed to the
    browser holds one entry for each identifier that two files or more
    carry, in the order in which the identifiers first occur, named after
    the identifier and the metadata of the first file in merge order and
    holding the pages of the files in merge order; when one of them does
    not load, no archive is produced and the message of the exception is
    shown. *)
Theorem processFiles_outcome (s : App.state) :
  reachable getDocument s ->
  App.processFiles getDocument s =
  if Nat.eqb (length (App.files s)) 0
  then (App.showError s (App.Text "Carica almeno 2 PDF per iniziare."), None)
  else
    match validKeys (App.files s) with
    | [] =>
        (App.showError s (App.Text "Nessuna coppia valida trovata. Carica almeno 2 PDF con lo stesso ID (es. 25-0249.pdf e 25-0249_Allegato1.pdf)."),
         None)
    | ks =>
        if forallb (fun k => forallb loadsFile (orderedMates k (App.files s))) ks
        then (App.MkState (App.files s) false None true,
              Some (map (browserEntry getDocument (App.files s)) ks))
        else (App.MkState (App.files s) false (Some App.OfException) false, None)
    end.
Proof. intros H. apply processFiles_sound. exact (reachable_sound H). Qed.

(** The entries of an archive of the in-browser variant have pairwise
    distinct names, fit for a file system, and each name starts with the
    identifier of its group, followed by a character that no identifier
    holds. *)
Theorem processFiles_names (s : App.state) (entries : list entry) :
  reachable getDocument s ->
  snd (App.processFiles getDocument s) = Some entries ->
  NoDup (map fst entries)
  /\ length entries = length (validKeys (App.files s))
  /\ Forall (fun e : entry =>
               safeFileName (fst e)
               /\ exists k, In k (validKeys (App.files s)) /\ headed k (fst e))
            entries.
Proof.
  intros Hr H. apply reachable_sound in Hr.
  rewrite (processFiles_sound s Hr) in H.
  destruct (Nat.eqb (length (App.files s)) 0); [discriminate|].
  pose proof (validKeys_NoDup (App.files s)) as Hnd.
  pose proof (validKeys_ids (App.files s) (sound_tagged _ Hr)) as Hid.
  set (fs := App.files s) in *.
  assert (Hout : entries = map (browserEntry getDocument fs) (validKeys fs)).
  { destruct (validKeys fs) as [|k ks]; [discriminate|].
    cbv zeta in H.
    destruct (forallb _ (k :: ks)); [|discriminate].
    cbn [snd] in H. congruence. }
  clear H. rewrite Forall_forall in Hid.
  assert (Hhead : forall k, In k (validKeys fs) ->
                            headed k (fst (browserEntry getDocument fs k))).
  { intros k Hk. apply fileNameOf_headed, Hid, Hk. }
  rewrite Hout. split; [|split].
  - rewrite map_map. clear Hout.
    induction (validKeys fs) as [|k ks IH]; [constructor|].
    inversion Hnd as [|? ? Hnot Hnd']; subst. cbn [map]. constructor.
    + intros Hin. apply in_map_iff in Hin as (k' & E & Hk').
      assert (Hk'h : headed k' (fst (browserEntry getDocument fs k)))
        by (rewrite <- E; apply Hhead; right; exact Hk').
      assert (E' : k' = k).
      { apply (@headed_inj k' k (fst (browserEntry getDocument fs k))).
        - apply Hid. right. exact Hk'.
        - apply Hid. left. reflexivity.
        - exact Hk'h.
        - apply Hhead. left. reflexivity. }
      subst k'. contradiction.
    + apply IH; [exact Hnd' | |].
      * intros k' Hk'. apply Hid. right. exact Hk'.
      * intros k' Hk'. apply Hhead. right. exact Hk'.
  - apply length_map.
  - apply Forall_forall. intros e He. apply in_map_iff in He as (k & <- & Hk).
    split.
    + cbn [browserEntry fst]. apply fileNameOf_safe; try apply Hid, Hk.
      unfold infoOf. destruct (orderedMates k fs); [exact I|].
      apply extractDocInfo_shaped.
    + exists k. split; [exact Hk | apply Hhead, Hk].
Qed.

Lemma ui_processGroups_count (gs : App.grouping) (a a' : App.archive) :
  App.processGroups getDocument gs a = Some a' ->
  App.mergedCount a' = App.mergedCount a + length gs.
Proof.
  revert a. induction gs as [|[k fs] gs IH]; intros a; cbn [App.processGroups length].
  - intros H. injection H as <-. lia.
  - destruct (App.processGroup getDocument k fs a) as [a1|] eqn:E; [|discriminate].
    intros H. rewrite (IH _ H).
    unfold App.processGroup in E. cbv zeta in E.
    destruct (Client.orderGroupFiles (map App.file fs)); [discriminate|].
    destruct (App.mergeFiles _ _); [|discriminate].
    injection E as <-. cbn [App.mergedCount]. lia.
Qed.

(** The last guard of [processFiles] never fires: in no state the
    component reaches does [processFiles] leave the message of the check
    [mergedCount === 0] that follows the loop. *)
Theorem processFiles_last_guard_dead (s : App.state) :
  reachable getDocument s ->
  App.error (fst (App.processFiles getDocument s))
  <> Some (App.Text "Serve almeno una coppia di PDF con lo stesso ID nel nome file.").
Proof.
  intros _. unfold App.processFiles.
  destruct (Nat.eqb (length (App.files s)) 0); [cbn; discriminate|].
  destruct (Nat.eqb (length (App.valid s)) 0) eqn:Ev; [cbn; discriminate|].
  destruct (App.processGroups getDocument (App.valid s) (App.MkArchive [] 0))
    as [a|] eqn:E; [|cbn; discriminate].
  apply ui_processGroups_count in E. cbn [App.mergedCount] in E.
  apply Nat.eqb_neq in Ev.
  assert (Hz : Nat.eqb (App.mergedCount a) 0 = false) by (apply Nat.eqb_neq; lia).
  rewrite Hz. cbn. discriminate.
Qed.

End InBrowserUse.

(* ================================================================== *)
(** ** The groups shown *)

Section GroupsShown.
Context `{RT : Runtime}.

Lemma groupedFiles_spec (s : App.state) :
  App.groupedFiles s
  = map (fun k => (k, filter (fun f => JS.eqb (shownUnder f) k) (App.files s)))
        (firstSeen (map shownUnder (App.files s))).
Proof.
  assert (E : map shownUnder (App.files s)
              = flat_map (fun f => [shownUnder f]) (App.files s)).
  { induction (App.files s) as [|f l IH]; [reflexivity|].
    cbn [map flat_map app]. rewrite IH. reflexivity. }
  rewrite E.
  exact (grouping_spec (fun f => Some (shownUnder f)) (App.files s)).
Qed.

Lemma key_not_altro (f : App.FileWithStatus) (g : jsstring) :
  tagged f = true -> App.key f = Some g -> JS.eqb g (str "altro") = false.
Proof.
  intros Ht Hk. rewrite (tagged_key f Ht) in Hk.
  apply keyOf_chars in Hk as [_ Hc]. apply eqb_neq. intros ->.
  vm_compute in Hc. discriminate.
Qed.

(** In every state the component reaches, the list shows each file in
    exactly one group, that of its identifier or the group [altro], no
    group is empty, and a group is shown in green exactly when its files
    are flagged as paired. *)
Theorem groupedFiles_green_iff_paired
        (getDocument : Buffer -> option (list (option (list jsstring))))
        (s : App.state) :
  reachable getDocument s ->
  NoDup (map fst (App.groupedFiles s))
  /\ (forall f, In f (App.files s) ->
        forall e, In e (App.groupedFiles s) ->
                  (In f (snd e) <-> fst e = shownUnder f))
  /\ (forall f, In f (App.files s) ->
        In (shownUnder f) (map fst (App.groupedFiles s)))
  /\ (forall e, In e (App.groupedFiles s) ->
        snd e <> [] /\ App.highlighted e = forallb App.paired (snd e)).
Proof.
  intros Hr. apply reachable_sound in Hr.
  rewrite groupedFiles_spec. set (fs := App.files s) in *.
  split; [|split; [|split]].
  - rewrite map_map. cbn [fst]. rewrite map_id. apply firstSeen_NoDup.
  - intros f Hf e He. apply in_map_iff in He as (k & <- & _). cbn [fst snd].
    rewrite filter_In, eqb_eq. split; [intros [_ H]; congruence|].
    intros ->. auto.
  - intros f Hf. rewrite map_map. cbn [fst]. rewrite map_id.
    apply firstSeen_In. apply in_map. exact Hf.
  - intros e He. apply in_map_iff in He as (k & <- & Hk). cbn [fst snd].
    apply (proj1 (firstSeen_In _ _)) in Hk.
    apply in_map_iff in Hk as (f0 & Hk0 & Hf0).
    set (members := filter (fun f => JS.eqb (shownUnder f) k) fs).
    assert (Hin0 : In f0 members).
    { apply filter_In. split; [assumption|]. rewrite Hk0. apply eqb_refl. }
    split; [intros E; rewrite E in Hin0; destruct Hin0|].
    pose proof (sound_tagged _ Hr) as Ht. rewrite forallb_forall in Ht.
    unfold App.highlighted. cbn [fst snd].
    destruct (JS.eqb k (str "altro")) eqn:Ea; cbn [negb andb].
    + (* the group of the files without identifier *)
      apply eqb_eq in Ea. symmetry. apply not_true_iff_false. intros Hall.
      rewrite forallb_forall in Hall. specialize (Hall f0 Hin0).
      rewrite (sound_paired _ f0 Hr Hf0) in Hall. unfold hasMate in Hall.
      destruct (App.key f0) as [g|] eqn:Eg; [|discriminate].
      unfold shownUnder in Hk0. rewrite Eg in Hk0. subst g.
      rewrite Ea in Eg.
      pose proof (key_not_altro f0 (Ht f0 Hf0) Eg) as Hn.
      rewrite eqb_refl in Hn. discriminate.
    + (* the group of an identifier *)
      assert (Hm : members = mates k fs).
      { unfold members, mates. apply filter_ext_in. intros f Hf.
        unfold sameKey, keyed, shownUnder.
        destruct (App.key f) as [g|]; [reflexivity|].
        rewrite eqb_sym. exact Ea. }
      assert (Hp : forall f, In f members ->
                             App.paired f = Nat.leb 2 (length members)).
      { intros f Hf. rewrite Hm in Hf |- *.
        pose proof (proj1 (mates_key fs k f) Hf) as [Hfin Hfk].
        rewrite (sound_paired _ f Hr Hfin). unfold hasMate. rewrite Hfk.
        reflexivity. }
      destruct (Nat.leb 2 (length members)) eqn:El; symmetry.
      * apply forallb_forall. exact Hp.
      * apply not_true_iff_false. intros Hall.
        rewrite forallb_forall in Hall. specialize (Hall f0 Hin0).
        rewrite (Hp f0 Hin0) in Hall. discriminate.
Qed.

End GroupsShown.

(* ================================================================== *)
(** ** The normalization of the extracted text *)

Lemma leading_three (p : N -> bool) (s : jsstring) :
  Nat.leb 3 (length s) && forallb p (firstn 3 s)
  = Nat.leb 3 (length (leading p s)).
Proof.
  destruct s as [|a [|b [|c s]]]; cbn [length firstn forallb leading Nat.leb andb].
  - reflexivity.
  - destruct (p a); reflexivity.
  - destruct (p a); [destruct (p b)|]; reflexivity.
  - destruct (p a); [destruct (p b); [destruct (p c)|]|]; reflexivity.
Qed.

Lemma past_skipn_three (p : N -> bool) (s : jsstring) :
  Nat.leb 3 (length (leading p s)) = true -> past p (skipn 3 s) = past p s.
Proof.
  destruct s as [|a [|b [|c s]]]; cbn [leading length Nat.leb];
    try discriminate.
  - destruct (p a); discriminate.
  - destruct (p a); [destruct (p b)|]; discriminate.
  - destruct (p a) eqn:Ea; [|discriminate].
    destruct (p b) eqn:Eb; [|discriminate].
    destruct (p c) eqn:Ec; [|discriminate].
    intros _. cbn [skipn past]. rewrite Ea, Eb, Ec. reflexivity.
Qed.

(** The first match of [p{3,}] takes a whole run of three or more. *)
Lemma match_here_at_least_three (p : N -> bool) (sn rs : jsstring) :
  match match_here (AtLeast 3 (Chr p)) sn rs with
  | Some (_, st') =>
      Nat.leb 3 (length (leading p rs)) = true /\ rest st' = past p rs
  | None => Nat.leb 3 (length (leading p rs)) = false
  end.
Proof.
  unfold match_here, AtLeast.
  rewrite (@exec_seq_if (Times 3 (Chr p)) (Star true (Chr p)) _ _ _
                        (exec_times_class p 3 sn rs [])).
  rewrite leading_three.
  destruct (Nat.leb 3 (length (leading p rs))) eqn:E; [|reflexivity].
  destruct (exec_star_class_first p (rev (firstn 3 rs) ++ sn) (skipn 3 rs) [])
    as (others & ->).
  cbn [rest]. split; [reflexivity | apply past_skipn_three, E].
Qed.

Lemma cap_run (p : N -> bool) (s : jsstring) :
  cap p 2 s = cap p 0 (past p s).
Proof.
  induction s as [|c s IH]; [reflexivity|].
  cbn [cap past]. destruct (p c) eqn:E.
  - cbn [Nat.ltb Nat.leb]. exact IH.
  - cbn [cap]. rewrite E. reflexivity.
Qed.

Lemma cap_three (p : N -> bool) (x : N) (s : jsstring) :
  (forall c, p c = true -> c = x) ->
  Nat.leb 3 (length (leading p s)) = true ->
  cap p 0 s = x :: x :: cap p 0 (past p s).
Proof.
  intros Hp. destruct s as [|a [|b [|c s]]]; cbn [leading length Nat.leb];
    try discriminate.
  - destruct (p a); discriminate.
  - destruct (p a); [destruct (p b)|]; discriminate.
  - destruct (p a) eqn:Ea; [|discriminate].
    destruct (p b) eqn:Eb; [|discriminate].
    destruct (p c) eqn:Ec; [|discriminate].
    intros _. cbn [cap past]. rewrite Ea, Eb, Ec.
    cbn [Nat.ltb Nat.leb]. rewrite (Hp a Ea), (Hp b Eb).
    rewrite cap_run. reflexivity.
Qed.

Lemma replace_from_cap (p : N -> bool) (x : N) (n : nat) (sn rs : jsstring)
      (k : nat) :
  (forall c, p c = true -> c = x) ->
  length rs < n ->
  k = 0 \/ k + length (leading p rs) <= 2 ->
  replace_from n (AtLeast 3 (Chr p)) [x; x] sn rs = cap p k rs.
Proof.
  intros Hp. revert sn rs k. induction n as [|n IH]; intros sn rs k Hn Hk; [lia|].
  rewrite replace_from_step.
  pose proof (match_here_at_least_three p sn rs) as Hm.
  destruct (match_here (AtLeast 3 (Chr p)) sn rs) as [[st st']|].
  - destruct Hm as [H3 Hrest].
    assert (k = 0) by (apply Nat.leb_le in H3; lia). subst k.
    rewrite Hrest.
    assert (Hlt : Nat.ltb (length (past p rs)) (length rs) = true).
    { apply Nat.ltb_lt. apply Nat.leb_le in H3.
      rewrite <- (leading_past p rs) at 2. rewrite length_app. lia. }
    rewrite Hlt, (@cap_three p x rs Hp H3). cbn [app]. do 2 f_equal.
    apply IH; [|left; reflexivity].
    apply Nat.ltb_lt in Hlt. lia.
  - apply Nat.leb_gt in Hm.
    destruct rs as [|c rs]; [reflexivity|].
    cbn [cap]. cbn [leading] in Hm, Hk. cbn [length] in Hn.
    destruct (p c) eqn:Ec.
    + cbn [length] in Hm, Hk.
      assert (Hk2 : Nat.ltb k 2 = true) by (apply Nat.ltb_lt; lia).
      rewrite Hk2. f_equal. apply IH; [lia|]. right. lia.
    + f_equal. apply IH; [lia | left; reflexivity].
Qed.

Lemma replace_all_cap (p : N -> bool) (x : N) (s : jsstring) :
  (forall c, p c = true -> c = x) ->
  replace_all (AtLeast 3 (Chr p)) [x; x] s = cap p 0 s.
Proof.
  intros Hp. unfold replace_all.
  apply replace_from_cap; [exact Hp | lia | left; reflexivity].
Qed.

Lemma squeeze_apart (p : N -> bool) (x : N) (b : bool) (s : jsstring) :
  p x = true -> apart p b (squeeze_in p [x] b s) = true.
Proof.
  intros Hx. revert b. induction s as [|c s IH]; intros b; [reflexivity|].
  cbn [squeeze_in]. destruct (p c) eqn:Ec.
  - destruct b; cbn [app]; [apply IH|].
    cbn [apart]. rewrite Hx. cbn [negb andb]. apply IH.
  - cbn [apart]. rewrite Ec. apply IH.
Qed.

Lemma cap_apart (p q : N -> bool) (k : nat) (b : bool) (s : jsstring) :
  (forall c, p c = true -> q c = false) ->
  (0 < k -> b = false) ->
  apart q b s = true -> apart q b (cap p k s) = true.
Proof.
  intros Hpq. revert k b. induction s as [|c s IH]; intros k b Hk H;
    [reflexivity|].
  cbn [cap]. cbn [apart] in H. destruct (p c) eqn:Ec.
  - rewrite (Hpq c Ec) in H.
    destruct (Nat.ltb k 2) eqn:Ek.
    + cbn [apart]. rewrite (Hpq c Ec). apply IH; [reflexivity | exact H].
    + assert (b = false) by (apply Hk; apply Nat.ltb_ge in Ek; lia). subst b.
      apply IH; [reflexivity | exact H].
  - cbn [apart]. destruct (q c).
    + apply andb_true_iff in H as [Hb H]. rewrite Hb. cbn [andb].
      apply IH; [intros Hlt; lia | exact H].
    + apply IH; [intros Hlt; lia | exact H].
Qed.

Lemma apart_weaken (p : N -> bool) (b : bool) (s : jsstring) :
  apart p b s = true -> apart p false s = true.
Proof.
  destruct s as [|c s]; [reflexivity|]. cbn [apart].
  destruct (p c); [|auto]. intros H. apply andb_true_iff in H as [_ H]. exact H.
Qed.

Lemma apart_app (p : N -> bool) (b : bool) (x y : jsstring) :
  apart p b (x ++ y) = true -> apart p b x = true /\ apart p false y = true.
Proof.
  revert b. induction x as [|c x IH]; intros b; cbn [app apart].
  - intros H. split; [reflexivity | exact (apart_weaken _ _ _ H)].
  - destruct (p c).
    + intros H. apply andb_true_iff in H as [Hb H]. rewrite Hb.
      destruct (IH true H) as [H1 H2]. auto.
    + apply IH.
Qed.

Lemma apart_no_pair (p : N -> bool) (s : jsstring) (a b : N) :
  p a = true -> p b = true -> apart p false s = true -> ~ occursIn [a; b] s.
Proof.
  intros Ha Hb H (pre & post & E). subst s.
  apply apart_app in H as [_ H]. cbn [app apart] in H.
  rewrite Ha, Hb in H. discriminate.
Qed.

Lemma cap_lull (p : N -> bool) (k : nat) (s : jsstring) :
  k <= 2 -> lull p k (cap p k s) = true.
Proof.
  revert k. induction s as [|c s IH]; intros k Hk; [reflexivity|].
  cbn [cap]. destruct (p c) eqn:Ec.
  - destruct (Nat.ltb k 2) eqn:Ek.
    + cbn [lull]. rewrite Ec, Ek. apply IH. apply Nat.ltb_lt in Ek. lia.
    + apply IH, Hk.
  - cbn [lull]. rewrite Ec. apply IH. lia.
Qed.

Lemma lull_weaken (p : N -> bool) (k k' : nat) (s : jsstring) :
  k' <= k -> lull p k s = true -> lull p k' s = true.
Proof.
  revert k k'. induction s as [|c s IH]; intros k k' Hk; [reflexivity|].
  cbn [lull]. destruct (p c); [|auto].
  intros H. apply andb_true_iff in H as [H1 H2].
  apply Nat.ltb_lt in H1. apply andb_true_iff. split.
  - apply Nat.ltb_lt. lia.
  - apply (IH (S k)); [lia | exact H2].
Qed.

Lemma lull_app (p : N -> bool) (k : nat) (x y : jsstring) :
  lull p k (x ++ y) = true -> lull p k x = true /\ lull p 0 y = true.
Proof.
  revert k. induction x as [|c x IH]; intros k; cbn [app lull].
  - intros H. split; [reflexivity|]. apply (@lull_weaken p k 0 y); [lia | exact H].
  - destruct (p c).
    + intros H. apply andb_true_iff in H as [Hb H]. rewrite Hb.
      destruct (IH _ H) as [H1 H2]. auto.
    + apply IH.
Qed.

Lemma lull_no_triple (p : N -> bool) (s : jsstring) (a b c : N) :
  p a = true -> p b = true -> p c = true ->
  lull p 0 s = true -> ~ occursIn [a; b; c] s.
Proof.
  intros Ha Hb Hc H (pre & post & E). subst s.
  apply lull_app in H as [_ H]. cbn [app lull] in H.
  rewrite Ha, Hb, Hc in H. discriminate.
Qed.

Lemma cap_Forall (Q : N -> Prop) (p : N -> bool) (k : nat) (s : jsstring) :
  Forall Q s -> Forall Q (cap p k s).
Proof.
  revert k. induction s as [|c s IH]; intros k H; [constructor|].
  inversion H; subst. cbn [cap].
  destruct (p c); [destruct (Nat.ltb k 2)|]; try constructor; auto.
Qed.

Lemma cap_filter (p q : N -> bool) (k : nat) (s : jsstring) :
  (forall c, p c = true -> q c = false) ->
  filter q (cap p k s) = filter q s.
Proof.
  intros Hpq. revert k. induction s as [|c s IH]; intros k; [reflexivity|].
  cbn [cap]. destruct (p c) eqn:Ec.
  - destruct (Nat.ltb k 2); cbn [filter]; rewrite (Hpq c Ec); apply IH.
  - cbn [filter]. rewrite IH. reflexivity.
Qed.

Lemma squeeze_filter (p q : N -> bool) (by_ : jsstring) (b : bool) (s : jsstring) :
  (forall c, p c = true -> q c = false) -> filter q by_ = [] ->
  filter q (squeeze_in p by_ b s) = filter q s.
Proof.
  intros Hpq Hby. revert b. induction s as [|c s IH]; intros b; [reflexivity|].
  cbn [squeeze_in]. destruct (p c) eqn:Ec.
  - rewrite filter_app, IH. cbn [filter]. rewrite (Hpq c Ec).
    destruct b; [reflexivity | rewrite Hby; reflexivity].
  - cbn [filter]. rewrite IH. reflexivity.
Qed.

Lemma trim_filter (s : jsstring) :
  filter (fun c => negb (is_space c)) (trim s)
  = filter (fun c => negb (is_space c)) s.
Proof.
  destruct (trim_split s) as (a & b & E & Ha & Hb).
  rewrite E at 2. rewrite !filter_app.
  assert (Hn : forall w, forallb is_space w = true ->
                         filter (fun c => negb (is_space c)) w = []).
  { induction w as [|c w IH]; [reflexivity|]. cbn [forallb filter].
    intros H. apply andb_true_iff in H as [Hc Hw]. rewrite Hc. cbn [negb].
    apply IH, Hw. }
  rewrite (Hn a Ha), (Hn b Hb), app_nil_r. reflexivity.
Qed.

Lemma squeeze_drops (Q : N -> Prop) (p : N -> bool) (by_ : jsstring) (b : bool)
      (s : jsstring) :
  Forall Q by_ -> Forall (fun c => p c = false -> Q c) s ->
  Forall Q (squeeze_in p by_ b s).
Proof.
  intros Hby. revert b. induction s as [|c s IH]; intros b H; [constructor|].
  inversion H as [|? ? Hc Hs]; subst. cbn [squeeze_in].
  destruct (p c) eqn:Ec.
  - apply Forall_app. split; [destruct b; [constructor | exact Hby]|].
    apply IH, Hs.
  - constructor; [apply Hc; reflexivity | apply IH, Hs].
Qed.

Section Normalization.
Context `{RT : Runtime}.

Lemma normalize_eq (t : jsstring) :
  Backend.normalizeTextForSearch t
  = trim (cap (N.eqb 10) 0
            (squeeze blank (str " ")
               (map (fun c => if N.eqb 13 c then 10%N else c) t))).
Proof.
  unfold Backend.normalizeTextForSearch.
  rewrite replace_all_map.
  change (fun c : N => (c =? 32)%N || (c =? 9)%N) with blank.
  rewrite replace_all_runs.
  rewrite replace_all_cap; [reflexivity|].
  intros c Hc. apply N.eqb_eq in Hc. congruence.
Qed.

(** The normalized text holds no carriage return and no tabulation, no two
    spaces side by side and no three line feeds in a row, starts and ends
    with a character that is not white space, and keeps every character of
    the text that is not white space, in order; a text of white space only
    is normalized to the empty text. *)
Theorem normalizeTextForSearch_tidy (t : jsstring) :
  let t' := Backend.normalizeTextForSearch t in
  Forall (fun c => c <> 13%N /\ c <> 9%N) t'
  /\ trimmed t' = true
  /\ ~ occursIn [32%N; 32%N] t'
  /\ ~ occursIn [10%N; 10%N; 10%N] t'
  /\ filter (fun c => negb (is_space c)) t'
     = filter (fun c => negb (is_space c)) t
  /\ (forallb is_space t = true -> t' = []).
Proof.
  cbv zeta. rewrite normalize_eq.
  set (s1 := map (fun c => if N.eqb 13 c then 10%N else c) t).
  set (s2 := squeeze blank (str " ") s1).
  set (s3 := cap (N.eqb 10) 0 s2).
  assert (Hnl : forall c, N.eqb 10 c = true -> blank c = false).
  { intros c Hc. apply N.eqb_eq in Hc. subst c. reflexivity. }
  assert (Hnls : forall c, N.eqb 10 c = true -> negb (is_space c) = false).
  { intros c Hc. apply N.eqb_eq in Hc. subst c. reflexivity. }
  assert (Hbs : forall c, blank c = true -> negb (is_space c) = false).
  { intros c Hc. unfold blank in Hc. apply orb_true_iff in Hc as [Hc|Hc];
      apply N.eqb_eq in Hc; subst c; reflexivity. }
  split; [|split; [|split; [|split; [|split]]]].
  - apply trim_Forall, cap_Forall. unfold s2, squeeze.
    apply squeeze_drops; [repeat constructor; discriminate|].
    apply Forall_forall. intros c Hc Hb.
    apply in_map_iff in Hc as (c0 & E & _).
    split.
    + destruct (N.eqb 13 c0) eqn:E13; [subst c; discriminate|].
      subst c0. intros ->. discriminate.
    + intros ->. discriminate.
  - apply trim_trimmed.
  - destruct (trim_split s3) as (a & b & E & _).
    assert (H3 : apart blank false s3 = true).
    { unfold s3. apply cap_apart; [exact Hnl | intros H; lia|].
      unfold s2, squeeze. apply (squeeze_apart blank 32%N false s1).
      reflexivity. }
    rewrite E in H3. apply apart_app in H3 as [_ H3].
    apply apart_app in H3 as [H3 _].
    apply (apart_no_pair blank); [reflexivity | reflexivity | exact H3].
  - destruct (trim_split s3) as (a & b & E & _).
    assert (H3 : lull (N.eqb 10) 0 s3 = true) by (apply cap_lull; lia).
    rewrite E in H3. apply lull_app in H3 as [_ H3].
    apply lull_app in H3 as [H3 _].
    apply (lull_no_triple (N.eqb 10)); [reflexivity.. | exact H3].
  - rewrite trim_filter. unfold s3. rewrite (cap_filter _ _ 0 s2 Hnls).
    unfold s2, squeeze.
    rewrite (@squeeze_filter blank (fun c => negb (is_space c)) (str " ")
                             false s1 Hbs eq_refl).
    unfold s1. clear. induction t as [|c t IH]; [reflexivity|].
    cbn [map filter]. rewrite IH.
    destruct (N.eqb 13 c) eqn:E; [|reflexivity].
    apply N.eqb_eq in E. subst c. reflexivity.
  - intros Hb. apply trim_blank. apply forallb_Forall_true.
    apply cap_Forall. unfold s2, squeeze.
    apply squeeze_drops; [repeat constructor|].
    apply Forall_forall. intros c Hc _.
    apply in_map_iff in Hc as (c0 & E & Hin).
    rewrite forallb_forall in Hb. specialize (Hb c0 Hin).
    destruct (N.eqb 13 c0); subst c; [reflexivity | exact Hb].
Qed.

End Normalization.

(* ================================================================== *)
(** ** What the addressee heuristics need *)

Lemma matches_lit (cs : list (N -> bool)) (w : jsstring) :
  matches (Lit cs) w -> fits cs w = true /\ length w = length cs.
Proof.
  revert w. induction cs as [|p cs IH]; intros w H; cbn [Lit] in H.
  - inversion H; subst. split; reflexivity.
  - inversion H as [| |a b u v Hu Hv| | | | | | | |]; subst.
    inversion Hu as [|p' c Hc| | | | | | | | |]; subst.
    destruct (IH v Hv) as [Hf Hl]. cbn [app fits length].
    rewrite Hc, Hf, Hl. split; reflexivity.
Qed.

Lemma matches_word_i (s : string) (w : jsstring) :
  matches (WordI s) w ->
  map fold_ascii w
  = map (fun a => fold_ascii (N_of_ascii a)) (list_ascii_of_string s).
Proof.
  unfold WordI. intros H. apply matches_lit in H as [Hf Hl].
  apply fits_chr_i in Hf as (u & post & E & Hu).
  assert (Hlen : length u = length w).
  { rewrite Hl, length_map. rewrite <- (length_map fold_ascii u), Hu.
    apply length_map. }
  assert (post = []).
  { apply (f_equal (@length N)) in E. rewrite length_app in E.
    destruct post; [reflexivity | simpl in E; lia]. }
  subst post. rewrite app_nil_r in E. subst u. exact Hu.
Qed.

(** A match reads a word of the pattern somewhere in the string. *)
Lemma match_group_occurs (r : regex) (i : nat) (s g : jsstring) :
  match_group r i s = Some g ->
  exists pre w post, s = pre ++ w ++ post /\ matches r w.
Proof.
  unfold match_group, search.
  destruct (search_from r [] s) as [[st st']|] eqn:E; [|discriminate].
  intros _. apply search_from_some in E as (pre & post & Hs & Hm & _).
  unfold match_here in Hm.
  destruct (exec r (MState (rev pre ++ []) post [])) as [|st1 l] eqn:Ex;
    [discriminate|].
  injection Hm as <- <-.
  assert (Hin : In st1 (exec r (MState (rev pre ++ []) post [])))
    by (rewrite Ex; left; reflexivity).
  apply exec_reads in Hin as (w & [_ Hr] & Hw). cbn [rest] in Hr.
  exists pre, w, (rest st1). split; [rewrite Hs, Hr; reflexivity | exact Hw].
Qed.

Section Marks.
Context `{RT : Runtime}.

Lemma accepted_some (span : option jsstring) (cand : jsstring) :
  Backend.accepted span = Some cand -> exists g, span = Some g.
Proof.
  unfold Backend.accepted. destruct span as [g|]; [eauto | discriminate].
Qed.

Lemma label_occurs (r : regex) (text g : jsstring) :
  match_group (Seq (WordI "Intestatario") r) 1 text = Some g ->
  exists pre w post,
    text = pre ++ w ++ post /\ map fold_ascii w = str "intestatario".
Proof.
  intros H. apply match_group_occurs in H as (pre & w & post & E & Hw).
  inversion Hw as [| |a b u v Hu Hv| | | | | | | |]; subst.
  exists pre, u, (v ++ post). split; [rewrite <- app_assoc; reflexivity|].
  exact (@matches_word_i _ _ Hu).
Qed.

Lemma title_mark (w : jsstring) :
  matches Backend.re_title w ->
  exists u v, w = u ++ v
              /\ In (map fold_ascii u)
                    (map str ["dr"; "dott"; "sig"; "spett"; "gent"; "egr"]%string).
Proof.
  unfold Backend.re_title. intros H.
  repeat match goal with
         | H : matches (Alt _ _) _ |- _ => inversion H; subst; clear H
         end;
    match goal with
    | H : matches (Seq (WordI _) _) _ |- _ =>
        inversion H as [| |a b u v Hu Hv| | | | | | | |]; subst; clear H
    end;
    exists u, v; (split; [reflexivity|]);
    rewrite (@matches_word_i _ _ Hu); cbn; tauto.
Qed.

(** The addressee heuristics find nothing in a text that holds neither the
    label [Intestatario] nor one of the titles [Dr], [Dott], [Sig],
    [Spett], [Gent] and [Egr], in any mix of ASCII upper and lower case. *)
Theorem extractFromText_needs_mark (text name : jsstring) :
  Backend.extractFromText text = Some name ->
  exists pre w post,
    text = pre ++ w ++ post /\ In (map fold_ascii w) addresseeMarks.
Proof.
  unfold Backend.extractFromText.
  destruct (Backend.accepted (Backend.sameLine text)) as [c1|] eqn:E1.
  - intros _. apply accepted_some in E1 as (g & E1).
    unfold Backend.sameLine in E1.
    destruct (match_group Backend.re_same_line 1 text) as [g1|] eqn:Em;
      [|discriminate].
    apply label_occurs in Em as (pre & w & post & E & Hw).
    exists pre, w, post. split; [exact E|]. rewrite Hw. left. reflexivity.
  - destruct (Backend.accepted (Backend.nextLine text)) as [c2|] eqn:E2.
    + intros _. apply accepted_some in E2 as (g & E2).
      unfold Backend.nextLine in E2.
      destruct (match_group Backend.re_next_line 1 text) as [g1|] eqn:Em;
        [|discriminate].
      apply label_occurs in Em as (pre & w & post & E & Hw).
      exists pre, w, post. split; [exact E|]. rewrite Hw. left. reflexivity.
    + destruct (Backend.accepted (Backend.titledName text)) as [c3|] eqn:E3;
        [|discriminate].
      intros _. apply accepted_some in E3 as (g & E3).
      unfold Backend.titledName in E3. cbv zeta in E3.
      destruct (match_group Backend.re_titled_name 1 (slice0 2500 text))
        as [title|] eqn:Em; [|discriminate].
      apply match_group_occurs in Em as (pre & w & post & E & Hw).
      unfold Backend.re_titled_name in Hw.
      inversion Hw as [| |a b u0 v0 Hu0 Hv0| | | | | | | |]; subst.
      inversion Hv0 as [| |a b u1 v1 Hu1 Hv1| | | | | | | |]; subst.
      inversion Hu1 as [| | | | | | |i a u Hu| | |]; subst.
      apply title_mark in Hu as (u & v & -> & Hin).
      exists (pre ++ u0), u, (v ++ v1 ++ post ++ skipn 2500 text).
      split.
      * rewrite <- (firstn_skipn 2500 text) at 1.
        unfold slice0 in E. rewrite E. rewrite <- !app_assoc. reflexivity.
      * unfold addresseeMarks. right. exact Hin.
Qed.

End Marks.

(* ================================================================== *)
(** ** The theorems on the sample session *)

Lemma ui_flags_accurate_witness :
  Forall (fun f : App.FileWithStatus (RT := Sample.runtime) =>
            Client.groupId (App.file f)
            = App.extractGroupIdFromFilename (Client.name (App.file f))
            /\ (App.paired f = true
                <-> exists g, App.key f = Some g
                              /\ 2 <= length (mates g (App.files SampleUi.session))))
         (App.files SampleUi.session).
Proof.
  apply Forall_forall.
  apply (ui_flags_accurate (RT := Sample.runtime)
                           (getDocument := SampleUi.getDocument)).
  repeat constructor.
Defined.

Lemma paired_batch_passes_handler_guards_witness :
  Serverless.handler (map uploaded (App.files SampleUi.brokenSession))
  = Send 500 "Errore durante il merge PDF"
  /\ 500 = 500.
Proof.
  split; [vm_compute; reflexivity|].
  apply (paired_batch_passes_handler_guards
           (RT := Sample.runtime) (getDocument := SampleUi.getDocument)
           (s := SampleUi.brokenSession)
           (message := "Errore durante il merge PDF")).
  - repeat constructor.
  - vm_compute. reflexivity.
  - vm_compute. reflexivity.
Defined.

Lemma archive_means_paired_witness :
  App.hasAnyPairedGroup SampleUi.session = true.
Proof.
  apply (archive_means_paired
           (RT := Sample.runtime) (getDocument := SampleUi.getDocument)
           (s := SampleUi.session)
           (entries := Backend.toBuffer (RT := Sample.runtime)
                         [ (str "Mario Rossi.pdf", [1; 2; 5]);
                           (str "Dr Anna Bianchi.pdf", [6; 4]) ])).
  - repeat constructor.
  - vm_compute. reflexivity.
Defined.

Lemma extractDocInfo_pages_witness :
  Client.fatturaNo (App.extractDocInfo SampleUi.twoPages (Sample.pdf "" [1; 2]))
  = Some (str "25/02049").
Proof.
  destruct (extractDocInfo_pages (RT := Sample.runtime) SampleUi.twoPages
                                 (Sample.pdf "" [1; 2])) as (_ & _ & H).
  destruct (H (Some [str "Intestatario:"; str "Mario Rossi"])
              [str "Fattura N:"; str "25/02049"; str "Fattura N: 25/02050"]
              [] eq_refl) as (_ & _ & H3).
  apply (H3 [str "Intestatario:"; str "Mario Rossi"] (str "25/02049") eq_refl).
  vm_compute. reflexivity.
Defined.

Lemma processFiles_outcome_witness :
  App.processFiles SampleUi.getDocument SampleUi.session
  = (App.MkState (App.files SampleUi.session) false None true,
     Some [ (str "25-02050 - 25-02049 - Mario Rossi.pdf", [1; 2; 5]);
            (str "25-02051 - Dr Anna Bianchi.pdf", [6; 4]) ]).
Proof.
  rewrite (processFiles_outcome (RT := Sample.runtime)
                                (getDocument := SampleUi.getDocument)
                                (s := SampleUi.session)).
  - vm_compute. reflexivity.
  - repeat constructor.
Defined.

Lemma processFiles_names_witness :
  NoDup (map fst ([ (str "25-02050 - 25-02049 - Mario Rossi.pdf", [1; 2; 5]);
                    (str "25-02051 - Dr Anna Bianchi.pdf", [6; 4]) ]
                  : list (entry (RT := Sample.runtime))))
  /\ length ([ (str "25-02050 - 25-02049 - Mario Rossi.pdf", [1; 2; 5]);
               (str "25-02051 - Dr Anna Bianchi.pdf", [6; 4]) ]
             : list (entry (RT := Sample.runtime)))
     = length (validKeys (App.files SampleUi.session))
  /\ Forall (fun e : entry (RT := Sample.runtime) =>
               safeFileName (fst e)
               /\ exists k, In k (validKeys (App.files SampleUi.session))
                            /\ headed k (fst e))
            [ (str "25-02050 - 25-02049 - Mario Rossi.pdf", [1; 2; 5]);
              (str "25-02051 - Dr Anna Bianchi.pdf", [6; 4]) ].
Proof.
  apply (processFiles_names (RT := Sample.runtime)
                            (getDocument := SampleUi.getDocument)
                            (s := SampleUi.session)).
  - repeat constructor.
  - vm_compute. reflexivity.
Defined.

Lemma groupedFiles_green_iff_paired_witness :
  Forall (fun e : jsstring * list (App.FileWithStatus (RT := Sample.runtime)) =>
            snd e <> [] /\ App.highlighted e = forallb App.paired (snd e))
         (App.groupedFiles SampleUi.session).
Proof.
  apply Forall_forall.
  apply (proj2 (proj2 (proj2
           (groupedFiles_green_iff_paired
              (RT := Sample.runtime) (getDocument := SampleUi.getDocument)
              (s := SampleUi.session) ltac:(repeat constructor))))).
Defined.

Lemma updatePairing_flags_witness :
  map App.paired
      (App.files (App.updatePairing App.initial (App.files SampleUi.session)))
  = map (hasMate (App.files SampleUi.session)) (App.files SampleUi.session).
Proof.
  apply (updatePairing_flags (RT := Sample.runtime) App.initial
                             (App.files SampleUi.session)).
  vm_compute. reflexivity.
Defined.

Lemma processFiles_last_guard_dead_witness :
  reachable SampleUi.getDocument SampleUi.session
  /\ App.error (fst (App.processFiles SampleUi.getDocument SampleUi.session))
     <> Some (App.Text "Serve almeno una coppia di PDF con lo stesso ID nel nome file.").
Proof.
  assert (H : reachable SampleUi.getDocument SampleUi.session)
    by repeat constructor.
  split; [exact H|].
  exact (processFiles_last_guard_dead (RT := Sample.runtime)
                                      (getDocument := SampleUi.getDocument)
                                      (s := SampleUi.session) H).
Defined.

Lemma extractFromText_needs_mark_witness :
  exists pre w post,
    str "Fattura del 3 maggio. Egr. Mario Rossi" = pre ++ w ++ post
    /\ In (map fold_ascii w) addresseeMarks.
Proof.
  apply (@extractFromText_needs_mark
           Sample.runtime
           (str "Fattura del 3 maggio. Egr. Mario Rossi")
           (str "Egr. Mario Rossi")).
  vm_compute. reflexivity.
Defined.

(* ================================================================== *)
(** ** The outputs, group by group *)

Lemma Forall2_of_map (A B : Type) (f : A -> B) (P : A -> B -> Prop) (l : list A) :
  (forall x, In x l -> P x (f x)) -> Forall2 P l (map f l).
Proof.
  induction l as [|x l IH]; intros H; cbn [map]; constructor.
  - apply H. left. reflexivity.
  - apply IH. intros y Hy. apply H. right. exact Hy.
Qed.

Lemma Forall2_map_keys (A B C : Type) (f : A -> C) (P : A -> B -> Prop)
      (Q : C -> B -> Prop) (l : list A) (l' : list B) :
  (forall a b, In a l -> P a b -> Q (f a) b) ->
  Forall2 P l l' -> Forall2 Q (map f l) l'.
Proof.
  intros H Hall. induction Hall as [|a b l l' Hab Hall IH]; cbn [map]; constructor.
  - apply H; [left; reflexivity | exact Hab].
  - apply IH. intros a' b' Hin. apply H. right. exact Hin.
Qed.

Lemma Forall2_weaken (A B : Type) (P Q : A -> B -> Prop) (l : list A) (l' : list B) :
  (forall a b, In a l -> P a b -> Q a b) -> Forall2 P l l' -> Forall2 Q l l'.
Proof.
  intros H Hall. rewrite <- (map_id l).
  apply (@Forall2_map_keys A B A (fun a => a) P Q l l' H Hall).
Qed.

Lemma Forall2_In_l (A B : Type) (P : A -> B -> Prop) (l : list A) (l' : list B)
      (x : A) :
  Forall2 P l l' -> In x l -> exists y, In y l' /\ P x y.
Proof.
  intros Hall. induction Hall as [|a b l l' Hab Hall IH]; intros Hin; [destruct Hin|].
  destruct Hin as [<-|Hin].
  - exists b. split; [left; reflexivity | exact Hab].
  - destruct (IH Hin) as (y & Hy & Hxy). exists y. split; [right; exact Hy | exact Hxy].
Qed.

Lemma Forall2_Forall_r (A B : Type) (P : A -> B -> Prop) (l : list A) (l' : list B) :
  Forall2 P l l' -> Forall (fun y => exists x, In x l /\ P x y) l'.
Proof.
  intros Hall. induction Hall as [|a b l l' Hab Hall IH]; constructor.
  - exists a. split; [left; reflexivity | exact Hab].
  - eapply Forall_impl; [|exact IH].
    intros y (x & Hx & Hxy). exists x. split; [right; exact Hx | exact Hxy].
Qed.

Lemma map_fst_filter (A B : Type) (p : A -> bool) (l : list (A * B)) :
  map fst (filter (fun g => p (fst g)) l) = filter p (map fst l).
Proof.
  induction l as [|[a b] l IH]; cbn [filter map fst]; [reflexivity|].
  destruct (p a); cbn [map fst]; rewrite IH; reflexivity.
Qed.

Section BackendOutputs.
Context `{RT : Runtime}.

(** A run that finishes has added one entry for each complete group, in
    the order of the groups: the first free candidate of the group's base
    name, with the pages of the main document followed by those of the
    attachment. *)
Lemma processGroups_each (gs : Backend.groups) (st st' : Backend.state) :
  Backend.processGroups gs st = Backend.Finished st' ->
  exists new,
    Backend.zip st' = Backend.zip st ++ new
    /\ Forall2 (fun (g : jsstring * Backend.slots) (e : entry) =>
                  exists m a pm pa k,
                    snd g = Backend.MkSlots (Some m) (Some a)
                    /\ PDFDocument_load (Backend.buffer m) = Some pm
                    /\ PDFDocument_load (Backend.buffer a) = Some pa
                    /\ 1 <= k
                    /\ e = (candidate
                              (Backend.finalBaseOf (fst g) (Backend.intestatarioOf m a))
                              k,
                            pm ++ pa))
               (filter (fun g => completeSlots (snd g)) gs) new.
Proof.
  revert st. induction gs as [|[id sl] gs IH]; intros st;
    cbn [Backend.processGroups filter snd].
  - intros H. injection H as <-. exists [].
    split; [symmetry; apply app_nil_r | constructor].
  - destruct (slots_cases sl) as [Hc|(m & a & ->)].
    + rewrite processGroup_incomplete, Hc by assumption. apply IH.
    + destruct (processGroup_complete id m a st) as (k & Hk & _ & _ & ->).
      assert (Hcs : completeSlots (Backend.MkSlots (Some m) (Some a)) = true)
        by reflexivity.
      rewrite Hcs.
      destruct (PDFDocument_load (Backend.buffer m)) as [pm|] eqn:Em;
        [|discriminate].
      destruct (PDFDocument_load (Backend.buffer a)) as [pa|] eqn:Ea;
        [|discriminate].
      intros H. apply IH in H as (new & Hz & Hall). cbn [Backend.zip] in Hz.
      eexists (_ :: new). split; [rewrite Hz, <- app_assoc; reflexivity|].
      constructor; [|exact Hall].
      exists m, a, pm, pa, k. cbn [fst snd]. auto.
Qed.

Lemma complete_keys (files : list Backend.File) :
  map fst (filter (fun g => completeSlots (snd g)) (Backend.groupFiles files))
  = filter (isComplete files) (firstSeen (idsOf files)).
Proof.
  rewrite <- groupFiles_keys_order, <- map_fst_filter. f_equal.
  apply filter_ext_in. intros [id sl] Hin. cbn [fst snd].
  apply group_complete, Hin.
Qed.

(** The archive a request produces, group by group. *)
Lemma runRequest_each (files : list Backend.File) (st : Backend.state) :
  Backend.runRequest files = Backend.Finished st ->
  Forall2 (fun (id : jsstring) (e : entry) =>
             exists m a pm pa k,
               lastOf (mainsOf id files) = Some m
               /\ lastOf (attachmentsOf id files) = Some a
               /\ PDFDocument_load (Backend.buffer m) = Some pm
               /\ PDFDocument_load (Backend.buffer a) = Some pa
               /\ 1 <= k
               /\ fst e = candidate
                            (Backend.finalBaseOf id (Backend.intestatarioOf m a)) k
               /\ snd e = pm ++ pa)
          (filter (isComplete files) (firstSeen (idsOf files)))
          (Backend.zip st).
Proof.
  intros Hrun. unfold Backend.runRequest in Hrun.
  apply processGroups_each in Hrun as (new & Hz & Hall).
  cbn [Backend.zip app] in Hz. rewrite Hz, <- complete_keys.
  eapply Forall2_map_keys; [|exact Hall].
  intros [id sl] e Hin (m & a & pm & pa & k & Hsl & Hpm & Hpa & Hk & ->).
  apply filter_In in Hin as [Hin _]. apply group_slots in Hin.
  cbn [fst snd] in *. rewrite Hin in Hsl. injection Hsl as Hm Ha.
  exists m, a, pm, pa, k. auto 8.
Qed.

Lemma complete_listed (files : list Backend.File) (id : jsstring) :
  isComplete files id = true ->
  In id (filter (isComplete files) (firstSeen (idsOf files))).
Proof.
  intros H. apply filter_In. split; [|exact H].
  apply firstSeen_In. unfold isComplete in H.
  apply andb_true_iff in H as [H _].
  apply existsb_exists in H as (f & Hf & Hp).
  apply andb_true_iff in Hp as [Hp _]. apply hasId_idOf in Hp.
  unfold idsOf. apply in_flat_map. exists f. split; [exact Hf|].
  rewrite Hp. left. reflexivity.
Qed.

(** What the single-backend server sends, group by group. *)
Lemma route_each (files : list Backend.File) (entries : list entry) :
  Backend.route files = SendZip entries ->
  exists st,
    Backend.runRequest files = Backend.Finished st
    /\ entries = Backend.toBuffer (Backend.zip st)
    /\ Forall2 (fun (id : jsstring) (e : entry) =>
                  exists m a pm pa k,
                    lastOf (mainsOf id files) = Some m
                    /\ lastOf (attachmentsOf id files) = Some a
                    /\ PDFDocument_load (Backend.buffer m) = Some pm
                    /\ PDFDocument_load (Backend.buffer a) = Some pa
                    /\ 1 <= k
                    /\ fst e = candidate
                                 (Backend.finalBaseOf id (Backend.intestatarioOf m a)) k
                    /\ snd e = pm ++ pa)
               (filter (isComplete files) (firstSeen (idsOf files)))
               (Backend.zip st).
Proof.
  intros H. apply route_SendZip in H as (st & Hrun & <- & _).
  exists st. split; [exact Hrun|]. split; [reflexivity|].
  apply runRequest_each, Hrun.
Qed.

End BackendOutputs.

Section ServerlessOutputs.
Context `{RT : Runtime}.

Lemma s_processGroups_loaded (gs : Serverless.groups) (st st' : Serverless.state) :
  Serverless.processGroups gs st = Serverless.Finished st' ->
  forallb (fun g => groupLoads (snd g)) gs = true.
Proof.
  intros H.
  destruct (forallb (fun g => groupLoads (snd g)) gs) eqn:E; [reflexivity|].
  assert (Hex : existsb (fun g => negb (groupLoads (snd g))) gs = true).
  { clear H. induction gs as [|g gs IH]; [discriminate|].
    cbn [forallb existsb] in *.
    destruct (groupLoads (snd g)); [apply IH, E | reflexivity]. }
  destruct (s_processGroups_throws gs st Hex) as (st1 & Ht). congruence.
Qed.

(** What the serverless handler sends: one entry for each identifier with
    two files or more, in the order in which the identifiers first occur,
    every group having loaded. *)
Lemma handler_archive (files : list Serverless.UploadedFile)
      (entries : list entry) :
  Serverless.handler files = SendZip entries ->
  entries = map (entryOf files) (filter (isPair files) (firstSeen (keysOf files)))
  /\ forallb (fun g => groupLoads (snd g)) (Serverless.groupFiles files) = true.
Proof.
  intros H. apply handler_SendZip in H as (st & Hrun & <- & _).
  unfold Serverless.runRequest in Hrun.
  pose proof (s_processGroups_loaded _ _ Hrun) as Hload.
  split; [|exact Hload].
  destruct (@s_processGroups_entries _ files (Serverless.groupFiles files) []
                                     (Serverless.MkState [] 0))
    as (st' & Hrun' & Hz); auto.
  - apply incl_refl.
  - apply s_groupFiles_keys.
  - apply s_groupFiles_keys.
  - repeat split; constructor.
  - rewrite Hrun in Hrun'. injection Hrun' as <-. rewrite Hz.
    cbn [Serverless.zip app].
    rewrite <- s_groupFiles_keys_order, <- map_filter_fst.
    f_equal. apply filter_ext_in. intros [id fs] Hin. cbn [fst snd].
    rewrite (s_group_members files id fs Hin). reflexivity.
Qed.

Lemma pair_member (files : list Serverless.UploadedFile) (id : jsstring) :
  isPair files id = true ->
  exists f, In f files /\ keyOf f = Some id.
Proof.
  unfold isPair. intros H. apply Nat.leb_le in H.
  destruct (membersOf id files) as [|f l] eqn:E; [simpl in H; lia|].
  assert (Hf : In f (membersOf id files)) by (rewrite E; left; reflexivity).
  apply filter_In in Hf as [Hf Hk]. apply hasKey_keyOf in Hk.
  exists f. auto.
Qed.

Lemma pair_listed (files : list Serverless.UploadedFile) (id : jsstring) :
  isPair files id = true ->
  In id (filter (isPair files) (firstSeen (keysOf files))).
Proof.
  intros H. apply filter_In. split; [|exact H].
  apply firstSeen_In. destruct (pair_member files id H) as (f & Hf & Hk).
  unfold keysOf. apply in_flat_map. exists f. split; [exact Hf|].
  rewrite Hk. left. reflexivity.
Qed.

Lemma entryOf_merges (files : list Serverless.UploadedFile) (id : jsstring) :
  forallb (fun g => groupLoads (snd g)) (Serverless.groupFiles files) = true ->
  isPair files id = true ->
  mergesMembers files id (entryOf files id).
Proof.
  intros Hload Hp.
  assert (Hr : forallb readable (ordered (membersOf id files)) = true).
  { rewrite forallb_forall in Hload.
    specialize (Hload _ (s_pair_has_group files id Hp)). cbn [snd] in Hload.
    unfold groupLoads in Hload. unfold isPair in Hp. apply Nat.leb_le in Hp.
    assert (Hlt : Nat.ltb (length (membersOf id files)) 2 = false)
      by (apply Nat.ltb_ge; exact Hp).
    rewrite Hlt in Hload. cbn [orb] in Hload.
    apply andb_true_iff in Hload as [_ Hload]. exact Hload. }
  split; [apply sort_perm|].
  split; [apply ordered_mains_first|].
  split; [|split].
  - intros f Hf. apply readable_pagesOf.
    rewrite forallb_forall in Hr. apply Hr. apply sort_In. exact Hf.
  - reflexivity.
  - cbn [entryOf snd]. rewrite length_concat, map_map. reflexivity.
Qed.

End ServerlessOutputs.

(* ------------------------------------------------------------------ *)

Section MergeClaimByGroup.
Context `{RT : Runtime}.

(** C5. Whenever a server sends an archive, every complete group has its
    output in it and every output is that of a complete group, the outputs
    corresponding one to one to the complete groups in the order in which
    their identifiers first occur among the uploaded files.  The pages of
    an output are the pages of the members of its group, each member's
    pages in their own order and the members in their resolved order, so
    that its page count is the sum of theirs and a member without pages
    contributes nothing: in the single-backend server, where the members
    of a group are its last main document and its last attachment, the
    pages of the main document followed by those of the attachment; in
    the serverless handler the pages of the group's files in sorted order,
    in which no file with the attachment marker comes before a file
    without it.  An output is described by the pages copied into it. *)
Theorem merged_pages_are_members_pages_in_order :
  (forall (files : list Backend.File) entries,
      Backend.route files = SendZip entries ->
      (forall id, isComplete files id = true ->
                  exists e, In e entries /\ mergesPair files id e)
      /\ Forall (fun e : entry =>
                   exists id, isComplete files id = true /\ mergesPair files id e)
                entries
      /\ exists st,
          Backend.runRequest files = Backend.Finished st
          /\ entries = Backend.toBuffer (Backend.zip st)
          /\ Forall2 (mergesPair files)
                     (filter (isComplete files) (firstSeen (idsOf files)))
                     (Backend.zip st))
  /\ (forall (files : list Serverless.UploadedFile) entries,
         Serverless.handler files = SendZip entries ->
         (forall id, isPair files id = true ->
                     exists e, In e entries /\ mergesMembers files id e)
         /\ Forall (fun e : entry =>
                      exists id, isPair files id = true /\ mergesMembers files id e)
                   entries
         /\ Forall2 (mergesMembers files)
                    (filter (isPair files) (firstSeen (keysOf files)))
                    entries).
Proof.
  split.
  - intros files entries H.
    apply route_each in H as (st & Hrun & -> & Hall).
    assert (Hm : Forall2 (mergesPair files)
                         (filter (isComplete files) (firstSeen (idsOf files)))
                         (Backend.zip st)).
    { eapply Forall2_weaken; [|exact Hall].
      intros id e _ (m & a & pm & pa & k & Hm & Ha & Hpm & Hpa & _ & _ & He).
      exists m, a, pm, pa. repeat split; auto.
      rewrite He. apply length_app. }
    split; [|split].
    + intros id Hc.
      destruct (@Forall2_In_l _ _ _ _ _ id Hm (@complete_listed _ files id Hc))
        as (e & He & Hme).
      exists e. split; [apply toBuffer_In, He | exact Hme].
    + apply toBuffer_Forall.
      eapply Forall_impl; [|exact (@Forall2_Forall_r _ _ _ _ _ Hm)].
      intros e (id & Hid & Hme). exists id. split; [|exact Hme].
      apply filter_In in Hid. tauto.
    + exists st. auto.
  - intros files entries H.
    apply handler_archive in H as (-> & Hload).
    assert (Hm : Forall2 (mergesMembers files)
                         (filter (isPair files) (firstSeen (keysOf files)))
                         (map (entryOf files)
                              (filter (isPair files) (firstSeen (keysOf files))))).
    { apply Forall2_of_map. intros id Hid. apply filter_In in Hid as [_ Hp].
      apply entryOf_merges; assumption. }
    split; [|split].
    + intros id Hp.
      exact (@Forall2_In_l _ _ _ _ _ id Hm (@pair_listed _ files id Hp)).
    + eapply Forall_impl; [|exact (@Forall2_Forall_r _ _ _ _ _ Hm)].
      intros e (id & Hid & Hme). exists id. split; [|exact Hme].
      apply filter_In in Hid. tauto.
    + exact Hm.
Qed.

End MergeClaimByGroup.

Lemma merged_pages_are_members_pages_in_order_witness :
  (exists st,
      Backend.runRequest Sample.collidingBatch = Backend.Finished st
      /\ map snd (Backend.zip st) = [[1; 2; 3; 4; 5]; [6; 7]; [9]]
      /\ Forall2 (mergesPair Sample.collidingBatch)
                 [str "25-02050"; str "25-02051"; str "25-02052"]
                 (Backend.zip st))
  /\ (exists entries,
         Serverless.handler Cases.twoGroups = SendZip entries
         /\ map snd entries = [[7; 8]; [1; 2; 3]]
         /\ Forall2 (mergesMembers Cases.twoGroups)
                    [str "25-02049"; str "25-02050"]
                    entries).
Proof.
  split.
  - destruct (proj1 (merged_pages_are_members_pages_in_order (RT := Sample.runtime))
                    Sample.collidingBatch
                    (Backend.toBuffer (RT := Sample.runtime)
                       [ (str "Mario Rossi.pdf", [1; 2; 3; 4; 5]);
                         (str "Mario Rossi_2.pdf", [6; 7]);
                         (str "Mario Rossi_3.pdf", [9]) ]))
      as (_ & _ & st & Hrun & _ & Hall); [vm_compute; reflexivity|].
    assert (E : filter (isComplete Sample.collidingBatch)
                       (firstSeen (idsOf Sample.collidingBatch))
                = [str "25-02050"; str "25-02051"; str "25-02052"])
      by (vm_compute; reflexivity).
    rewrite E in Hall.
    exists st. split; [exact Hrun|]. split; [|exact Hall].
    vm_compute in Hrun. injection Hrun as <-. reflexivity.
  - eexists. split; [vm_compute; reflexivity|]. split; [reflexivity|].
    assert (E : [str "25-02049"; str "25-02050"]
                = filter (isPair Cases.twoGroups)
                         (firstSeen (keysOf Cases.twoGroups)))
      by (vm_compute; reflexivity).
    rewrite E.
    apply (proj2 (merged_pages_are_members_pages_in_order (RT := Sample.runtime))
                 Cases.twoGroups).
    vm_compute; reflexivity.
Defined.

(* ------------------------------------------------------------------ *)
(** ** The names of the outputs, variant by variant *)

Section NamesByVariant.
Context `{RT : Runtime}.

Lemma accepted_found (span : option jsstring) (n : jsstring) :
  Backend.accepted span = Some n -> truthy n = true.
Proof.
  unfold Backend.accepted. destruct span as [g|]; [|discriminate].
  destruct (Backend.cleanupCandidateName g) as [cand|]; [|discriminate].
  destruct (truthy cand) eqn:E; [|discriminate].
  intros H. injection H as <-. exact E.
Qed.

Lemma extractIntestatario_found (b : Buffer) (n : jsstring) :
  Backend.extractIntestatario b = Some n -> truthy n = true.
Proof.
  unfold Backend.extractIntestatario.
  destruct (pdfParse b) as [rawText|]; [|discriminate].
  destruct (negb (truthy rawText) || Nat.eqb (length (trim rawText)) 0);
    [discriminate|].
  unfold Backend.extractFromText.
  destruct (Backend.accepted (Backend.sameLine _)) as [c1|] eqn:E1.
  { intros H. injection H as <-. exact (accepted_found _ E1). }
  destruct (Backend.accepted (Backend.nextLine _)) as [c2|] eqn:E2.
  { intros H. injection H as <-. exact (accepted_found _ E2). }
  destruct (Backend.accepted (Backend.titledName _)) as [c3|] eqn:E3;
    [|discriminate].
  intros H. injection H as <-. exact (accepted_found _ E3).
Qed.

Lemma finalBaseOf_cases (id : jsstring) (m a : Backend.File) :
  Backend.finalBaseOf id (Backend.intestatarioOf m a)
  = match Backend.intestatarioOf m a with
    | Some n => Backend.safePdfFileName n
    | None => id
    end.
Proof.
  unfold Backend.finalBaseOf.
  destruct (Backend.intestatarioOf m a) as [n|] eqn:E; [|reflexivity].
  assert (Hn : truthy n = true).
  { unfold Backend.intestatarioOf in E. cbv zeta in E.
    destruct (Backend.falsy (Backend.extractIntestatario (Backend.buffer a)));
      exact (extractIntestatario_found _ E). }
  rewrite Hn. reflexivity.
Qed.

Lemma outputName_cases (id text : jsstring) :
  forallb id_char id = true ->
  Serverless.fileNameOf id (Serverless.fatturaOf id text)
                        (Serverless.intestatarioOf text)
  = id ++ str " - "
       ++ match match_group Serverless.re_fattura 1 text with
          | Some r => Serverless.safeName (replace1 47 45 r)
          | None => id
          end
       ++ str " - "
       ++ match match_group Serverless.re_intestatario 1 text with
          | Some n => Serverless.safeName n
          | None =>
              match match_group Serverless.re_dr 0 text with
              | Some n => Serverless.safeName n
              | None => str "Documento"
              end
          end
       ++ str ".pdf".
Proof.
  intros Hid.
  unfold Serverless.fileNameOf, Serverless.fatturaOf, Serverless.intestatarioOf,
    Serverless.sep.
  assert (Href : Serverless.safeName
                   (replace1 47 45
                      (Serverless.orElse (match_group Serverless.re_fattura 1 text)
                                         (replace1 45 47 id)))
                 = match match_group Serverless.re_fattura 1 text with
                   | Some r => Serverless.safeName (replace1 47 45 r)
                   | None => id
                   end).
  { destruct (match_group Serverless.re_fattura 1 text) as [r|];
      cbn [Serverless.orElse]; [reflexivity|].
    rewrite replace1_back.
    - apply clean_fixed, id_clean, Hid.
    - rewrite forallb_forall in Hid |- *. intros c Hc. specialize (Hid c Hc).
      destruct (N.eqb c 47) eqn:E; [|reflexivity].
      apply N.eqb_eq in E. subst c. discriminate. }
  rewrite Href.
  destruct (match_group Serverless.re_intestatario 1 text) as [n|];
    cbn [Serverless.orElse]; [reflexivity|].
  destruct (match_group Serverless.re_dr 0 text) as [n|];
    cbn [Serverless.orElse]; reflexivity.
Qed.

Lemma fileNameOf_cases (k : jsstring) (info : Client.DocInfo) :
  k <> [] ->
  Client.fileNameOf k info
  = match found (Client.fatturaNo info), printable (Client.intestatario info) with
    | Some r, Some n =>
        k ++ str " - " ++ replace1 47 45 r ++ str " - " ++ n ++ str ".pdf"
    | None, Some n => k ++ str " - " ++ n ++ str ".pdf"
    | Some r, None => k ++ str " - " ++ replace1 47 45 r ++ str ".pdf"
    | None, None => k ++ str ".pdf"
    end.
Proof.
  intros Hk. unfold Client.fileNameOf, printable, found. cbv zeta.
  assert (Hp : Client.part (Some k) = [k]).
  { unfold Client.part. destruct k; [congruence | reflexivity]. }
  rewrite Hp. clear Hp.
  destruct (Client.fatturaNo info) as [r|]; [destruct (truthy r) eqn:Er|];
    (destruct (Client.intestatario info) as [n|];
     [destruct (truthy n) eqn:En;
      [destruct (truthy (Client.safeFilenamePart n)) eqn:Es|]|]);
    unfold Client.part;
    try rewrite (replace1_truthy 47 45 r Er);
    try rewrite Es;
    cbn [app Client.join]; rewrite <- ?app_assoc; reflexivity.
Qed.

End NamesByVariant.

Section NamePreferenceClaim.
Context `{RT : Runtime}.

Lemma processFiles_archive
      (getDocument : Buffer -> option (list (option (list jsstring))))
      (s : App.state) (entries : list entry) :
  sound (App.files s) = true ->
  snd (App.processFiles getDocument s) = Some entries ->
  entries = map (browserEntry getDocument (App.files s)) (validKeys (App.files s)).
Proof.
  intros Hs H. rewrite (@processFiles_sound _ getDocument s Hs) in H.
  destruct (Nat.eqb (length (App.files s)) 0); [discriminate|].
  destruct (validKeys (App.files s)) as [|k ks]; [discriminate|].
  cbv zeta in H.
  destruct (forallb _ (k :: ks)); [|discriminate].
  cbn [snd] in H. congruence.
Qed.

(** C8. The base file name of the output of every complete group is built
    from the group's identifier and the metadata extracted from the
    group's documents, variant by variant.  In the in-browser variant:
    identifier, reference number and addressee when both fields are
    present; identifier and addressee when only the addressee is;
    identifier and reference number when only the reference number is; the
    bare identifier when neither is; an addressee counting as present when
    it is not empty once cleaned for the file system.  In the
    single-backend server: the cleaned addressee alone when one is
    extracted and the bare identifier otherwise, with a numeric suffix
    when the name is taken.  In the serverless handler: always identifier,
    reference number and addressee, the identifier standing in for a
    missing reference number and "Documento" for a missing addressee. *)
Theorem file_name_by_variant :
  (forall (getDocument : Buffer -> option (list (option (list jsstring))))
          (s : App.state) (entries : list entry),
      reachable getDocument s ->
      snd (App.processFiles getDocument s) = Some entries ->
      Forall2 (browserNamed getDocument (App.files s))
              (validKeys (App.files s)) entries)
  /\ (forall (files : list Backend.File) (entries : list entry),
         Backend.route files = SendZip entries ->
         exists st,
           Backend.runRequest files = Backend.Finished st
           /\ entries = Backend.toBuffer (Backend.zip st)
           /\ Forall2 (backendNamed files)
                      (filter (isComplete files) (firstSeen (idsOf files)))
                      (Backend.zip st))
  /\ (forall (files : list Serverless.UploadedFile) (entries : list entry),
         Serverless.handler files = SendZip entries ->
         Forall2 (serverlessNamed files)
                 (filter (isPair files) (firstSeen (keysOf files)))
                 entries).
Proof.
  split; [|split].
  - intros getDocument s entries Hr H. apply reachable_sound in Hr.
    rewrite (@processFiles_archive getDocument s entries Hr H).
    apply Forall2_of_map. intros k Hk.
    pose proof (validKeys_ids (App.files s) (sound_tagged _ Hr)) as Hid.
    rewrite Forall_forall in Hid. destruct (Hid k Hk) as [Hne _].
    unfold browserNamed, browserEntry. cbn [fst].
    apply fileNameOf_cases, Hne.
  - intros files entries H.
    apply route_each in H as (st & Hrun & -> & Hall).
    exists st. split; [exact Hrun|]. split; [reflexivity|].
    eapply Forall2_weaken; [|exact Hall].
    intros id e _ (m & a & pm & pa & k & Hm & Ha & _ & _ & Hk & Hname & _).
    exists m, a, k. rewrite <- finalBaseOf_cases. auto.
  - intros files entries H.
    apply handler_archive in H as (-> & _).
    apply Forall2_of_map. intros id Hid. apply filter_In in Hid as [_ Hp].
    destruct (pair_member files id Hp) as (f & _ & Hk).
    unfold serverlessNamed, entryOf, outputName. cbn [fst].
    apply outputName_cases. exact (proj2 (keyOf_chars f Hk)).
Qed.

End NamePreferenceClaim.

Lemma file_name_by_variant_witness :
  (exists entries,
      snd (App.processFiles SampleUi.getDocument SampleUi.session) = Some entries
      /\ map fst entries
         = [str "25-02050 - 25-02049 - Mario Rossi.pdf";
            str "25-02051 - Dr Anna Bianchi.pdf"]
      /\ Forall2 (browserNamed SampleUi.getDocument (App.files SampleUi.session))
                 [str "25-02050"; str "25-02051"]
                 entries)
  /\ (exists st,
         Backend.runRequest Cases.mixedBatch = Backend.Finished st
         /\ map fst (Backend.zip st) = [str "Mario Rossi.pdf"; str "25-02051.pdf"]
         /\ Forall2 (backendNamed Cases.mixedBatch)
                    [str "25-02050"; str "25-02051"]
                    (Backend.zip st))
  /\ (exists entries,
         Serverless.handler Cases.twoGroups = SendZip entries
         /\ map fst entries
            = [str "25-02049 - 25-02049 - Anna Bianchi.pdf";
               str "25-02050 - 25-02050 - Mario Rossi.pdf"]
         /\ Forall2 (serverlessNamed Cases.twoGroups)
                    [str "25-02049"; str "25-02050"]
                    entries).
Proof.
  destruct (file_name_by_variant (RT := Sample.runtime)) as (Hui & Hbackend & Hhandler).
  split; [|split].
  - eexists. split; [vm_compute; reflexivity|]. split; [reflexivity|].
    assert (E : [str "25-02050"; str "25-02051"]
                = validKeys (App.files SampleUi.session))
      by (vm_compute; reflexivity).
    rewrite E. apply Hui; [repeat constructor | vm_compute; reflexivity].
  - destruct (Hbackend Cases.mixedBatch
                (Backend.toBuffer (RT := Sample.runtime)
                   [ (str "Mario Rossi.pdf", [1; 2]);
                     (str "25-02051.pdf", [3; 4]) ]))
      as (st & Hrun & _ & Hall); [vm_compute; reflexivity|].
    assert (E : filter (isComplete Cases.mixedBatch)
                       (firstSeen (idsOf Cases.mixedBatch))
                = [str "25-02050"; str "25-02051"])
      by (vm_compute; reflexivity).
    rewrite E in Hall.
    exists st. split; [exact Hrun|]. split; [|exact Hall].
    vm_compute in Hrun. injection Hrun as <-. reflexivity.
  - eexists. split; [vm_compute; reflexivity|]. split; [reflexivity|].
    assert (E : [str "25-02049"; str "25-02050"]
                = filter (isPair Cases.twoGroups)
                         (firstSeen (keysOf Cases.twoGroups)))
      by (vm_compute; reflexivity).
    rewrite E. apply Hhandler. vm_compute; reflexivity.
Defined.

(** C8, as the specification words it, fails in two places.  The
    serverless handler never falls back to the bare identifier: for an
    invoice in which neither a reference number nor an addressee can be
    read, it names the output after the identifier, the identifier again
    and "Documento".  The in-browser variant leaves out an addressee that
    was read but holds no character fit for a file name: with the
    reference number and the addressee both read, the name holds the
    identifier and the reference number only, whatever is to stand for
    the addressee. *)
Lemma name_not_by_stated_preference :
  (match_group Serverless.re_fattura 1
               (textOf (membersOf (str "25-02050") Cases.plainUploads)) = None
   /\ match_group Serverless.re_intestatario 1
                  (textOf (membersOf (str "25-02050") Cases.plainUploads)) = None
   /\ match_group Serverless.re_dr 0
                  (textOf (membersOf (str "25-02050") Cases.plainUploads)) = None
   /\ Serverless.handler Cases.plainUploads
      = SendZip ([(str "25-02050 - 25-02050 - Documento.pdf", [1; 2])]
                 : list (entry (RT := Sample.runtime)))
   /\ ~ namedAsStated (str "25-02050") None None
                      (str "25-02050 - 25-02050 - Documento.pdf"))
  /\ (infoOf SampleUi.getDocument (str "25-02050") (App.files Cases.maskedSession)
      = Client.MkInfo (Some (str "***")) (Some (str "25/02049"))
      /\ snd (App.processFiles SampleUi.getDocument Cases.maskedSession)
         = Some ([(str "25-02050 - 25-02049.pdf", [1; 2])]
                 : list (entry (RT := Sample.runtime)))
      /\ forall shown,
          ~ namedAsStated (str "25-02050") (Some (str "25-02049")) (Some shown)
                          (str "25-02050 - 25-02049.pdf")).
Proof.
  split.
  - repeat split; try (vm_compute; reflexivity).
    unfold namedAsStated, statedBase. cbn. discriminate.
  - repeat split; try (vm_compute; reflexivity).
    intros shown. unfold namedAsStated, statedBase. cbn. discriminate.
Qed.

(* ------------------------------------------------------------------ *)

(** C4. The serverless handler passes what its patterns capture through no
    sanitizer.  For an invoice whose text reads "Intestatario: 25/02050"
    and, on the next line, "Dr Mario Rossi", the same-line heuristic
    captures the reference number and the Candidate Sanitizer rejects it;
    the extraction of the single-backend server moves on and returns the
    titled name, after which the output is named, while the handler takes
    the reference number as the addressee and names the output after
    it. *)
Lemma serverless_addressee_is_not_sanitized :
  Backend.sameLine (Backend.normalizeTextForSearch Cases.numericText)
  = Some (str "25/02050")
  /\ Backend.cleanupCandidateName (RT := Sample.runtime) (str "25/02050") = None
  /\ Backend.extractIntestatario (RT := Sample.runtime)
                                 (Some (Cases.numericText, [1]))
     = Some (str "Dr Mario Rossi")
  /\ Backend.route Cases.numericBatch
     = SendZip ([(str "Dr Mario Rossi.pdf", [1; 2])]
                : list (entry (RT := Sample.runtime)))
  /\ match_group Serverless.re_intestatario 1 Cases.numericText
     = Some (str "25/02050")
  /\ Serverless.intestatarioOf Cases.numericText = str "25/02050"
  /\ Serverless.handler Cases.numericUploads
     = SendZip ([(str "25-02050 - 25-02050 - 2502050.pdf", [1; 2])]
                : list (entry (RT := Sample.runtime))).
Proof. repeat split; vm_compute; reflexivity. Qed.

(* ------------------------------------------------------------------ *)

(** The index of an attachment is a number in double precision: two
    indexes that differ beyond the 53rd bit are the same number to
    [orderGroupFiles], which then orders the two names by collation. *)
Example orderGroupFiles_rounds_the_index :
  Client.allegatoIndex (str "25-02050_allegato0100000000000000000002.pdf")
  = Client.allegatoIndex (str "25-02050_allegato100000000000000000001.pdf")
  /\ Client.toNumber (str "9007199254740993") = 9007199254740992%Z
  /\ map (Client.name (RT := Sample.runtime))
         (Client.orderGroupFiles
            [ Client.MkStatus (RT := Sample.runtime)
                (str "25-02050_Allegato100000000000000000001.pdf")
                (Sample.pdf "" [2]) (Some (str "25-02050"));
              Client.MkStatus (RT := Sample.runtime)
                (str "25-02050.pdf") (Sample.pdf "" [1]) (Some (str "25-02050"));
              Client.MkStatus (RT := Sample.runtime)
                (str "25-02050_Allegato0100000000000000000002.pdf")
                (Sample.pdf "" [3]) (Some (str "25-02050")) ])
     = [str "25-02050.pdf";
        str "25-02050_Allegato0100000000000000000002.pdf";
        str "25-02050_Allegato100000000000000000001.pdf"].
Proof. repeat split; vm_compute; reflexivity. Qed.
